(** * Entity resolution of the broker-search bot

    A shallow embedding of [scripts/bot.py] and [scripts/matcher.py]:
    the normalizer, the alias expander, the synonym grouper, the district
    lookup, the matching cascade [find_best_match] and the two broker
    searches built on it.

    Python values are modelled as follows.
    - A [str] is the list of its Unicode code points.
    - [str.lower] is [lower] on text of the blocks the program's tables are
      written in (Basic Latin, Latin-1, Cyrillic); [Unicode.lower] is
      [str.lower] in every script, over the lower-case mapping of Unicode
      as a parameter.
    - A cell that pandas or JSON may leave empty is a [value]: [NA] or text.
    - Dictionaries whose iteration order is observable ([ALIASES], the
      district reference) are association lists in insertion order.
    - The similarity scorer of rapidfuzz and the regular expressions of
      [re] are parameters.
    - Exceptions are the [Raise] outcomes of an error monad. *)

From Stdlib Require Import List NArith ZArith QArith Bool Lia Sorted.
From Stdlib Require String Ascii.
Import ListNotations String.StringSyntax.

Local Open Scope string_scope.
Local Open Scope N_scope.

(* ================================================================== *)
(** * Strings *)

Definition char := N.
Definition str := list char.

(** ** Literals

    Source literals are written as UTF-8 text and decoded to code points. *)

Fixpoint bytes_of (s : String.string) : list N :=
  match s with
  | String.EmptyString => []
  | String.String a s' => Ascii.N_of_ascii a :: bytes_of s'
  end.

Fixpoint utf8_decode (pending : nat) (acc : N) (bs : list N) : str :=
  match bs with
  | [] => []
  | b :: bs' =>
      match pending with
      | O =>
          if b <? 128 then b :: utf8_decode 0 0 bs'
          else if b <? 224 then utf8_decode 1 (b - 192) bs'
          else if b <? 240 then utf8_decode 2 (b - 224) bs'
          else utf8_decode 3 (b - 240) bs'
      | S p =>
          let acc' := acc * 64 + (b - 128) in
          match p with
          | O => acc' :: utf8_decode 0 0 bs'
          | S _ => utf8_decode p acc' bs'
          end
      end
  end.

Definition u (s : String.string) : str := utf8_decode 0 0 (bytes_of s).

(** ** Equality, prefix and substring tests *)

Fixpoint str_eqb (a b : str) : bool :=
  match a, b with
  | [], [] => true
  | x :: a', y :: b' => (x =? y) && str_eqb a' b'
  | _, _ => false
  end.

(** [s.startswith(pre)] *)
Fixpoint startswith (s pre : str) {struct pre} : bool :=
  match pre with
  | [] => true
  | p :: pre' =>
      match s with
      | [] => false
      | c :: s' => (p =? c) && startswith s' pre'
      end
  end.

(** [sub in s] *)
Fixpoint contains (sub s : str) : bool :=
  startswith s sub ||
  match s with
  | [] => false
  | _ :: s' => contains sub s'
  end.

(** [x in xs] for a list of strings *)
Definition mem (x : str) (xs : list str) : bool := existsb (str_eqb x) xs.

(** ** [str.replace]

    All non-overlapping occurrences of [old], scanning from the left.
    [skip] counts the characters of the occurrence just replaced that are
    still to be dropped. *)

Fixpoint replace_from (old new : str) (skip : nat) (s : str) : str :=
  match s with
  | [] => []
  | c :: s' =>
      match skip with
      | S k => replace_from old new k s'
      | O =>
          if startswith s old
          then new ++ replace_from old new (length old - 1) s'
          else c :: replace_from old new 0 s'
      end
  end.

Definition replace (s old new : str) : str :=
  match old with
  | [] => new ++ flat_map (fun c => c :: new) s
  | _ :: _ => replace_from old new 0 s
  end.

(** ** Unicode classes used by [str.strip] and [str.lower] *)

(** The code points for which [str.isspace] holds; [strip()] removes these. *)
Definition isspace (c : char) : bool :=
  ((9 <=? c) && (c <=? 13)) || ((28 <=? c) && (c <=? 32)) ||
  (c =? 133) || (c =? 160) || (c =? 5760) ||
  ((8192 <=? c) && (c <=? 8202)) ||
  (c =? 8232) || (c =? 8233) || (c =? 8239) || (c =? 8287) || (c =? 12288).

(** Lower-casing of one code point, on the blocks the program's own tables
    are written in: Basic Latin, Latin-1 Supplement and Cyrillic up to
    U+045F, whose capitals are U+0400..U+042F.  On these code points this
    is the lower-case mapping of Unicode.  Code points outside them are left
    as they are, which is not what [str.lower] does to the cased letters of
    other blocks; [Unicode.lower] below covers every script, and
    [lower_agrees] relates the two. *)
Definition to_lower (c : char) : char :=
  if (65 <=? c) && (c <=? 90) then c + 32
  else if (192 <=? c) && (c <=? 222) && negb (c =? 215) then c + 32
  else if (1024 <=? c) && (c <=? 1039) then c + 80
  else if (1040 <=? c) && (c <=? 1071) then c + 32
  else c.

(** [str.lower] on text of these blocks. *)
Definition lower (s : str) : str := map to_lower s.

Fixpoint lstrip (s : str) : str :=
  match s with
  | [] => []
  | c :: s' => if isspace c then lstrip s' else s
  end.

Definition rstrip (s : str) : str := rev (lstrip (rev s)).

Definition strip (s : str) : str := rstrip (lstrip s).

(* ================================================================== *)
(** * Normalizer *)

(** A cell that may be missing: [pd.isna] holds of [NA] only. *)
Inductive value :=
| NA
| Text (s : str).

Definition sp : str := u " ".
Definition dsp : str := u "  ".

(** The loop [while "  " in text: text = text.replace("  ", " ")].  Every
    round shortens the text, so [length text] rounds are enough; see
    [collapse_spaces_done]. *)
Fixpoint collapse_spaces (fuel : nat) (text : str) : str :=
  match fuel with
  | O => text
  | S fuel' =>
      if contains dsp text
      then collapse_spaces fuel' (replace text dsp sp)
      else text
  end.

Definition normalize (text : value) : str :=
  match text with
  | NA => []
  | Text t =>
      let text := lower (strip t) in
      collapse_spaces (length text) text
  end.

(** [transliterate_ru_to_en]: the table, keyed by lower-case letter. *)
Definition translit_table : list (char * str) :=
  map (fun kv => (hd 0 (u (fst kv)), u (snd kv)))
    [ ("а", "a"); ("б", "b"); ("в", "v"); ("г", "g"); ("д", "d");
      ("е", "e"); ("ё", "e"); ("ж", "zh"); ("з", "z"); ("и", "i");
      ("й", "y"); ("к", "k"); ("л", "l"); ("м", "m"); ("н", "n");
      ("о", "o"); ("п", "p"); ("р", "r"); ("с", "s"); ("т", "t");
      ("у", "u"); ("ф", "f"); ("х", "h"); ("ц", "ts"); ("ч", "ch");
      ("ш", "sh"); ("щ", "sch"); ("ъ", ""); ("ы", "y"); ("ь", "");
      ("э", "e"); ("ю", "yu"); ("я", "ya") ].

(** [table.get(char, char)] *)
Definition table_get (c : char) : str :=
  match find (fun kv => fst kv =? c) translit_table with
  | Some kv => snd kv
  | None => [c]
  end.

Definition transliterate_ru_to_en (text : str) : str :=
  fold_left (fun result c => result ++ table_get c) (lower text) [].

Definition normalize_for_search (text : value) : str :=
  transliterate_ru_to_en (normalize text).

(* ================================================================== *)
(** * Alias expander *)

(** [ALIASES], in the insertion order of the dict literal. *)
Definition ALIASES : list (str * str) :=
  map (fun kv => (u (fst kv), u (snd kv)))
    [ ("клауд", "cloud");
      ("клауд тауэр", "cloud tower");
      ("тауэр", "tower");
      ("гранд", "grand");
      ("гарден", "garden");
      ("вест гарден", "west garden");
      ("вест", "west");
      ("резиденс", "residences");
      ("пиннакл", "pinnacle");
      ("марина", "marina");
      ("канал", "canal");
      ("фронт", "front");
      ("панорамик", "panoramic");
      ("стелла", "stella");
      ("марис", "maris");
      ("вида", "vida");
      ("крик", "creek");
      ("бич", "beach");
      ("поклонная", "покланная");
      ("праймпарк", "прайм парк");
      ("прайм", "прайм парк");
      ("артхаус", "артхаус");
      ("веллтон", "веллтон тауэрс");
      ("квартал на ленинском", "жк квартал на ленинском") ].

(** [d[k]] when [k in d] *)
Fixpoint dict_get (d : list (str * str)) (k : str) : option str :=
  match d with
  | [] => None
  | (k', v) :: d' => if str_eqb k k' then Some v else dict_get d' k
  end.

(** One round of the loop over [ALIASES.items()]. *)
Definition alias_step (query_norm : str) (variants : list str)
    (item : str * str) : list str :=
  let (alias, replacement) := item in
  if contains alias query_norm && negb (str_eqb alias query_norm) then
    let new_query := replace query_norm alias replacement in
    if negb (mem new_query variants) then variants ++ [new_query]
    else variants
  else variants.

Definition apply_aliases (query : str) : list str :=
  let query_norm := normalize (Text query) in
  let variants := [query_norm] in
  let variants :=
    match dict_get ALIASES query_norm with
    | Some replacement => variants ++ [normalize (Text replacement)]
    | None => variants
    end in
  fold_left (alias_step query_norm) ALIASES variants.

(* ================================================================== *)
(** * Synonym grouper *)

Definition SYNONYMS : list (list str) :=
  map (map u)
    [ ["Прайм парк"; "Prime Park"];
      ["Шагал"; "Shagal"];
      ["Соул"; "Soul"];
      ["Слава"; "Slava"];
      ["Ракурс"; "Rakurs"];
      ["Принципал плаза"; "Principal Plaza"];
      ["Примавера новая"; "Primavera"];
      ["Синатра"; "Sinatra вторичка"];
      ["Балчуг резиденс"; "Balchug Residence"];
      ["Сидней Сити"; "Sidney City"; "Sydney city"];
      ["Башня Федерация"; "Башня Федерация вторичка"];
      ["Садовые кварталы"; "Вторичка Садовые кварталы"];
      ["Династия"; "Вторичка Династия"];
      ["Knightsbridge Private Park";
       "Вторичка Knightsbridge Private Park"];
      ["Остров"; "Остров Вторичка"];
      ["ЖК Крылья"; "Крылья вторичка"];
      ["ЖК Таврический"; "Таврический"];
      ["Дом в Николино"; "Николино"];
      ["Башня Город Столиц"; "Город Столиц"];
      ["Level Мичуринский"; "Мичуринский"];
      ["Canal Front"; "Canal Front Residences 3"];
      ["Поклонная 9"; "Поклонная, 9"; "Покланная 9"];
      ["Lucky"; "Lacky"] ].

Definition get_synonyms (object_name : str) : list str :=
  let object_norm := normalize (Text object_name) in
  match
    find (fun group =>
            let group_norm := map (fun o => normalize (Text o)) group in
            mem object_norm group_norm) SYNONYMS
  with
  | Some group => group
  | None => [object_name]
  end.

(* ================================================================== *)
(** * District lookup *)

(** One entry of the reference file.  [NA] stands for a key that is absent
    or null: [normalize(info.get(k, ""))] is the empty string and
    [info.get(k)] is [None] in both cases. *)
Record district_info := {
  district : value;
  city : value;
  country : value
}.

Record district_object := {
  do_object : str;
  do_district : value;
  do_city : value;
  do_country : value
}.

Definition district_entry (obj_name : str) (info : district_info)
    : district_object :=
  {| do_object := obj_name;
     do_district := district info;
     do_city := city info;
     do_country := country info |}.

(** One round of the loop over [districts_data.items()]. *)
Definition district_step (district_query_norm : str)
    (results : list district_object) (item : str * district_info)
    : list district_object :=
  let (obj_name, info) := item in
  let district_norm := normalize (district info) in
  let city_norm := normalize (city info) in
  if contains district_query_norm district_norm
     || contains district_norm district_query_norm
  then results ++ [district_entry obj_name info]
  else if contains district_query_norm city_norm
          || str_eqb city_norm district_query_norm
  then results ++ [district_entry obj_name info]
  else results.

(** [districts_data] is what [load_districts()] returned. *)
Definition get_objects_by_district
    (districts_data : list (str * district_info)) (district_query : str)
    : list district_object :=
  let district_query_norm := normalize (Text district_query) in
  fold_left (district_step district_query_norm) districts_data [].

(* ================================================================== *)
(** * Matcher *)

(** Scores are compared, never computed with: the integer constants of the
    cascade and the floating-point similarities of the scorer are both
    modelled as rationals. *)
Definition score := Q.

Definition Qlt_bool (a b : Q) : bool := negb (Qle_bool b a).

(** The result triple [(object, score, exact_match)]. *)
Definition match_result : Type := option str * score * bool.

Definition no_match : match_result := (None, 0%Q, false).

(** The candidates next to their two precomputed forms: the entry at
    position [i] is [(objects[i], (objects_norm[i], objects_translit[i]))]. *)
Definition enumerate3 (objects objects_norm objects_translit : list str)
    : list (str * (str * str)) :=
  combine objects (combine objects_norm objects_translit).

(** One [for i, obj in enumerate(objects)] loop with its early return:
    the first candidate whose forms pass [test]. *)
Definition first_object (test : str -> str -> bool)
    (triples : list (str * (str * str))) : option str :=
  match find (fun t => test (fst (snd t)) (snd (snd t))) triples with
  | Some t => Some (fst t)
  | None => None
  end.

(** The loop [for query_variant in query_variants] over tiers 1 to 3. *)
Fixpoint cascade (triples : list (str * (str * str)))
    (query_variants : list str) : option (str * score) :=
  match query_variants with
  | [] => None
  | query_variant :: rest =>
      let query_translit := normalize_for_search (Text query_variant) in
      match first_object
              (fun obj_norm obj_translit =>
                 str_eqb query_variant obj_norm
                 || str_eqb query_translit obj_translit) triples with
      | Some obj => Some (obj, 100%Q)
      | None =>
      match first_object
              (fun obj_norm obj_translit =>
                 contains query_variant obj_norm
                 || contains query_translit obj_translit) triples with
      | Some obj => Some (obj, 95%Q)
      | None =>
      match first_object
              (fun obj_norm obj_translit =>
                 contains obj_norm query_variant
                 || contains obj_translit query_translit) triples with
      | Some obj => Some (obj, 90%Q)
      | None => cascade triples rest
      end end end
  end.

Section Scorer.

(** [fuzz.WRatio] of rapidfuzz. *)
Variable WRatio : str -> str -> score.

(** [process.extractOne(query, choices, scorer=WRatio, score_cutoff=c)]:
    the first choice of highest score among those scoring at least [c],
    as [(choice, score, index)]. *)
Fixpoint extractOne_from (query : str) (score_cutoff : score) (i : nat)
    (choices : list str) (result : option (str * score * nat))
    : option (str * score * nat) :=
  match choices with
  | [] => result
  | choice :: rest =>
      let s := WRatio query choice in
      let taken :=
        Qle_bool score_cutoff s &&
        match result with
        | None => true
        | Some (_, best, _) => Qlt_bool best s
        end in
      extractOne_from query score_cutoff (S i) rest
        (if taken then Some (choice, s, i) else result)
  end.

Definition extractOne (query : str) (choices : list str)
    (score_cutoff : score) : option (str * score * nat) :=
  extractOne_from query score_cutoff 0 choices None.

(** One round of the fuzzy loop; the state is
    [(best_result, best_score)]. *)
Definition fuzzy_step (objects_translit : list str)
    (best : option (str * score * nat) * score) (query_variant : str)
    : option (str * score * nat) * score :=
  let query_translit := normalize_for_search (Text query_variant) in
  match extractOne query_translit objects_translit 75%Q with
  | Some (m, s, idx) =>
      if Qlt_bool (snd best) s then (Some (m, s, idx), s) else best
  | None => best
  end.

(** Tier 4.  [objects[idx]] cannot fail: see [fuzzy_index_in_range]. *)
Definition fuzzy_tier (objects objects_translit query_variants : list str)
    : match_result :=
  match fold_left (fuzzy_step objects_translit) query_variants
          (None, 0%Q) with
  | (Some (_, s, idx), _) =>
      match nth_error objects idx with
      | Some obj => (Some obj, s, false)
      | None => no_match
      end
  | (None, _) => no_match
  end.

Definition find_best_match (query : str) (objects : list str)
    : match_result :=
  match objects with
  | [] => no_match
  | _ :: _ =>
      let query_variants := apply_aliases query in
      let objects_norm := map (fun o => normalize (Text o)) objects in
      let objects_translit :=
        map (fun o => normalize_for_search (Text o)) objects in
      match cascade (enumerate3 objects objects_norm objects_translit)
              query_variants with
      | Some (obj, s) => (Some obj, s, true)
      | None => fuzzy_tier objects objects_translit query_variants
      end
  end.

End Scorer.

(* ================================================================== *)
(** * Exceptions *)

Inductive exn :=
| ValueError (msg : str)   (* raised by the program itself *)
| StrptimeError            (* [datetime.strptime] rejecting a date cell *)
| OverflowError            (* date arithmetic leaving the supported range *)
| ReError                  (* [re.error]: the pattern is no regular
                              expression *)
| AttributeError.          (* [.str] on a column that holds no text *)

Inductive outcome (A : Type) :=
| Return (a : A)
| Raise (e : exn).
Arguments Return {A} a.
Arguments Raise {A} e.

Definition bind {A B : Type} (m : outcome A) (k : A -> outcome B)
    : outcome B :=
  match m with
  | Return a => k a
  | Raise e => Raise e
  end.

Notation "x <- m ;; k" := (bind m (fun x => k))
  (at level 61, m at next level, right associativity).

(* ================================================================== *)
(** * Dates *)

(** A naive [datetime]: the proleptic Gregorian ordinal of its day
    ([toordinal()]) and the microseconds elapsed since midnight. *)
Record datetime := {
  dt_day : Z;
  dt_us : Z
}.

Definition MAXORDINAL : Z := 3652059.
Definition US_PER_DAY : Z := 86400000000.

Definition valid_datetime (t : datetime) : Prop :=
  (1 <= dt_day t <= MAXORDINAL)%Z /\ (0 <= dt_us t < US_PER_DAY)%Z.

(** [a >= b] *)
Definition datetime_ge (a b : datetime) : bool :=
  (dt_day b <? dt_day a)%Z
  || ((dt_day a =? dt_day b)%Z && (dt_us b <=? dt_us a)%Z).

(** [now - timedelta(days=days)] *)
Definition minus_days (now : datetime) (days : Z) : outcome datetime :=
  if ((Z.abs days <=? 999999999)
      && (1 <=? dt_day now - days) && (dt_day now - days <=? MAXORDINAL))%Z
  then Return {| dt_day := dt_day now - days; dt_us := dt_us now |}
  else Raise OverflowError.

(** A date cell, kept as what [strptime(_, "%d.%m.%Y")] makes of it: the
    day it denotes, or a failure.  [strptime] fails with [ValueError] on
    text that is no date of this format and with [TypeError] on a cell that
    holds no text, an empty one included; [Malformed] stands for both. *)
Inductive date_text :=
| Dated (toordinal : Z)
| Malformed.

(** The parsed value carries no time of day: it is midnight of that day. *)
Definition midnight (d : Z) : datetime := {| dt_day := d; dt_us := 0 |}.

Definition parse_date (date_str : date_text) : outcome datetime :=
  match date_str with
  | Dated d => Return (midnight d)
  | Malformed => Raise StrptimeError
  end.

(* ================================================================== *)
(** * The showings table *)

(** A row of the sheet; the fields are the cells under the columns
    "Брокер", "Дата", "Объект" and "Статус". *)
Record row := {
  Broker : value;
  Date : date_text;
  Object : value;
  Status : value
}.

Record DataFrame := {
  columns : list str;
  rows : list row
}.

Definition required : list str := [u "Брокер"; u "Дата"; u "Объект"].

(** The first required column that [df.columns] lacks. *)
Definition missing_column (df : DataFrame) : option str :=
  find (fun col => negb (mem col (columns df))) required.

Definition missing_message (col : str) : str :=
  u "Отсутствует колонка: " ++ col.

(** [load_data()] returns [(df, None)] or [(None, error)].  [file] is the
    content of [DATA_FILE], [None] when it does not exist. *)
Definition load_data (file : option DataFrame) : DataFrame + str :=
  match file with
  | None => inr (u "Файл данных не найден")
  | Some df =>
      match missing_column df with
      | Some col => inr (missing_message col)
      | None => inl df
      end
  end.

(** [df["_date"] = df["Дата"].apply(parse_date)] *)
Fixpoint apply_parse_date (rs : list row) : outcome (list (row * datetime)) :=
  match rs with
  | [] => Return []
  | r :: rs' =>
      d <- parse_date (Date r) ;;
      ds <- apply_parse_date rs' ;;
      Return ((r, d) :: ds)
  end.

(** [df[df["_date"] >= cutoff]] *)
Definition date_filter (cutoff : datetime) (dated : list (row * datetime))
    : list row :=
  map fst (filter (fun rd => datetime_ge (snd rd) cutoff) dated).

(** The three lines both searches share: the cut-off, the parsed dates
    and the filter; the result is the frame of the rows dated at or after
    [now - days]. *)
Definition date_window (now : datetime) (days : Z) (rs : list row)
    : outcome (list row) :=
  cutoff <- minus_days now days ;;
  dated <- apply_parse_date rs ;;
  Return (date_filter cutoff dated).

(** [Series.dropna()] *)
Definition dropna (vs : list value) : list str :=
  flat_map (fun v => match v with NA => [] | Text s => [s] end) vs.

(** [Series.unique()]: first occurrences, in order. *)
Fixpoint unique_from (seen xs : list str) : list str :=
  match xs with
  | [] => []
  | x :: xs' =>
      if mem x seen then unique_from seen xs'
      else x :: unique_from (x :: seen) xs'
  end.

Definition unique (xs : list str) : list str := unique_from [] xs.

(** [Series.isin(values)] on one cell *)
Definition isin (v : value) (values : list str) : bool :=
  match v with
  | NA => false
  | Text s => mem s values
  end.

(** Order of [str]: lexicographic on code points. *)
Fixpoint str_leb (a b : str) : bool :=
  match a, b with
  | [], _ => true
  | _ :: _, [] => false
  | x :: a', y :: b' =>
      if x <? y then true else if y <? x then false else str_leb a' b'
  end.

Fixpoint insert_sorted (x : str) (l : list str) : list str :=
  match l with
  | [] => [x]
  | y :: l' => if str_leb x y then x :: l else y :: insert_sorted x l'
  end.

Definition sorted (l : list str) : list str := fold_right insert_sorted [] l.

(** Whether pandas holds a column as text, so that it has the [.str]
    accessor.  A column read from the sheet is text when one of its cells
    is, or when the sheet has no row at all; a column of empty cells only
    is read as numbers.  Selecting rows does not change this. *)
Definition is_text (v : value) : bool :=
  match v with
  | NA => false
  | Text _ => true
  end.

Definition text_column (cells : list value) : bool :=
  match cells with
  | [] => true
  | _ :: _ => existsb is_text cells
  end.

(** The brokers of the rows [df]: non-missing, stripped, non-empty,
    distinct, in ascending order.  This is the value of
    [df["Брокер"].dropna().str.strip()] and the two lines after it when the
    column has the [.str] accessor; see [broker_names]. *)
Definition unique_brokers (df : list row) : list str :=
  let brokers := map strip (dropna (map Broker df)) in
  let brokers := filter (fun b => negb (str_eqb b [])) brokers in
  sorted (unique brokers).

(** The three lines that collect the brokers, run on the rows [df] selected
    from [sheet]: [.str] raises [AttributeError] when the broker column of
    the sheet is not text. *)
Definition broker_names (sheet : DataFrame) (df : list row)
    : outcome (list str) :=
  if text_column (map Broker (rows sheet))
  then Return (unique_brokers df)
  else Raise AttributeError.

(* ================================================================== *)
(** * Broker search of the bot *)

Definition DAYS : Z := 60.

(** The dictionary returned when an object was found. *)
Record found := {
  f_query : str;
  f_object : str;
  f_objects : list str;
  f_days : Z;
  f_brokers : list str;
  f_score : score;
  f_exact : bool
}.

Inductive search_result :=
| Error (error : str)
| NotFound (query : str) (days : Z)
| Found (r : found).

(** What the message handler sends: one constructor per message
    template. *)
Inductive reply :=
| ReplyError (error : str)
    (* "Ошибка: {error}" *)
| ReplyNothing (query : str)
    (* "По запросу «{query}» ничего не найдено." *)
| ReplySuggestion (object : str)
    (* "Точного совпадения не найдено. Возможно, вы имели в виду:
       {object}? Введите точное название для поиска." *)
| ReplyBrokers (header : list str) (days : Z) (brokers : list str)
    (* "{header} За последние {days} дней показы вели: {brokers}" *)
| DistrictReply (text : str).
    (* a message sent by [handle_district_search] *)

(** [s.lstrip(chars)] *)
Fixpoint lstrip_chars (chars s : str) : str :=
  match s with
  | [] => []
  | c :: s' => if existsb (N.eqb c) chars then lstrip_chars chars s' else s
  end.

(** The district named by a message that starts with "район " or
    "район:"; empty when the message is not such a request. *)
Definition district_request (query : str) : str :=
  let query_lower := lower query in
  if startswith query_lower (u "район ")
     || startswith query_lower (u "район:")
  then lstrip_chars (u ":") (strip (skipn 6 query))
  else [].

Section Bot.

Variable WRatio : str -> str -> score.

(** [file] is the content of the data file and [now] the reading of
    [datetime.now()]. *)
Definition search_brokers (file : option DataFrame) (now : datetime)
    (query : str) : outcome search_result :=
  match load_data file with
  | inr error => Return (Error error)
  | inl sheet =>
      df <- date_window now DAYS (rows sheet) ;;
      match df with
      | [] => Return (Error (u "Нет данных за указанный период"))
      | _ :: _ =>
          let objects := unique (dropna (map Object df)) in
          let '(best_match, s, exact) :=
            find_best_match WRatio query objects in
          match best_match with
          | None | Some [] => Return (NotFound query DAYS)
          | Some best_match =>
              let synonyms := get_synonyms best_match in
              let df_filtered :=
                filter (fun r => isin (Object r) synonyms) df in
              brokers <- broker_names sheet df_filtered ;;
              let found_objects :=
                unique (dropna (map Object df_filtered)) in
              Return (Found {| f_query := query;
                               f_object := best_match;
                               f_objects := found_objects;
                               f_days := DAYS;
                               f_brokers := brokers;
                               f_score := s;
                               f_exact := exact |})
          end
      end
  end.

End Bot.

(* ================================================================== *)
(** * Broker search of the command-line tool ([matcher.py]) *)

Record brokers_result := {
  br_object : str;
  br_days : Z;
  br_match : str;
  br_brokers : list str
}.

Section Cli.

(** [Series.str.contains(pat)]: pandas compiles [pat] as a regular
    expression and searches every cell for it.  [re_compile pat] is [None]
    when [pat] is no regular expression, and otherwise the test
    [re.search(pat, text) is not None] on a text. *)
Variable re_compile : str -> option (str -> bool).

(** [df] is what [pd.read_excel(file_path)] returned. *)
Definition find_brokers (df : DataFrame) (now : datetime)
    (object_query : str) (days : Z) (match_mode : str)
    (exclude_status : option str) : outcome brokers_result :=
  match missing_column df with
  | Some col => Raise (ValueError (missing_message col))
  | None =>
      let query_norm := normalize (Text object_query) in
      let object_norm := fun r : row => normalize (Object r) in
      rs <- date_window now days (rows df) ;;
      rs <- (if str_eqb match_mode (u "exact")
             then Return
                    (filter (fun r => str_eqb (object_norm r) query_norm) rs)
             else
               match re_compile query_norm with
               | Some found =>
                   Return (filter (fun r => found (object_norm r)) rs)
               | None => Raise ReError
               end) ;;
      let rs :=
        match exclude_status with
        | Some (c :: st) =>
            if mem (u "Статус") (columns df)
            then filter (fun r => negb (isin (Status r) [c :: st])) rs
            else rs
        | _ => rs
        end in
      brokers <- broker_names df rs ;;
      Return {| br_object := object_query;
                br_days := days;
                br_match := match_mode;
                br_brokers := brokers |}
  end.

End Cli.

(* ================================================================== *)
(** * A concrete scorer

    [fuzz.ratio]: the normalised insertion/deletion similarity,
    [200 * lcs / (len a + len b)].  [fuzz.WRatio] is the largest of this
    value and of token and partial ratios scaled down by 0.95 and 0.9; for
    two single words of similar length it is this value. *)

Fixpoint lcs (a b : str) : nat :=
  match a with
  | [] => O
  | x :: a' =>
      (fix go (b : str) : nat :=
         match b with
         | [] => O
         | y :: b' =>
             if x =? y then S (lcs a' b')
             else Nat.max (lcs a' b) (go b')
         end) b
  end.

Definition ratio (a b : str) : score :=
  match (length a + length b)%nat with
  | O => 100%Q
  | S n =>
      Qred (Qmake (200 * Z.of_nat (lcs a b)) (Pos.of_succ_nat n))
  end.

(* ================================================================== *)
(** * Lower-casing in every script

    [str.lower] rewrites each code point by the lower-case mapping of the
    Unicode character database, which gives one code point or several, and
    the Greek capital sigma, U+03A3, by its place in the word: U+03C2 at
    the end of a word, U+03C3 elsewhere.  The mapping and the test for the
    end of a word are parameters here; the normalizer and the
    transliteration are defined over them as the source defines them over
    [str.lower]. *)

Module Unicode.

Section Lowering.

(** The lower-case mapping of one code point. *)
Variable lower_full : char -> str.

(** Whether a capital sigma between the texts [before] and [after] ends a
    word. *)
Variable final_sigma : str -> str -> bool.

(** What [str.lower] writes for the code point [c] met between [before]
    and [after]. *)
Definition lower_char (before : str) (c : char) (after : str) : str :=
  if c =? 931
  then [if final_sigma before after then 962 else 963]
  else lower_full c.

Fixpoint lower_from (before text : str) : str :=
  match text with
  | [] => []
  | c :: after =>
      lower_char before c after ++ lower_from (before ++ [c]) after
  end.

(** [str.lower] *)
Definition lower (text : str) : str := lower_from [] text.

(** [normalize] of [bot.py] and of [matcher.py] *)
Definition normalize (text : value) : str :=
  match text with
  | NA => []
  | Text t =>
      let text := lower (strip t) in
      collapse_spaces (length text) text
  end.

Definition transliterate_ru_to_en (text : str) : str :=
  fold_left (fun result c => result ++ table_get c) (lower text) [].

Definition normalize_for_search (text : value) : str :=
  transliterate_ru_to_en (normalize text).

End Lowering.

End Unicode.

(* ================================================================== *)
(** * Search by district *)

(** A [set] of strings, kept as a duplicate-free list; the program only
    sorts such sets or counts them. *)
Definition set_add (x : str) (s : list str) : list str :=
  if mem x s then s else s ++ [x].

(** A [dict] with string keys, in insertion order. *)
Fixpoint assoc_get {V : Type} (d : list (str * V)) (k : str) : option V :=
  match d with
  | [] => None
  | (k', v) :: d' => if str_eqb k k' then Some v else assoc_get d' k
  end.

(** [d[k] = v]: a present key keeps its place, a new one goes last. *)
Fixpoint assoc_set {V : Type} (d : list (str * V)) (k : str) (v : V)
    : list (str * V) :=
  match d with
  | [] => [(k, v)]
  | (k', v') :: d' =>
      if str_eqb k k' then (k', v) :: d' else (k', v') :: assoc_set d' k v
  end.

(** [f"{district} ({city})"] *)
Definition district_label (d c : str) : str := d ++ u " (" ++ c ++ u ")".

(** One round of the loop of [get_all_districts]; [if district and city]
    holds for two non-empty strings. *)
Definition all_districts_step (districts_set : list str)
    (item : str * district_info) : list str :=
  match district (snd item), city (snd item) with
  | Text (d :: ds), Text (c :: cs) =>
      set_add (district_label (d :: ds) (c :: cs)) districts_set
  | _, _ => districts_set
  end.

Definition get_all_districts (districts_data : list (str * district_info))
    : list str :=
  sorted (fold_left all_districts_step districts_data []).

(** The four shapes of the dictionary [search_by_district] returns, next
    to the error. *)
Inductive district_result :=
| DistrictError (error : str)
| DistrictNotFound (query : str) (suggestion : option str) (days : Z)
| DistrictNoShowings (query : str) (in_district in_city : value)
    (objects_in_district : list str) (days : Z)
| DistrictFound (query : str) (in_district in_city : value) (days : Z)
    (by_object : list (str * list str)) (total_brokers : nat).

(** [{normalize(name): name for name in object_names}] *)
Definition objects_norm_of (object_names : list str) : list (str * str) :=
  fold_left (fun d name => assoc_set d (normalize (Text name)) name)
    object_names [].

(** [str(row["Брокер"]).strip() if pd.notna(row["Брокер"]) else ""] *)
Definition broker_of (r : row) : str :=
  match Broker r with
  | Text b => strip b
  | NA => []
  end.

(** The text of an object cell; used only as the default of a lookup that
    always succeeds (see [by_object_name_found]). *)
Definition object_text (r : row) : str :=
  match Object r with
  | Text o => o
  | NA => []
  end.

(** One round of the loop over [df_filtered.iterrows()]. *)
Definition by_object_step (objects_norm : list (str * str))
    (results_by_object : list (str * list str)) (r : row)
    : list (str * list str) :=
  let obj_norm := normalize (Object r) in
  let obj_name :=
    match assoc_get objects_norm obj_norm with
    | Some name => name
    | None => object_text r
    end in
  match broker_of r with
  | [] => results_by_object
  | broker =>
      let brokers :=
        match assoc_get results_by_object obj_name with
        | Some brokers => brokers
        | None => []
        end in
      assoc_set results_by_object obj_name (set_add broker brokers)
  end.

Section DistrictSearch.

Variable WRatio : str -> str -> score.

(** [file] and [districts_data] are the contents of the two data files,
    [now] the reading of the clock. *)
Definition search_by_district (file : option DataFrame)
    (districts_data : list (str * district_info)) (now : datetime)
    (district_query : str) : outcome district_result :=
  match load_data file with
  | inr error => Return (DistrictError error)
  | inl df =>
      df <- date_window now DAYS (rows df) ;;
      match df with
      | [] => Return (DistrictError (u "Нет данных за указанный период"))
      | _ :: _ =>
          let district_objects :=
            get_objects_by_district districts_data district_query in
          match district_objects with
          | [] =>
              let all_districts := get_all_districts districts_data in
              let district_query_norm := normalize (Text district_query) in
              match extractOne WRatio district_query_norm
                      (map (fun d => normalize (Text d)) all_districts)
                      70%Q with
              | Some (_, _, idx) =>
                  Return (DistrictNotFound district_query
                            (nth_error all_districts idx) DAYS)
              | None => Return (DistrictNotFound district_query None DAYS)
              end
          | district_info :: _ =>
              let object_names := map do_object district_objects in
              let objects_norm := objects_norm_of object_names in
              let df_filtered :=
                filter (fun r => mem (normalize (Object r))
                                   (map fst objects_norm)) df in
              match df_filtered with
              | [] =>
                  Return (DistrictNoShowings district_query
                            (do_district district_info)
                            (do_city district_info) object_names DAYS)
              | _ :: _ =>
                  let results_by_object :=
                    fold_left (by_object_step objects_norm) df_filtered [] in
                  Return (DistrictFound district_query
                            (do_district district_info)
                            (do_city district_info) DAYS
                            (map (fun kv => (fst kv, sorted (snd kv)))
                               results_by_object)
                            (match results_by_object with
                             | [] => 0
                             | _ :: _ =>
                                 length (fold_left
                                           (fun s b => set_add b s)
                                           (concat (map snd results_by_object))
                                           [])
                             end))
              end
          end
      end
  end.

End DistrictSearch.

(* ================================================================== *)
(** * Replies of the district search *)

Definition nl : str := [10].

(** [sep.join(parts)] *)
Fixpoint join (sep : str) (parts : list str) : str :=
  match parts with
  | [] => []
  | p :: rest =>
      match rest with
      | [] => p
      | _ :: _ => p ++ sep ++ join sep rest
      end
  end.

(** [str(n)] for a natural number: its decimal digits. *)
Fixpoint digits_of (fuel n : nat) (acc : str) : str :=
  match fuel with
  | O => acc
  | S fuel' =>
      let acc' := (48 + N.of_nat (n mod 10)) :: acc in
      match (n / 10)%nat with
      | O => acc'
      | S q => digits_of fuel' (S q) acc'
      end
  end.

Definition str_of_nat (n : nat) : str := digits_of (S n) n [].

(** [str(z)] for an integer. *)
Definition str_of_int (z : Z) : str :=
  if (z <? 0)%Z then u "-" ++ str_of_nat (Z.to_nat (- z))
  else str_of_nat (Z.to_nat z).

(** A value inside an f-string: a missing one prints as [None]. *)
Definition fmt (v : value) : str :=
  match v with
  | NA => u "None"
  | Text s => s
  end.

(** The line of one object in the long answer. *)
Definition object_line (entry : str * list str) : str :=
  u "🏠 **" ++ fst entry ++ u "**:" ++ nl
  ++ join (u ", ") (snd entry) ++ nl ++ nl.

(** The part of one object in the short answer. *)
Definition object_part (entry : str * list str) : str :=
  nl ++ u "🏠 **" ++ fst entry ++ u "**:" ++ nl ++ join (u ", ") (snd entry).

(** ["".join(response_parts)] *)
Definition found_response (in_district in_city : value) (days : Z)
    (by_object : list (str * list str)) (total_brokers : nat) : str :=
  concat
    ([ u "📍 **" ++ fmt in_district ++ u "** (" ++ fmt in_city ++ u ")" ++ nl;
       u "За последние " ++ str_of_int days ++ u " дней:" ++ nl ]
     ++ map object_part by_object
     ++ [ nl ++ nl ++ u "_Всего брокеров: " ++ str_of_nat total_brokers
          ++ u "_" ]).

Definition found_summary (in_district in_city : value) (days : Z)
    (by_object : list (str * list str)) (total_brokers : nat) : str :=
  u "📍 **" ++ fmt in_district ++ u "** (" ++ fmt in_city ++ u ")" ++ nl ++ nl
  ++ u "За последние " ++ str_of_int days ++ u " дней найдено "
  ++ str_of_nat (length by_object) ++ u " ЖК с показами." ++ nl
  ++ u "Всего брокеров: " ++ str_of_nat total_brokers.

(** One round of the loop that cuts the long answer into messages; the
    state is the messages sent so far and the chunk being filled. *)
Definition chunk_step (state : list str * str) (line : str)
    : list str * str :=
  let (sent, chunk) := state in
  if (3500 <? length chunk + length line)%nat
  then (sent ++ [chunk], line)
  else (sent, chunk ++ line).

(** [if chunk: send(chunk)] after the loop. *)
Definition flush (state : list str * str) : list str :=
  match snd state with
  | [] => fst state
  | _ :: _ => fst state ++ [snd state]
  end.

(** The messages of the detail part. *)
Definition send_chunks (lines : list str) : list str :=
  flush (fold_left chunk_step lines ([], [])).

Definition no_showings_message (in_district in_city : value)
    (objects_in_district : list str) (days : Z) : str :=
  let objects_list :=
    join nl (map (fun obj => u "• " ++ obj) (firstn 10 objects_in_district)) in
  let objects_list :=
    if (10 <? length objects_in_district)%nat
    then objects_list ++ nl ++ u "...и ещё "
         ++ str_of_nat (length objects_in_district - 10)
    else objects_list in
  u "📍 **" ++ fmt in_district ++ u "** (" ++ fmt in_city ++ u ")" ++ nl ++ nl
  ++ u "ЖК в этом районе:" ++ nl ++ objects_list ++ nl ++ nl
  ++ u "❌ За последние " ++ str_of_int days
  ++ u " дней показов в этих ЖК не было.".

(** The texts sent for one result, in order. *)
Definition district_replies (result : district_result) : list str :=
  match result with
  | DistrictError error => [u "❌ Ошибка: " ++ error]
  | DistrictNotFound query (Some suggestion) _ =>
      [u "🔍 Район «" ++ query ++ u "» не найден." ++ nl ++ nl
       ++ u "Возможно, вы имели в виду: **" ++ suggestion ++ u "**?"]
  | DistrictNotFound query None _ =>
      [u "🔍 Район «" ++ query ++ u "» не найден в справочнике." ++ nl ++ nl
       ++ u "Проверьте написание и попробуйте снова."]
  | DistrictNoShowings _ in_district in_city objects_in_district days =>
      [no_showings_message in_district in_city objects_in_district days]
  | DistrictFound _ in_district in_city days by_object total_brokers =>
      let response :=
        found_response in_district in_city days by_object total_brokers in
      if (4000 <? length response)%nat
      then found_summary in_district in_city days by_object total_brokers
           :: send_chunks (map object_line by_object)
      else [response]
  end.

Section DistrictHandler.

Variable WRatio : str -> str -> score.

Definition handle_district_search (file : option DataFrame)
    (districts_data : list (str * district_info)) (now : datetime)
    (district_query : str) : outcome (list str) :=
  result <- search_by_district WRatio file districts_data now district_query ;;
  Return (district_replies result).

End DistrictHandler.

(* ================================================================== *)
(** * The message handler *)

Section Handler.

Variable WRatio : str -> str -> score.

(** The messages sent for one text message, in order.  [file] and
    [districts_data] are the contents of the two data files and [now] the
    reading of the clock. *)
Definition handle_message (file : option DataFrame)
    (districts_data : list (str * district_info)) (now : datetime)
    (text : str) : outcome (list reply) :=
  let query := strip text in
  match query with
  | [] => Return []
  | _ :: _ =>
      match district_request query with
      | c :: district_query =>
          messages <- handle_district_search WRatio file districts_data now
                        (c :: district_query) ;;
          Return (map DistrictReply messages)
      | [] =>
          result <- search_brokers WRatio file now query ;;
          match result with
          | Error error => Return [ReplyError error]
          | NotFound query _ => Return [ReplyNothing query]
          | Found r =>
              if negb (f_exact r) then Return [ReplySuggestion (f_object r)]
              else
                let found_objects := f_objects r in
                let header :=
                  if (1 <? length found_objects)%nat then found_objects
                  else [f_object r] in
                Return [ReplyBrokers header (f_days r) (f_brokers r)]
          end
      end
  end.

End Handler.

(* ================================================================== *)
(** * Predicates used in the statements *)

(** A string is trimmed when neither end carries white space. *)
Definition clean_head (s : str) : Prop :=
  match s with
  | [] => True
  | c :: _ => isspace c = false
  end.

Definition trimmed (s : str) : Prop := clean_head s /\ clean_head (rev s).

(** A string is lowered when [lower] leaves every character alone. *)
Definition lowered (s : str) : Prop := Forall (fun c => to_lower c = c) s.

(** One pass of [text.replace("  ", " ")]. *)
Definition squeeze (s : str) : str := replace s dsp sp.

(** The three deterministic tiers of the cascade, as tests of one
    query variant against one candidate. *)
Definition tier1 (variant candidate : str) : bool :=
  str_eqb variant (normalize (Text candidate))
  || str_eqb (normalize_for_search (Text variant))
             (normalize_for_search (Text candidate)).

Definition tier2 (variant candidate : str) : bool :=
  contains variant (normalize (Text candidate))
  || contains (normalize_for_search (Text variant))
              (normalize_for_search (Text candidate)).

Definition tier3 (variant candidate : str) : bool :=
  contains (normalize (Text candidate)) variant
  || contains (normalize_for_search (Text candidate))
              (normalize_for_search (Text variant)).

(** [o] is the first element of [pool], in iteration order, passing [P]. *)
Definition first_hit (P : str -> bool) (pool : list str) (o : str) : Prop :=
  exists pre post,
    pool = pre ++ o :: post /\ P o = true /\
    forall x, In x pre -> P x = false.

Definition no_hit (P : str -> bool) (pool : list str) : Prop :=
  forall x, In x pool -> P x = false.

(** No candidate passes any of tiers 1 to 3 for this variant. *)
Definition silent (variant : str) (pool : list str) : Prop :=
  no_hit (tier1 variant) pool /\ no_hit (tier2 variant) pool /\
  no_hit (tier3 variant) pool.

(** The transliterated forms the fuzzy tier compares. *)
Definition translits (objects : list str) : list str :=
  map (fun o => normalize_for_search (Text o)) objects.

(** The candidates beside their precomputed forms, as [find_best_match]
    builds them. *)
Definition table_of (objects : list str) : list (str * (str * str)) :=
  enumerate3 objects (map (fun o => normalize (Text o)) objects)
    (translits objects).

(** What [extractOne] returns scores at least the cut-off, is the score of
    the choice it names, and indexes that choice. *)
Definition sound_pick (WRatio : str -> str -> score) (query : str) (score_cutoff : score)
    (choices : list str) (r : option (str * score * nat)) : Prop :=
  forall c s i, r = Some (c, s, i) ->
    Qle_bool score_cutoff s = true /\ s = WRatio query c /\
    nth_error choices i = Some c.

(** The state of the fuzzy loop names a real pair: a variant and the
    transliterated candidate at the recorded index, with its score. *)
Definition sound_best (WRatio : str -> str -> score)
    (choices variants : list str)
    (best : option (str * score * nat) * score) : Prop :=
  forall m s idx, fst best = Some (m, s, idx) ->
    exists v, In v variants /\
      s = WRatio (normalize_for_search (Text v)) m /\
      Qle_bool 75 s = true /\ nth_error choices idx = Some m.

(** The test [get_objects_by_district] applies to one reference record:
    district and query contain one another, or the query lies inside the
    city. *)
Definition district_matches (query_norm : str) (info : district_info)
    : bool :=
  let district_norm := normalize (district info) in
  let city_norm := normalize (city info) in
  contains query_norm district_norm || contains district_norm query_norm
  || contains query_norm city_norm.

(** The test as the specification words it: containment in either
    direction for the district and for the city, or equal cities. *)
Definition district_matches_spec (query_norm : str) (info : district_info)
    : bool :=
  let district_norm := normalize (district info) in
  let city_norm := normalize (city info) in
  (contains query_norm district_norm || contains district_norm query_norm)
  || (contains query_norm city_norm || contains city_norm query_norm)
  || str_eqb city_norm query_norm.

(** The letters of the Russian alphabet, capital and small. *)
Definition is_russian (c : char) : bool :=
  ((1040 <=? c) && (c <=? 1103)) || (c =? 1025) || (c =? 1105).

(** The small letters, which are the keys of the transliteration table. *)
Definition is_russian_small (c : char) : bool :=
  ((1072 <=? c) && (c <=? 1103)) || (c =? 1105).

(** The order of [sorted]: [a <= b] on strings. *)
Definition str_le (a b : str) : Prop := str_leb a b = true.

(** Whether [now - timedelta(days=days)] can be computed. *)
Definition cutoff_in_range (now : datetime) (days : Z) : Prop :=
  (Z.abs days <= 999999999 /\ 1 <= dt_day now - days <= MAXORDINAL)%Z.

(** The cut-off instant. *)
Definition cutoff_of (now : datetime) (days : Z) : datetime :=
  {| dt_day := dt_day now - days; dt_us := dt_us now |}.

(** Whether a row passes the status filter of [find_brokers]. *)
Definition status_kept (df : DataFrame) (exclude_status : option str)
    (r : row) : bool :=
  match exclude_status with
  | Some (c :: st) =>
      if mem (u "Статус") (columns df)
      then negb (isin (Status r) [c :: st])
      else true
  | _ => true
  end.

(** Equality of two lists of strings. *)
Fixpoint strs_eqb (a b : list str) : bool :=
  match a, b with
  | [], [] => true
  | x :: a', y :: b' => str_eqb x y && strs_eqb a' b'
  | _, _ => false
  end.

(** The key under which [search_by_district] files a row: the district
    object whose normalized name is the row's normalized object. *)
Definition name_of (objects_norm : list (str * str)) (r : row) : str :=
  match assoc_get objects_norm (normalize (Object r)) with
  | Some name => name
  | None => object_text r
  end.

(** What the loop of [search_by_district] keeps true of
    [results_by_object] after the rows [seen]. *)
Definition grouped (objects_norm : list (str * str))
    (res : list (str * list str)) (seen : list row) : Prop :=
  NoDup (map fst res) /\
  (forall k s, assoc_get res k = Some s ->
     s <> [] /\ NoDup s /\
     forall b, In b s <->
       exists r, In r seen /\ name_of objects_norm r = k /\
                 broker_of r = b /\ b <> []) /\
  (forall r, In r seen -> broker_of r <> [] ->
     exists s, assoc_get res (name_of objects_norm r) = Some s).

(** A small reference and sheet used to exercise the district search. *)
Definition sample_reference : list (str * district_info) :=
  [ (u "Soul", {| district := Text (u "Hamovniki");
                  city := Text (u "Moscow"); country := Text (u "RU") |});
    (u "Slava", {| district := Text (u "Begovoy");
                   city := Text (u "Moscow"); country := Text (u "RU") |}) ].

Definition sample_row (b : str) (d : Z) (o : str) : row :=
  {| Broker := Text b; Date := Dated d; Object := Text o; Status := NA |}.

Definition sample_noon : datetime :=
  {| dt_day := 739000; dt_us := 43200000000 |}.

(** What the proofs about [Unicode.lower] use of the lower-case mapping:
    it never gives the empty text; what it gives is left alone by a second
    mapping and is no capital sigma; the two small sigmas are left alone;
    white space is left alone, and nothing else becomes white space. *)
Definition case_table (lower_full : char -> str) : Prop :=
  (forall c, lower_full c <> []) /\
  (forall c d, In d (lower_full c) -> lower_full d = [d] /\ d <> 931) /\
  (lower_full 962 = [962] /\ lower_full 963 = [963]) /\
  (forall c, isspace c = true -> lower_full c = [c]) /\
  (forall c d, isspace c = false -> In d (lower_full c) ->
               isspace d = false).

(** A code point that [str.lower] leaves alone wherever it stands. *)
Definition settled (lower_full : char -> str) (c : char) : Prop :=
  lower_full c = [c] /\ c <> 931.

(** The code points on which [to_lower] is the mapping of Unicode. *)
Definition modelled (c : char) : bool :=
  (c <=? 255) || ((1024 <=? c) && (c <=? 1119)).

(** A mapping with the properties of [case_table]: [to_lower], and the
    small sigma for the capital one. *)
Definition basic_lower_full (c : char) : str :=
  if c =? 931 then [963] else [to_lower c].

(** The broker column of the sheet has the [.str] accessor: the sheet has
    no row, or some broker cell holds text. *)
Definition brokers_are_text (sheet : DataFrame) : Prop :=
  rows sheet = [] \/ exists r t, In r (rows sheet) /\ Broker r = Text t.

(** Whether [find_brokers] can select the rows by object: exact mode, or a
    query that normalizes to a regular expression. *)
Definition pattern_accepted (re_compile : str -> option (str -> bool))
    (match_mode object_query : str) : Prop :=
  match_mode = u "exact" \/
  re_compile (normalize (Text object_query)) <> None.

(* ================================================================== *)
(** * Properties *)

(** ** Strings *)

Lemma str_eqb_eq (a b : str) : str_eqb a b = true <-> a = b.
Proof.
  revert b; induction a as [|x a IH]; intros [|y b]; simpl;
    try (split; (discriminate || reflexivity)).
  rewrite andb_true_iff, N.eqb_eq, IH.
  split; [intros [-> ->]; reflexivity | intros [= -> ->]; auto].
Qed.

Lemma str_eqb_refl (a : str) : str_eqb a a = true.
Proof. apply str_eqb_eq; reflexivity. Qed.

Lemma str_eqb_neq (a b : str) : str_eqb a b = false <-> a <> b.
Proof.
  rewrite <- str_eqb_eq. destruct (str_eqb a b); split; congruence.
Qed.

Lemma mem_In (x : str) (xs : list str) : mem x xs = true <-> In x xs.
Proof.
  unfold mem. rewrite existsb_exists. split.
  - intros (y & Hy & E). apply str_eqb_eq in E. subst; assumption.
  - intros H. exists x. split; [assumption | apply str_eqb_refl].
Qed.

Lemma mem_not_In (x : str) (xs : list str) : mem x xs = false <-> ~ In x xs.
Proof.
  rewrite <- mem_In. destruct (mem x xs); split; congruence.
Qed.

(** ** Character classes *)

Ltac split_cmp :=
  repeat match goal with
         | |- context [N.leb ?a ?b] => destruct (N.leb_spec a b); try lia
         | |- context [N.eqb ?a ?b] => destruct (N.eqb_spec a b); try lia
         end;
  simpl; try reflexivity; try lia.

Lemma to_lower_cases (c : char) :
  to_lower c = c \/
  (to_lower c = c + 32 /\ 65 <= c <= 90) \/
  (to_lower c = c + 32 /\ 192 <= c <= 222 /\ c <> 215) \/
  (to_lower c = c + 80 /\ 1024 <= c <= 1039) \/
  (to_lower c = c + 32 /\ 1040 <= c <= 1071).
Proof. unfold to_lower. split_cmp; simpl; auto 10. Qed.

Lemma to_lower_idem (c : char) : to_lower (to_lower c) = to_lower c.
Proof.
  destruct (to_lower_cases c) as [H|[[H ?]|[[H ?]|[[H ?]|[H ?]]]]];
    rewrite !H; try assumption; unfold to_lower; split_cmp.
Qed.

Lemma isspace_to_lower (c : char) : isspace (to_lower c) = isspace c.
Proof.
  destruct (to_lower_cases c) as [H|[[H ?]|[[H ?]|[[H ?]|[H ?]]]]];
    rewrite !H; try reflexivity; unfold isspace; split_cmp.
Qed.

Lemma isspace_space : isspace 32 = true.
Proof. reflexivity. Qed.

(** ** [strip] and [lower] *)


Lemma clean_head_lstrip (s : str) : clean_head (lstrip s).
Proof.
  induction s as [|c s IH]; simpl; [exact I|].
  destruct (isspace c) eqn:E; [assumption | exact E].
Qed.

Lemma lstrip_clean (s : str) : clean_head s -> lstrip s = s.
Proof. destruct s as [|c s]; simpl; [reflexivity | intros ->; reflexivity]. Qed.

Lemma lstrip_snoc (s : str) (c : char) :
  isspace c = false -> lstrip (s ++ [c]) = lstrip s ++ [c].
Proof.
  intros Hc. induction s as [|x s IH]; simpl.
  - rewrite Hc; reflexivity.
  - destruct (isspace x); [assumption | reflexivity].
Qed.

Lemma clean_head_rstrip (s : str) : clean_head s -> clean_head (rstrip s).
Proof.
  unfold rstrip. destruct s as [|c s]; simpl; [intros _; exact I|].
  intros Hc. rewrite (lstrip_snoc _ _ Hc), rev_app_distr. exact Hc.
Qed.

Lemma trimmed_strip (s : str) : trimmed (strip s).
Proof.
  split.
  - apply clean_head_rstrip, clean_head_lstrip.
  - unfold strip, rstrip. rewrite rev_involutive. apply clean_head_lstrip.
Qed.

Lemma strip_trimmed (s : str) : trimmed s -> strip s = s.
Proof.
  intros [Hh Hl]. unfold strip, rstrip.
  rewrite (lstrip_clean _ Hh), (lstrip_clean _ Hl). apply rev_involutive.
Qed.

Lemma clean_head_lower (s : str) : clean_head s -> clean_head (lower s).
Proof.
  destruct s as [|c s]; simpl; [auto|]. rewrite isspace_to_lower. auto.
Qed.

Lemma trimmed_lower (s : str) : trimmed s -> trimmed (lower s).
Proof.
  intros [Hh Hl]. split; [apply clean_head_lower; assumption|].
  unfold lower. rewrite <- map_rev. apply clean_head_lower; assumption.
Qed.


Lemma lowered_lower (s : str) : lowered (lower s).
Proof.
  induction s; simpl; constructor; [apply to_lower_idem | assumption].
Qed.

Lemma lower_lowered (s : str) : lowered s -> lower s = s.
Proof.
  induction 1 as [|c s Hc _ IH]; simpl; [reflexivity|].
  f_equal; assumption.
Qed.

(** ** [replace] *)

Lemma replace_from_skip (old new : str) (k : nat) (s : str) :
  replace_from old new k s = replace_from old new 0 (skipn k s).
Proof.
  revert k; induction s as [|c s IH]; intros [|k]; simpl; auto.
Qed.

Lemma replace_from_Forall (P : char -> Prop) (old new : str) :
  Forall P new ->
  forall (s : str) (k : nat), Forall P s -> Forall P (replace_from old new k s).
Proof.
  intros Hnew. induction s as [|c s IH]; intros k Hs; [constructor|].
  inversion Hs; subst.
  destruct k; cbn [replace_from]; [|auto].
  destruct (startswith (c :: s) old).
  - apply Forall_app; split; auto.
  - constructor; auto.
Qed.

(** ** Collapsing runs of spaces *)

Lemma dsp_eq : dsp = [32; 32].
Proof. reflexivity. Qed.

Lemma sp_eq : sp = [32].
Proof. reflexivity. Qed.


Lemma squeeze_nil : squeeze [] = [].
Proof. reflexivity. Qed.

Lemma squeeze_pair (s : str) : squeeze (32 :: 32 :: s) = 32 :: squeeze s.
Proof. reflexivity. Qed.

Lemma squeeze_other (c : char) (s : str) :
  startswith (c :: s) dsp = false -> squeeze (c :: s) = c :: squeeze s.
Proof.
  unfold squeeze, replace. rewrite dsp_eq. cbn [replace_from].
  intros ->. reflexivity.
Qed.

Lemma startswith_dsp (s : str) :
  startswith s dsp = true <-> exists s', s = 32 :: 32 :: s'.
Proof.
  rewrite dsp_eq. split.
  - destruct s as [|a [|b s]]; cbn [startswith]; try discriminate.
    + rewrite andb_false_r; discriminate.
    + rewrite andb_true_r, andb_true_iff, !N.eqb_eq.
      intros [<- <-]. eauto.
  - intros [s' ->]. reflexivity.
Qed.

(** Structural view of one pass: either the text starts with two spaces,
    which become one, or its first character is kept. *)
Lemma squeeze_ind (P : str -> str -> Prop) :
  P [] [] ->
  (forall s, P s (squeeze s) -> P (32 :: 32 :: s) (32 :: squeeze s)) ->
  (forall c s, startswith (c :: s) dsp = false ->
               P s (squeeze s) -> P (c :: s) (c :: squeeze s)) ->
  forall s, P s (squeeze s).
Proof.
  intros Hnil Hpair Hother s.
  assert (H : forall n s, (length s <= n)%nat -> P s (squeeze s)).
  { clear s. induction n as [|n IH]; intros [|c s] Hlen; simpl in Hlen;
      try exact Hnil; try lia.
    destruct (startswith (c :: s) dsp) eqn:E.
    - apply startswith_dsp in E. destruct E as [s' E].
      injection E as -> ->. rewrite squeeze_pair.
      apply Hpair, IH. simpl in Hlen. lia.
    - rewrite (squeeze_other _ _ E). apply Hother; [exact E|].
      apply IH. lia. }
  apply (H (length s)). lia.
Qed.

Lemma squeeze_length (s : str) :
  (length (squeeze s) <= length s)%nat /\
  (contains dsp s = true -> (length (squeeze s) < length s)%nat).
Proof.
  apply (squeeze_ind (fun s r =>
    (length r <= length s)%nat /\
    (contains dsp s = true -> (length r < length s)%nat))).
  - split; [reflexivity | discriminate].
  - intros s' [Hle _]. simpl. split; intros; lia.
  - intros c s' E [Hle Hlt]. split; [simpl; lia|].
    cbn [contains]. rewrite E. simpl. intros H. apply Hlt in H. lia.
Qed.

Lemma squeeze_clean_head (s : str) : clean_head s -> clean_head (squeeze s).
Proof.
  destruct s as [|c s]; [intros _; exact I|]. intros Hc.
  rewrite squeeze_other; [exact Hc|].
  destruct (startswith (c :: s) dsp) eqn:E; [|reflexivity].
  apply startswith_dsp in E. destruct E as [s' [= -> _]]. discriminate.
Qed.

Lemma squeeze_snoc (s : str) (c : char) :
  isspace c = false -> squeeze (s ++ [c]) = squeeze s ++ [c].
Proof.
  intros Hc.
  assert (Hc32 : c <> 32) by (intros ->; discriminate).
  apply (squeeze_ind (fun s r => squeeze (s ++ [c]) = r ++ [c])).
  - simpl. apply squeeze_other. rewrite dsp_eq. cbn [startswith].
    apply andb_false_r.
  - intros s' IH. simpl. rewrite squeeze_pair, IH. reflexivity.
  - intros a s' E IH. simpl. rewrite squeeze_other, IH; [reflexivity|].
    destruct (startswith (a :: s' ++ [c]) dsp) eqn:E'; [|reflexivity].
    apply startswith_dsp in E'. destruct E' as [t E'].
    destruct s' as [|b s']; simpl in E'.
    + injection E' as _ Hc' _. contradiction.
    + injection E' as -> -> _. discriminate E.
Qed.

Lemma squeeze_trimmed (s : str) : trimmed s -> trimmed (squeeze s).
Proof.
  intros [Hh Hl]. split; [apply squeeze_clean_head; assumption|].
  destruct (rev s) as [|c t] eqn:E.
  - apply (f_equal (@rev char)) in E. rewrite rev_involutive in E.
    subst s. exact I.
  - apply (f_equal (@rev char)) in E. rewrite rev_involutive in E.
    subst s. simpl. rewrite (squeeze_snoc _ _ Hl), rev_app_distr. exact Hl.
Qed.

Lemma squeeze_lowered (s : str) : lowered s -> lowered (squeeze s).
Proof.
  intros H. apply replace_from_Forall; [|assumption].
  repeat constructor.
Qed.

Lemma collapse_spaces_inv (P : str -> Prop) :
  (forall s, P s -> P (squeeze s)) ->
  forall fuel s, P s -> P (collapse_spaces fuel s).
Proof.
  intros Hstep. induction fuel as [|fuel IH]; intros s Hs;
    cbn [collapse_spaces]; [assumption|].
  destruct (contains dsp s); [|assumption].
  apply IH, Hstep, Hs.
Qed.

(** The fuel given by [normalize] lets the loop run to its exit: no two
    adjacent spaces are left. *)
Lemma collapse_spaces_done (fuel : nat) (s : str) :
  (length s <= fuel)%nat -> contains dsp (collapse_spaces fuel s) = false.
Proof.
  revert s. induction fuel as [|fuel IH]; intros s Hlen; cbn [collapse_spaces].
  - destruct s; [reflexivity | simpl in Hlen; lia].
  - destruct (contains dsp s) eqn:E; [|exact E].
    apply IH. apply (proj2 (squeeze_length s)) in E.
    change (replace s dsp sp) with (squeeze s). lia.
Qed.

Lemma collapse_spaces_fixed (fuel : nat) (s : str) :
  contains dsp s = false -> collapse_spaces fuel s = s.
Proof. destruct fuel; simpl; [reflexivity | intros ->; reflexivity]. Qed.

(** ** [normalize] *)

Lemma normalize_no_double_space (v : value) :
  contains dsp (normalize v) = false.
Proof.
  destruct v as [|t]; [reflexivity|]. apply collapse_spaces_done. reflexivity.
Qed.

Lemma normalize_trimmed (v : value) : trimmed (normalize v).
Proof.
  destruct v as [|t]; [split; exact I|].
  apply (collapse_spaces_inv trimmed squeeze_trimmed).
  apply trimmed_lower, trimmed_strip.
Qed.

Lemma normalize_lowered (v : value) : lowered (normalize v).
Proof.
  destruct v as [|t]; [constructor|].
  apply (collapse_spaces_inv lowered squeeze_lowered), lowered_lower.
Qed.

(** ** [str.lower] in every script *)

Lemma clean_head_app (a b : str) :
  a <> [] -> clean_head a -> clean_head (a ++ b).
Proof. destruct a; [congruence | intros _ H; exact H]. Qed.

Lemma clean_head_of_app (a b : str) :
  a <> [] -> clean_head (a ++ b) -> clean_head a.
Proof. destruct a; [congruence | intros _ H; exact H]. Qed.

Lemma clean_head_Forall (s : str) :
  Forall (fun c => isspace c = false) s -> clean_head s.
Proof. destruct 1; [exact I | assumption]. Qed.

Lemma rev_not_nil {A : Type} (l : list A) : l <> [] -> rev l <> [].
Proof.
  intros H E. apply H. apply (f_equal (@rev A)) in E.
  rewrite rev_involutive in E. exact E.
Qed.

Section LoweringFacts.

Variable lower_full : char -> str.
Variable final_sigma : str -> str -> bool.
Hypothesis table : case_table lower_full.

Lemma settled_sigmas : settled lower_full 962 /\ settled lower_full 963.
Proof.
  destruct table as (_ & _ & [H2 H3] & _).
  split; (split; [assumption | discriminate]).
Qed.

Lemma settled_space : settled lower_full 32.
Proof.
  destruct table as (_ & _ & _ & Hsp & _).
  split; [apply Hsp; reflexivity | discriminate].
Qed.

Lemma lower_char_not_nil (before : str) (c : char) (after : str) :
  Unicode.lower_char lower_full final_sigma before c after <> [].
Proof.
  unfold Unicode.lower_char. destruct (c =? 931); [discriminate|].
  destruct table as (Hne & _). apply Hne.
Qed.

Lemma lower_char_settled (before : str) (c : char) (after : str) :
  Forall (settled lower_full)
    (Unicode.lower_char lower_full final_sigma before c after).
Proof.
  unfold Unicode.lower_char. destruct (c =? 931).
  - constructor; [|constructor].
    destruct (final_sigma before after); apply settled_sigmas.
  - apply Forall_forall. intros d Hd.
    destruct table as (_ & Hfix & _). exact (Hfix c d Hd).
Qed.

Lemma lower_char_no_space (before : str) (c : char) (after : str) :
  isspace c = false ->
  Forall (fun d => isspace d = false)
    (Unicode.lower_char lower_full final_sigma before c after).
Proof.
  intros Hc. unfold Unicode.lower_char. destruct (c =? 931).
  - constructor; [|constructor].
    destruct (final_sigma before after); reflexivity.
  - apply Forall_forall. intros d Hd.
    destruct table as (_ & _ & _ & _ & Hns). exact (Hns c d Hc Hd).
Qed.

Lemma lower_from_settled (before text : str) :
  Forall (settled lower_full)
    (Unicode.lower_from lower_full final_sigma before text).
Proof.
  revert before. induction text as [|c text IH]; intros before;
    cbn [Unicode.lower_from]; [constructor|].
  apply Forall_app. split; [apply lower_char_settled | apply IH].
Qed.

(** Text made of settled code points is left as it is. *)
Lemma lower_from_fixed (text : str) :
  Forall (settled lower_full) text ->
  forall before,
    Unicode.lower_from lower_full final_sigma before text = text.
Proof.
  induction 1 as [|c text [Hc Hs] _ IH]; intros before;
    cbn [Unicode.lower_from]; [reflexivity|].
  unfold Unicode.lower_char.
  destruct (N.eqb_spec c 931) as [E|_]; [contradiction|].
  rewrite Hc, IH. reflexivity.
Qed.

Lemma lower_from_not_nil (before text : str) :
  text <> [] ->
  Unicode.lower_from lower_full final_sigma before text <> [].
Proof.
  destruct text as [|c text]; [congruence|]. intros _.
  cbn [Unicode.lower_from]. intros E. apply app_eq_nil in E.
  exact (lower_char_not_nil _ _ _ (proj1 E)).
Qed.

Lemma clean_head_lower_from (before text : str) :
  clean_head text ->
  clean_head (Unicode.lower_from lower_full final_sigma before text).
Proof.
  destruct text as [|c text]; [intros _; exact I|].
  cbn [clean_head Unicode.lower_from]. intros Hc.
  apply clean_head_app; [apply lower_char_not_nil|].
  apply clean_head_Forall, lower_char_no_space, Hc.
Qed.

Lemma clean_last_lower_from (text : str) :
  forall before,
    clean_head (rev text) ->
    clean_head
      (rev (Unicode.lower_from lower_full final_sigma before text)).
Proof.
  induction text as [|c text IH]; intros before; [intros _; exact I|].
  cbn [Unicode.lower_from]. rewrite rev_app_distr.
  destruct text as [|c' text'].
  - cbn [rev app Unicode.lower_from clean_head]. intros Hc.
    apply clean_head_Forall, Forall_rev, lower_char_no_space, Hc.
  - intros Hlast.
    apply clean_head_app.
    + apply rev_not_nil, lower_from_not_nil. discriminate.
    + apply IH.
      change (rev (c :: c' :: text')) with (rev (c' :: text') ++ [c])
        in Hlast.
      apply clean_head_of_app in Hlast; [exact Hlast|].
      apply rev_not_nil. discriminate.
Qed.

Lemma trimmed_lower_full (s : str) :
  trimmed s -> trimmed (Unicode.lower lower_full final_sigma s).
Proof.
  intros [Hh Hl]. split.
  - apply clean_head_lower_from, Hh.
  - apply clean_last_lower_from, Hl.
Qed.

Lemma squeeze_settled (s : str) :
  Forall (settled lower_full) s -> Forall (settled lower_full) (squeeze s).
Proof.
  intros H. apply replace_from_Forall; [|assumption].
  constructor; [apply settled_space | constructor].
Qed.

Lemma full_normalize_no_double_space (v : value) :
  contains dsp (Unicode.normalize lower_full final_sigma v) = false.
Proof.
  destruct v as [|t]; [reflexivity|]. apply collapse_spaces_done. reflexivity.
Qed.

Lemma full_normalize_trimmed (v : value) :
  trimmed (Unicode.normalize lower_full final_sigma v).
Proof.
  destruct v as [|t]; [split; exact I|].
  apply (collapse_spaces_inv trimmed squeeze_trimmed).
  apply trimmed_lower_full, trimmed_strip.
Qed.

Lemma full_normalize_settled (v : value) :
  Forall (settled lower_full) (Unicode.normalize lower_full final_sigma v).
Proof.
  destruct v as [|t]; [constructor|].
  apply (collapse_spaces_inv _ squeeze_settled), lower_from_settled.
Qed.

End LoweringFacts.

(** The mapping built on [to_lower] has the properties asked of the
    lower-case mapping. *)
Lemma basic_case_table : case_table basic_lower_full.
Proof.
  unfold case_table, basic_lower_full. repeat split.
  - intros c. destruct (c =? 931); discriminate.
  - destruct (N.eqb_spec c 931) as [->|Hc].
    + destruct H as [<-|[]]. reflexivity.
    + destruct H as [<-|[]].
      destruct (N.eqb_spec (to_lower c) 931) as [E|_].
      * exfalso. revert E.
        destruct (to_lower_cases c) as [E|[[E ?]|[[E ?]|[[E ?]|[E ?]]]]];
          rewrite E; lia.
      * rewrite to_lower_idem. reflexivity.
  - destruct (N.eqb_spec c 931) as [->|Hc].
    + destruct H as [<-|[]]. discriminate.
    + destruct H as [<-|[]].
      destruct (to_lower_cases c) as [E|[[E ?]|[[E ?]|[[E ?]|[E ?]]]]];
        rewrite E; lia.
  - intros c Hc. destruct (N.eqb_spec c 931) as [->|_]; [discriminate|].
    f_equal. revert Hc. rewrite <- (isspace_to_lower c).
    destruct (to_lower_cases c) as [E|[[E ?]|[[E ?]|[[E ?]|[E ?]]]]];
      rewrite ?E; try reflexivity; unfold isspace; split_cmp;
      discriminate.
  - intros c d Hc. destruct (c =? 931).
    + intros [<-|[]]. reflexivity.
    + intros [<-|[]]. rewrite isspace_to_lower. exact Hc.
Qed.

(** C9: [normalize] is idempotent on every string and on a missing value,
    [normalize(normalize(s)) == normalize(s)], for [str.lower] in every
    script: the result of [normalize] carries no outer white space, is made
    of code points that [str.lower] leaves alone, and has no two adjacent
    spaces, so the three steps of a second call change nothing. *)
Theorem normalize_idempotent (lower_full : char -> str)
    (final_sigma : str -> str -> bool) (s : value) :
  case_table lower_full ->
  Unicode.normalize lower_full final_sigma
    (Text (Unicode.normalize lower_full final_sigma s))
  = Unicode.normalize lower_full final_sigma s.
Proof.
  intros table. cbn [Unicode.normalize].
  rewrite (strip_trimmed _ (full_normalize_trimmed _ _ table s)).
  unfold Unicode.lower.
  rewrite (lower_from_fixed lower_full final_sigma _
             (full_normalize_settled _ _ table s)).
  apply collapse_spaces_fixed, full_normalize_no_double_space.
Qed.

(** Use of C9 on "  Прайм   ПАРК ", with the mapping built on [to_lower]. *)
Lemma normalize_idempotent_witness :
  case_table basic_lower_full /\
  Unicode.normalize basic_lower_full (fun _ _ => false)
    (Text (u "  Прайм   ПАРК ")) = u "прайм парк" /\
  Unicode.normalize basic_lower_full (fun _ _ => false)
    (Text (Unicode.normalize basic_lower_full (fun _ _ => false)
             (Text (u "  Прайм   ПАРК "))))
  = Unicode.normalize basic_lower_full (fun _ _ => false)
      (Text (u "  Прайм   ПАРК ")).
Proof.
  split; [exact basic_case_table|].
  split; [vm_compute; reflexivity|].
  exact (normalize_idempotent basic_lower_full (fun _ _ => false)
           (Text (u "  Прайм   ПАРК ")) basic_case_table).
Defined.

(** ** Alias expansion *)

Lemma alias_step_grows (q : str) (vs : list str) (item : str * str) :
  exists extra, alias_step q vs item = vs ++ extra.
Proof.
  destruct item as [alias replacement]. unfold alias_step.
  destruct (contains alias q && negb (str_eqb alias q)).
  - destruct (negb (mem (replace q alias replacement) vs)).
    + eexists; reflexivity.
    + exists []. symmetry; apply app_nil_r.
  - exists []. symmetry; apply app_nil_r.
Qed.

Lemma alias_loop_grows (q : str) (items : list (str * str)) (vs : list str) :
  exists extra, fold_left (alias_step q) items vs = vs ++ extra.
Proof.
  revert vs. induction items as [|item items IH]; intros vs; simpl.
  - exists []. symmetry; apply app_nil_r.
  - destruct (alias_step_grows q vs item) as [e1 ->].
    destruct (IH (vs ++ e1)) as [e2 ->].
    exists (e1 ++ e2). symmetry; apply app_assoc.
Qed.

Lemma alias_step_NoDup (q : str) (vs : list str) (item : str * str) :
  NoDup vs -> NoDup (alias_step q vs item).
Proof.
  intros H. destruct item as [alias replacement]. unfold alias_step.
  destruct (contains alias q && negb (str_eqb alias q)); [|assumption].
  destruct (mem (replace q alias replacement) vs) eqn:E; simpl; [assumption|].
  apply mem_not_In in E.
  apply NoDup_rev in H. rewrite <- (rev_involutive (vs ++ _)).
  apply NoDup_rev. rewrite rev_app_distr. simpl.
  constructor; [rewrite <- in_rev; assumption | assumption].
Qed.

Lemma alias_loop_NoDup (q : str) (items : list (str * str)) (vs : list str) :
  NoDup vs -> NoDup (fold_left (alias_step q) items vs).
Proof.
  revert vs. induction items as [|item items IH]; intros vs H; simpl;
    [assumption|].
  apply IH, alias_step_NoDup, H.
Qed.

(** The first variant is always the normalized query. *)
Lemma apply_aliases_head (query : str) :
  exists rest, apply_aliases query = normalize (Text query) :: rest.
Proof.
  unfold apply_aliases.
  destruct (dict_get ALIASES (normalize (Text query))) as [r|].
  - destruct (alias_loop_grows (normalize (Text query)) ALIASES
                ([normalize (Text query)] ++ [normalize (Text r)]))
      as [e ->].
    eexists; reflexivity.
  - destruct (alias_loop_grows (normalize (Text query)) ALIASES
                [normalize (Text query)]) as [e ->].
    eexists; reflexivity.
Qed.

(** The variants are pairwise distinct unless the whole query is an alias
    whose replacement normalizes to the query itself. *)
Lemma apply_aliases_NoDup (query : str) :
  (forall r, dict_get ALIASES (normalize (Text query)) = Some r ->
             normalize (Text r) <> normalize (Text query)) ->
  NoDup (apply_aliases query).
Proof.
  intros H. unfold apply_aliases.
  destruct (dict_get ALIASES (normalize (Text query))) as [r|];
    apply alias_loop_NoDup.
  - specialize (H r eq_refl). simpl.
    constructor; [simpl; intuition congruence|].
    constructor; [simpl; tauto | constructor].
  - constructor; [simpl; tauto | constructor].
Qed.

(** C7: on the query "артхаус", an alias that maps to itself,
    [apply_aliases] returns the same variant twice: the sequence is not
    deduplicated, although its first element is [normalize(query)]. *)
Theorem apply_aliases_duplicate :
  apply_aliases (u "артхаус") = [u "артхаус"; u "артхаус"] /\
  ~ NoDup (apply_aliases (u "артхаус")).
Proof.
  assert (E : apply_aliases (u "артхаус") = [u "артхаус"; u "артхаус"])
    by (vm_compute; reflexivity).
  split; [exact E|].
  rewrite E. intros H. inversion H as [|x l Hin _]; subst.
  apply Hin. left; reflexivity.
Qed.

(** ** The cascade *)

Lemma first_object_find (test : str -> str -> bool) (f g : str -> str)
    (objs : list str) :
  first_object test (enumerate3 objs (map f objs) (map g objs)) =
  find (fun o => test (f o) (g o)) objs.
Proof.
  unfold first_object, enumerate3.
  induction objs as [|o objs IH]; simpl; [reflexivity|].
  destruct (test (f o) (g o)); [reflexivity | exact IH].
Qed.

Lemma find_first_hit (P : str -> bool) (l : list str) (o : str) :
  find P l = Some o <-> first_hit P l o.
Proof.
  split.
  - induction l as [|x l IH]; simpl; [discriminate|].
    destruct (P x) eqn:E.
    + intros [= ->]. exists [], l. repeat split; [assumption | intros ? []].
    + intros H. destruct (IH H) as (pre & post & -> & Ho & Hpre).
      exists (x :: pre), post. repeat split; [assumption|].
      intros y [<-|Hy]; auto.
  - intros (pre & post & -> & Ho & Hpre).
    induction pre as [|x pre IH]; simpl.
    + rewrite Ho; reflexivity.
    + rewrite (Hpre x (or_introl eq_refl)). apply IH.
      intros y Hy. apply Hpre. right; assumption.
Qed.

Lemma find_no_hit (P : str -> bool) (l : list str) :
  find P l = None <-> no_hit P l.
Proof.
  split.
  - intros H x Hx. exact (find_none P l H x Hx).
  - induction l as [|x l IH]; simpl; [reflexivity|]. intros H.
    rewrite (H x (or_introl eq_refl)). apply IH.
    intros y Hy. apply H. right; assumption.
Qed.

(** One round of the variant loop: the three tiers in order, each over the
    whole pool, then the remaining variants. *)
Lemma cascade_cons (objs : list str) (v : str) (rest : list str) :
  cascade (table_of objs) (v :: rest) =
  match find (tier1 v) objs with
  | Some o => Some (o, 100%Q)
  | None =>
      match find (tier2 v) objs with
      | Some o => Some (o, 95%Q)
      | None =>
          match find (tier3 v) objs with
          | Some o => Some (o, 90%Q)
          | None => cascade (table_of objs) rest
          end
      end
  end.
Proof.
  unfold table_of, translits. cbn [cascade].
  rewrite !first_object_find. reflexivity.
Qed.

Lemma cascade_silent_cons (objs : list str) (v : str) (rest : list str) :
  silent v objs ->
  cascade (table_of objs) (v :: rest) = cascade (table_of objs) rest.
Proof.
  intros (H1 & H2 & H3). rewrite cascade_cons.
  apply find_no_hit in H1, H2, H3. rewrite H1, H2, H3. reflexivity.
Qed.

Lemma cascade_silent_prefix (objs before rest : list str) :
  (forall v, In v before -> silent v objs) ->
  cascade (table_of objs) (before ++ rest) = cascade (table_of objs) rest.
Proof.
  induction before as [|v before IH]; intros H; cbn [app]; [reflexivity|].
  rewrite cascade_silent_cons by (apply H; left; reflexivity).
  apply IH. intros v' Hv'. apply H. right; assumption.
Qed.

Lemma cascade_none (objs vs : list str) :
  cascade (table_of objs) vs = None <-> forall v, In v vs -> silent v objs.
Proof.
  induction vs as [|v vs IH].
  - split; [intros _ ? [] | reflexivity].
  - rewrite cascade_cons. split.
    + destruct (find (tier1 v) objs) eqn:E1; [discriminate|].
      destruct (find (tier2 v) objs) eqn:E2; [discriminate|].
      destruct (find (tier3 v) objs) eqn:E3; [discriminate|].
      intros H v' [<-|Hv'].
      * repeat split; apply find_no_hit; assumption.
      * apply IH; assumption.
    + intros H. destruct (H v (or_introl eq_refl)) as (H1 & H2 & H3).
      apply find_no_hit in H1, H2, H3. rewrite H1, H2, H3.
      apply IH. intros v' Hv'. apply H. right; assumption.
Qed.

Lemma cascade_some (objs vs : list str) (o : str) (s : score) :
  cascade (table_of objs) vs = Some (o, s) ->
  In o objs /\
  exists v, In v vs /\
    ((s = 100%Q /\ tier1 v o = true) \/
     (s = 95%Q /\ tier2 v o = true) \/
     (s = 90%Q /\ tier3 v o = true)).
Proof.
  induction vs as [|v vs IH]; [discriminate|].
  rewrite cascade_cons.
  destruct (find (tier1 v) objs) eqn:E1.
  { intros [= -> <-]. apply find_some in E1. destruct E1.
    split; [assumption|]. exists v. split; [left; reflexivity | auto]. }
  destruct (find (tier2 v) objs) eqn:E2.
  { intros [= -> <-]. apply find_some in E2. destruct E2.
    split; [assumption|]. exists v. split; [left; reflexivity | auto]. }
  destruct (find (tier3 v) objs) eqn:E3.
  { intros [= -> <-]. apply find_some in E3. destruct E3.
    split; [assumption|]. exists v. split; [left; reflexivity | auto]. }
  intros H. destruct (IH H) as (Hin & v' & Hv' & Hs).
  split; [assumption|]. exists v'. split; [right; assumption | assumption].
Qed.

(** A match of the cascade is decided by the first variant that is not
    silent, and within it by the first tier that fires. *)
Lemma cascade_some_first (objs vs : list str) (o : str) (s : score) :
  cascade (table_of objs) vs = Some (o, s) ->
  exists before v after,
    vs = before ++ v :: after /\
    (forall v', In v' before -> silent v' objs) /\
    ((s = 100%Q /\ first_hit (tier1 v) objs o) \/
     (s = 95%Q /\ no_hit (tier1 v) objs /\ first_hit (tier2 v) objs o) \/
     (s = 90%Q /\ no_hit (tier1 v) objs /\ no_hit (tier2 v) objs /\
      first_hit (tier3 v) objs o)).
Proof.
  induction vs as [|v vs IH]; [discriminate|].
  rewrite cascade_cons.
  destruct (find (tier1 v) objs) eqn:E1.
  { intros [= -> <-]. apply find_first_hit in E1.
    exists [], v, vs. split; [reflexivity|]. split; [intros ? []|]. auto. }
  apply find_no_hit in E1.
  destruct (find (tier2 v) objs) eqn:E2.
  { intros [= -> <-]. apply find_first_hit in E2.
    exists [], v, vs. split; [reflexivity|]. split; [intros ? []|]. auto. }
  apply find_no_hit in E2.
  destruct (find (tier3 v) objs) eqn:E3.
  { intros [= -> <-]. apply find_first_hit in E3.
    exists [], v, vs. split; [reflexivity|]. split; [intros ? []|].
    right. right. auto. }
  apply find_no_hit in E3.
  intros H. destruct (IH H) as (before & v' & after & -> & Hq & Hs).
  exists (v :: before), v', after. split; [reflexivity|].
  split; [|exact Hs].
  intros x [<-|Hx]; [repeat split; assumption | exact (Hq x Hx)].
Qed.

(** ** The fuzzy tier *)

Section FuzzyFacts.

Variable WRatio : str -> str -> score.

Lemma find_best_match_unfold (query : str) (objects : list str) :
  objects <> [] ->
  find_best_match WRatio query objects =
  match cascade (table_of objects) (apply_aliases query) with
  | Some (obj, s) => (Some obj, s, true)
  | None => fuzzy_tier WRatio objects (translits objects)
              (apply_aliases query)
  end.
Proof. destruct objects; [congruence | reflexivity]. Qed.

Lemma extractOne_from_sound (query : str) (score_cutoff : score)
    (full : list str) :
  forall (choices done : list str) (r : option (str * score * nat)),
    full = done ++ choices ->
    sound_pick WRatio query score_cutoff full r ->
    sound_pick WRatio query score_cutoff full
      (extractOne_from WRatio query score_cutoff (length done) choices r).
Proof.
  induction choices as [|c rest IH]; intros done r Hfull Hr; simpl;
    [assumption|].
  replace (S (length done)) with (length (done ++ [c]))
    by (rewrite length_app; simpl; lia).
  apply IH; [rewrite <- app_assoc; exact Hfull|].
  destruct (Qle_bool score_cutoff (WRatio query c)) eqn:Hcut; simpl;
    [|assumption].
  assert (Hnew : sound_pick WRatio query score_cutoff full
                   (Some (c, WRatio query c, length done))).
  { intros c' s' i' [= <- <- <-]. repeat split; [assumption|].
    rewrite Hfull, nth_error_app2, Nat.sub_diag by lia. reflexivity. }
  destruct r as [[[? best] ?]|]; [|assumption].
  destruct (Qlt_bool best (WRatio query c)); assumption.
Qed.

Lemma extractOne_sound (query : str) (choices : list str) (c : score) :
  sound_pick WRatio query c choices (extractOne WRatio query choices c).
Proof.
  apply (extractOne_from_sound query c choices choices []);
    [reflexivity | intros ? ? ? [=]].
Qed.

Lemma fold_left_invariant {A B : Type} (f : A -> B -> A) (P : A -> Prop)
    (l : list B) :
  forall a, P a -> (forall a b, In b l -> P a -> P (f a b)) ->
            P (fold_left f l a).
Proof.
  induction l as [|b l IH]; intros a Ha Hf; simpl; [assumption|].
  apply IH.
  - apply Hf; [left; reflexivity | assumption].
  - intros a' b' Hb'. apply Hf. right; assumption.
Qed.

Lemma fuzzy_loop_sound (choices variants : list str) :
  sound_best WRatio choices variants
    (fold_left (fuzzy_step WRatio choices) variants (None, 0%Q)).
Proof.
  apply fold_left_invariant; [intros ? ? ? [=]|].
  intros best v Hv Hbest. unfold fuzzy_step.
  pose proof (extractOne_sound (normalize_for_search (Text v)) choices 75%Q)
    as Hpick.
  destruct (extractOne WRatio (normalize_for_search (Text v)) choices 75%Q)
    as [[[m s] idx]|]; [|assumption].
  destruct (Qlt_bool (snd best) s); [|assumption].
  intros m' s' idx' [= <- <- <-].
  destruct (Hpick m s idx eq_refl) as (Hcut & Hs & Hnth).
  exists v. auto.
Qed.

(** The index the fuzzy loop records is a position of the pool, so
    [objects[idx]] is defined. *)
Lemma fuzzy_index_in_range (objects variants : list str)
    (m : str) (s : score) (idx : nat) :
  fst (fold_left (fuzzy_step WRatio (translits objects)) variants
         (None, 0%Q)) = Some (m, s, idx) ->
  (idx < length objects)%nat.
Proof.
  intros H. destruct (fuzzy_loop_sound _ _ _ _ _ H) as (v & _ & _ & _ & Hn).
  assert (Hlt : (idx < length (translits objects))%nat)
    by (apply nth_error_Some; congruence).
  unfold translits in Hlt. rewrite length_map in Hlt. exact Hlt.
Qed.

Lemma fuzzy_tier_cases (objects variants : list str) :
  fuzzy_tier WRatio objects (translits objects) variants = no_match \/
  exists o s v,
    fuzzy_tier WRatio objects (translits objects) variants
      = (Some o, s, false) /\
    In o objects /\ In v variants /\
    s = WRatio (normalize_for_search (Text v))
               (normalize_for_search (Text o)) /\
    Qle_bool 75 s = true.
Proof.
  unfold fuzzy_tier.
  pose proof (fuzzy_loop_sound (translits objects) variants) as Hsound.
  destruct (fold_left (fuzzy_step WRatio (translits objects)) variants
              (None, 0%Q)) as [[[[m s] idx]|] bs]; [|left; reflexivity].
  destruct (Hsound m s idx eq_refl) as (v & Hv & Hs & Hcut & Hnth).
  unfold translits in Hnth. rewrite nth_error_map in Hnth.
  destruct (nth_error objects idx) as [o|] eqn:Ho; [|discriminate].
  injection Hnth as Hm.
  right. exists o, s, v. repeat split; try assumption.
  - eapply nth_error_In; eassumption.
  - rewrite Hm. exact Hs.
Qed.

End FuzzyFacts.

(** ** The concrete scorer *)

Lemma lcs_cons (x : char) (a : str) (y : char) (b : str) :
  lcs (x :: a) (y :: b) =
  if x =? y then S (lcs a b) else Nat.max (lcs a (y :: b)) (lcs (x :: a) b).
Proof. reflexivity. Qed.

Lemma lcs_nil_r (a : str) : lcs a [] = O.
Proof. destruct a; reflexivity. Qed.

Lemma lcs_le (a b : str) :
  (lcs a b <= length a)%nat /\ (lcs a b <= length b)%nat.
Proof.
  revert b. induction a as [|x a IHa]; intros b; [simpl; lia|].
  induction b as [|y b IHb]; [rewrite lcs_nil_r; simpl; lia|].
  rewrite lcs_cons. destruct (x =? y).
  - destruct (IHa b). simpl. lia.
  - destruct (IHa (y :: b)). destruct IHb. simpl in *. lia.
Qed.

Lemma lcs_full (a b : str) :
  lcs a b = length a -> lcs a b = length b -> a = b.
Proof.
  revert b. induction a as [|x a IHa]; intros b.
  - destruct b; [reflexivity | simpl; discriminate].
  - induction b as [|y b IHb]; [rewrite lcs_nil_r; simpl; discriminate|].
    rewrite lcs_cons. destruct (N.eqb_spec x y) as [->|Hxy].
    + simpl. intros [= Ha] [= Hb]. f_equal. apply IHa; assumption.
    + destruct (lcs_le a (y :: b)), (lcs_le (x :: a) b). simpl in *. lia.
Qed.

(** Two different strings never reach the top score. *)
Lemma ratio_lt_100 (a b : str) : a <> b -> (ratio a b < 100)%Q.
Proof.
  intros Hab. unfold ratio.
  destruct (length a + length b)%nat as [|n] eqn:En.
  - destruct a, b; simpl in En; try discriminate. congruence.
  - rewrite Qred_correct. unfold Qlt. cbn [Qnum Qden].
    destruct (lcs_le a b) as [Ha Hb].
    assert (lcs a b <> length a \/ lcs a b <> length b).
    { destruct (Nat.eq_dec (lcs a b) (length a)) as [E1|]; [|auto].
      destruct (Nat.eq_dec (lcs a b) (length b)) as [E2|]; [|auto].
      exfalso. apply Hab, lcs_full; assumption. }
    rewrite Zpos_P_of_succ_nat. lia.
Qed.

(** ** The claims about [find_best_match] *)

(** C1: for a non-empty candidate list, [find_best_match] takes the alias
    variants in the order [apply_aliases] produced them.  Let [v] be the
    first variant for which some tier fires (all variants before it are
    silent).  If any candidate passes tier 1 for [v], the first such
    candidate in pool order is returned with score 100; otherwise, if any
    passes tier 2, the first such one with score 95; otherwise the first
    one passing tier 3 with score 90; always with exact = true.  The fuzzy
    tier is evaluated, once over all variants, exactly when every variant
    is silent in tiers 1 to 3. *)
Theorem find_best_match_cascade_order
    (WRatio : str -> str -> score) (query : str) (objects : list str) :
  objects <> [] ->
  let variants := apply_aliases query in
  let result := find_best_match WRatio query objects in
  (forall before v after o,
      variants = before ++ v :: after ->
      (forall v', In v' before -> silent v' objects) ->
      (first_hit (tier1 v) objects o -> result = (Some o, 100%Q, true)) /\
      (no_hit (tier1 v) objects -> first_hit (tier2 v) objects o ->
       result = (Some o, 95%Q, true)) /\
      (no_hit (tier1 v) objects -> no_hit (tier2 v) objects ->
       first_hit (tier3 v) objects o -> result = (Some o, 90%Q, true)))
  /\ ((forall v, In v variants -> silent v objects) ->
      result = fuzzy_tier WRatio objects (translits objects) variants)
  /\ ((exists v, In v variants /\ ~ silent v objects) ->
      snd result = true).
Proof.
  intros Hne variants result. subst result.
  rewrite (find_best_match_unfold WRatio query objects Hne).
  fold variants. split; [|split].
  - intros before v after o Hsplit Hbefore.
    rewrite Hsplit, (cascade_silent_prefix _ _ _ Hbefore), cascade_cons.
    repeat split.
    + intros H1. apply find_first_hit in H1. rewrite H1. reflexivity.
    + intros H1 H2. apply find_no_hit in H1. apply find_first_hit in H2.
      rewrite H1, H2. reflexivity.
    + intros H1 H2 H3. apply find_no_hit in H1, H2.
      apply find_first_hit in H3. rewrite H1, H2, H3. reflexivity.
  - intros Hall. apply cascade_none in Hall. rewrite Hall. reflexivity.
  - intros (v & Hv & Hloud).
    destruct (cascade (table_of objects) variants) as [[o s]|] eqn:E;
      [reflexivity|].
    exfalso. apply Hloud. exact (proj1 (cascade_none _ _) E v Hv).
Qed.

(** Use of C1: "Канал" expands to "канал", which is silent, and "canal",
    which is contained in the first candidate. *)
Lemma find_best_match_cascade_order_witness :
  [u "Canal Front Residences 3"; u "XYZ"] <> [] /\
  find_best_match ratio (u "Канал") [u "Canal Front Residences 3"; u "XYZ"]
  = (Some (u "Canal Front Residences 3"), 95%Q, true).
Proof.
  assert (Hne : [u "Canal Front Residences 3"; u "XYZ"] <> [])
    by discriminate.
  split; [exact Hne|].
  destruct (find_best_match_cascade_order ratio (u "Канал")
              [u "Canal Front Residences 3"; u "XYZ"] Hne) as [Hcascade _].
  apply (Hcascade [u "канал"] (u "canal") [] (u "Canal Front Residences 3")).
  - vm_compute. reflexivity.
  - intros v' [<-|[]].
    repeat split; intros x [<-|[<-|[]]]; vm_compute; reflexivity.
  - intros x [<-|[<-|[]]]; vm_compute; reflexivity.
  - exists [], [u "XYZ"]. repeat split.
    intros x [].
Defined.

(** C2: the flag [exact] is true exactly when one of tiers 1 to 3 fires
    for some variant and candidate.  The score then names the tier that
    decided: with [v] the first variant that is not silent, the score is
    100 when a candidate passes the exact tier for [v], 95 when none does
    and one passes the forward containment, 90 when neither of these tiers
    has a candidate and one passes the reverse containment; the match is
    the first candidate of that tier.  A match with exact = false is the
    result of the fuzzy tier and its score is at least the cut-off 75 and
    strictly below 100, given that the scorer keeps the top score for
    identical strings. *)
Theorem find_best_match_exact_flag (WRatio : str -> str -> score) :
  (forall a b, a <> b -> (WRatio a b < 100)%Q) ->
  forall (query : str) (objects : list str)
         (m : option str) (s : score) (exact : bool),
    find_best_match WRatio query objects = (m, s, exact) ->
    (exact = true <->
       exists v o, In v (apply_aliases query) /\ In o objects /\
                   (tier1 v o || tier2 v o || tier3 v o) = true) /\
    (exact = true ->
       exists before v after o,
         apply_aliases query = before ++ v :: after /\
         (forall v', In v' before -> silent v' objects) /\
         m = Some o /\
         ((s = 100%Q /\ first_hit (tier1 v) objects o) \/
          (s = 95%Q /\ no_hit (tier1 v) objects /\
           first_hit (tier2 v) objects o) \/
          (s = 90%Q /\ no_hit (tier1 v) objects /\
           no_hit (tier2 v) objects /\
           first_hit (tier3 v) objects o))) /\
    (exact = false -> m <> None ->
       (m, s, exact) = fuzzy_tier WRatio objects (translits objects)
                         (apply_aliases query) /\
       (75 <= s)%Q /\ (s < 100)%Q).
Proof.
  intros Hscorer query objects m s exact Hres.
  assert (Hquiet : forall vs, (forall v, In v vs -> silent v objects) ->
            ~ exists v o, In v vs /\ In o objects /\
                          (tier1 v o || tier2 v o || tier3 v o) = true).
  { intros vs Hall (v & o & Hv & Ho & Ht).
    destruct (Hall v Hv) as (H1 & H2 & H3).
    rewrite (H1 o Ho), (H2 o Ho), (H3 o Ho) in Ht. discriminate. }
  destruct objects as [|o0 objects'] eqn:Eobj.
  { injection Hres as <- <- <-. split; [|split].
    - split; [discriminate | intros (v & o & _ & [] & _)].
    - discriminate.
    - intros _ Hm. contradiction. }
  rewrite <- Eobj in *.
  rewrite find_best_match_unfold in Hres by (rewrite Eobj; discriminate).
  destruct (cascade (table_of objects) (apply_aliases query))
    as [[o s0]|] eqn:Ec.
  - injection Hres as <- <- <-.
    destruct (cascade_some _ _ _ _ Ec) as (Ho & v & Hv & Hs).
    split; [|split].
    + split; [|reflexivity]. intros _. exists v, o.
      repeat split; try assumption.
      destruct Hs as [[_ ->]|[[_ ->]|[_ ->]]];
        rewrite ?orb_true_r; reflexivity.
    + intros _.
      destruct (cascade_some_first _ _ _ _ Ec)
        as (before & v1 & after & Hsplit & Hq & Hs1).
      exists before, v1, after, o. auto.
    + discriminate.
  - pose proof (proj1 (cascade_none _ _) Ec) as Hall.
    destruct (fuzzy_tier_cases WRatio objects (apply_aliases query))
      as [Hnone|(o & s' & v & Hf & Ho & Hv & Hs & Hcut)].
    + rewrite Hnone in Hres. injection Hres as <- <- <-.
      split; [|split].
      * split; [discriminate|]. intros H. exfalso. exact (Hquiet _ Hall H).
      * discriminate.
      * intros _ Hm. contradiction.
    + rewrite Hf in Hres. injection Hres as <- <- <-.
      split; [|split].
      * split; [discriminate|]. intros H. exfalso. exact (Hquiet _ Hall H).
      * discriminate.
      * intros _ _. split; [symmetry; exact Hf|]. split.
        -- apply Qle_bool_iff. exact Hcut.
        -- rewrite Hs. apply Hscorer.
           destruct (Hall v Hv) as (H1 & _). specialize (H1 o Ho).
           unfold tier1 in H1. apply orb_false_iff in H1.
           destruct H1 as [_ H1]. apply str_eqb_neq in H1. exact H1.
Qed.

(** Use of C2 with the concrete scorer.  A misspelt name reaches the fuzzy
    tier and scores 1200/13, about 92.3.  The exact name scores 100, and
    the theorem excludes the two containment tiers for it although their
    tests hold as well. *)
Lemma find_best_match_exact_flag_witness :
  (forall a b, a <> b -> (ratio a b < 100)%Q) /\
  (find_best_match ratio (u "Shagaal") [u "Shagal"]
   = (Some (u "Shagal"), 1200 # 13, false) /\
   (75 <= 1200 # 13)%Q /\ (1200 # 13 < 100)%Q) /\
  (find_best_match ratio (u "shagal") [u "Shagal"]
   = (Some (u "Shagal"), 100%Q, true) /\
   (tier2 (u "shagal") (u "Shagal") && tier3 (u "shagal") (u "Shagal"))
   = true /\
   exists before v after o,
     apply_aliases (u "shagal") = before ++ v :: after /\
     (forall v', In v' before -> silent v' [u "Shagal"]) /\
     Some (u "Shagal") = Some o /\
     first_hit (tier1 v) [u "Shagal"] o).
Proof.
  assert (E : find_best_match ratio (u "Shagaal") [u "Shagal"]
              = (Some (u "Shagal"), 1200 # 13, false))
    by (vm_compute; reflexivity).
  assert (E' : find_best_match ratio (u "shagal") [u "Shagal"]
               = (Some (u "Shagal"), 100%Q, true))
    by (vm_compute; reflexivity).
  split; [exact ratio_lt_100|]. split.
  - split; [exact E|].
    destruct (find_best_match_exact_flag ratio ratio_lt_100 _ _ _ _ _ E)
      as (_ & _ & Hfuzzy).
    destruct (Hfuzzy eq_refl) as (_ & Hlo & Hhi); [discriminate|].
    split; assumption.
  - split; [exact E'|]. split; [vm_compute; reflexivity|].
    destruct (find_best_match_exact_flag ratio ratio_lt_100 _ _ _ _ _ E')
      as (_ & Hexact & _).
    destruct (Hexact eq_refl)
      as (before & v & after & o & Hsplit & Hq & Hm & Hs).
    exists before, v, after, o.
    split; [exact Hsplit|]. split; [exact Hq|]. split; [exact Hm|].
    destruct Hs as [[_ H]|[[H _]|[H _]]];
      [exact H | discriminate H | discriminate H].
Defined.

(** C10: [find_best_match] returns either [(None, 0, False)] or a
    triple whose first component is an element of the candidate list
    itself, unchanged, with a strictly positive score. *)
Theorem find_best_match_returns_candidate
    (WRatio : str -> str -> score) (query : str) (objects : list str) :
  find_best_match WRatio query objects = (None, 0%Q, false) \/
  exists o s exact,
    find_best_match WRatio query objects = (Some o, s, exact) /\
    In o objects /\ (0 < s)%Q.
Proof.
  destruct objects as [|o0 objects'] eqn:Eobj; [left; reflexivity|].
  rewrite <- Eobj.
  rewrite find_best_match_unfold by (rewrite Eobj; discriminate).
  destruct (cascade (table_of objects) (apply_aliases query))
    as [[o s]|] eqn:Ec.
  - right. exists o, s, true.
    destruct (cascade_some _ _ _ _ Ec) as (Ho & v & _ & Hs).
    repeat split; [assumption|].
    destruct Hs as [[-> _]|[[-> _]|[-> _]]]; reflexivity.
  - destruct (fuzzy_tier_cases WRatio objects (apply_aliases query))
      as [Hnone|(o & s & v & Hf & Ho & _ & _ & Hcut)]; [left; exact Hnone|].
    right. exists o, s, false. repeat split; try assumption.
    apply Qle_bool_iff in Hcut.
    apply Qlt_le_trans with (y := 75%Q); [reflexivity | exact Hcut].
Qed.

(** ** District lookup *)

Lemma startswith_refl (s : str) : startswith s s = true.
Proof.
  induction s as [|c s IH]; simpl; [reflexivity|].
  rewrite N.eqb_refl. exact IH.
Qed.

Lemma contains_refl (s : str) : contains s s = true.
Proof. destruct s; simpl; [reflexivity|]. rewrite N.eqb_refl, startswith_refl. reflexivity. Qed.

Lemma district_step_matches (q : str) (results : list district_object)
    (item : str * district_info) :
  district_step q results item =
  if district_matches q (snd item)
  then results ++ [district_entry (fst item) (snd item)]
  else results.
Proof.
  destruct item as [obj info]. unfold district_step, district_matches.
  cbn [fst snd].
  destruct (contains q (normalize (district info))
            || contains (normalize (district info)) q); [reflexivity|].
  cbn [orb].
  destruct (contains q (normalize (city info))) eqn:Ec; [reflexivity|].
  cbn [orb].
  destruct (str_eqb (normalize (city info)) q) eqn:Ee; [|reflexivity].
  apply str_eqb_eq in Ee. rewrite Ee, contains_refl in Ec. discriminate.
Qed.

Lemma district_loop (q : str) (data : list (str * district_info))
    (results : list district_object) :
  fold_left (district_step q) data results =
  results ++ map (fun item => district_entry (fst item) (snd item))
               (filter (fun item => district_matches q (snd item)) data).
Proof.
  revert results. induction data as [|item data IH]; intros results; simpl.
  - symmetry; apply app_nil_r.
  - rewrite IH, district_step_matches.
    destruct (district_matches q (snd item)); simpl; [|reflexivity].
    rewrite <- app_assoc. reflexivity.
Qed.

(** C5 (as the code has it): the lookup returns, in the order of the
    reference file, exactly the records for which the normalized query and
    the normalized district contain one another in either direction, or
    the normalized query is contained in the normalized city.  Equality
    with the city is an instance of that containment; a city contained in
    a longer query does not make a match. *)
Theorem get_objects_by_district_matches
    (districts_data : list (str * district_info)) (district_query : str) :
  get_objects_by_district districts_data district_query =
  map (fun item => district_entry (fst item) (snd item))
    (filter (fun item =>
               district_matches (normalize (Text district_query)) (snd item))
       districts_data).
Proof. unfold get_objects_by_district. apply district_loop. Qed.

(** C5 fails as stated: the query "Dubai Marina" contains the city "Dubai"
    of a record filed under another district, which the specification's
    wording counts as a match, and the lookup does not return the record. *)
Lemma get_objects_by_district_city_counterexample :
  let info := {| district := Text (u "Palm Jumeirah");
                 city := Text (u "Dubai");
                 country := Text (u "UAE") |} in
  district_matches_spec (normalize (Text (u "Dubai Marina"))) info = true /\
  get_objects_by_district [(u "Marina Gate", info)] (u "Dubai Marina") = [].
Proof. split; vm_compute; reflexivity. Qed.

(** ** The date window *)

Lemma apply_parse_date_In (rs : list row) (dated : list (row * datetime)) :
  apply_parse_date rs = Return dated ->
  forall r t, In (r, t) dated <-> In r rs /\ parse_date (Date r) = Return t.
Proof.
  revert dated. induction rs as [|r0 rs IH]; intros dated; simpl.
  - intros [= <-]. intros r t. split; [intros [] | intros [[] _]].
  - destruct (parse_date (Date r0)) as [t0|e] eqn:E0; simpl; [|discriminate].
    destruct (apply_parse_date rs) as [ds|e]; simpl; [|discriminate].
    intros [= <-]. intros r t. simpl. rewrite (IH ds eq_refl r t). split.
    + intros [[= <- <-]|[Hin Hp]]; auto.
    + intros [[<-|Hin] Hp]; [left | right; auto].
      rewrite E0 in Hp. injection Hp as <-. reflexivity.
Qed.

Lemma date_filter_In (cutoff : datetime) (dated : list (row * datetime))
    (r : row) :
  In r (date_filter cutoff dated) <->
  exists t, In (r, t) dated /\ datetime_ge t cutoff = true.
Proof.
  unfold date_filter. rewrite in_map_iff. split.
  - intros ([r' t] & <- & Hin). apply filter_In in Hin.
    exists t. exact Hin.
  - intros (t & Hin & Hge). exists (r, t). split; [reflexivity|].
    apply filter_In. split; assumption.
Qed.

(** A row survives the date filter when the midnight of its date is not
    before the cut-off instant [now - days]. *)
Lemma date_window_In (now : datetime) (days : Z) (rs kept : list row) :
  date_window now days rs = Return kept ->
  forall r, In r kept <->
    In r rs /\ exists d, Date r = Dated d /\
      datetime_ge (midnight d)
        {| dt_day := dt_day now - days; dt_us := dt_us now |} = true.
Proof.
  unfold date_window, minus_days.
  destruct ((Z.abs days <=? 999999999)%Z && (1 <=? dt_day now - days)%Z
            && (dt_day now - days <=? MAXORDINAL)%Z); simpl; [|discriminate].
  destruct (apply_parse_date rs) as [dated|e] eqn:Ep; simpl; [|discriminate].
  intros [= <-] r. rewrite date_filter_In. split.
  - intros (t & Hin & Hge).
    apply (apply_parse_date_In _ _ Ep) in Hin. destruct Hin as [Hin Hp].
    split; [assumption|].
    destruct (Date r) as [d|]; simpl in Hp; [|discriminate].
    injection Hp as <-. exists d. auto.
  - intros (Hin & d & Hd & Hge). exists (midnight d). split; [|assumption].
    apply (apply_parse_date_In _ _ Ep). split; [assumption|].
    rewrite Hd. reflexivity.
Qed.

(** C6 (as the code has it): the cut-off is the instant [now - days], time
    of day included, and a row's date is the midnight of its day.  A row is
    kept exactly when its day is later than the day of the cut-off, or is
    that very day and [now] is exactly midnight.  So a row dated [days]
    days before today is kept only at midnight ([>=] and not [>]), is
    dropped at any later time of day, and a row one day older is always
    dropped. *)
Theorem date_filter_boundary (now : datetime) (days : Z)
    (rs kept : list row) (r : row) (d : Z) :
  valid_datetime now ->
  date_window now days rs = Return kept ->
  In r rs -> Date r = Dated d ->
  (In r kept <->
     (dt_day now - days < d)%Z \/
     (d = dt_day now - days /\ dt_us now = 0)%Z) /\
  (d = dt_day now - days -> (In r kept <-> dt_us now = 0%Z))%Z /\
  (d = dt_day now - days - 1 -> ~ In r kept)%Z.
Proof.
  intros [_ Hus] Hwin Hin Hd.
  assert (Hkept : In r kept <->
            (dt_day now - days < d)%Z \/
            (d = dt_day now - days /\ dt_us now = 0)%Z).
  { rewrite (date_window_In _ _ _ _ Hwin r). split.
    - intros (_ & d' & Hd' & Hge). rewrite Hd in Hd'. injection Hd' as <-.
      unfold datetime_ge, midnight in Hge. cbn [dt_day dt_us] in Hge.
      apply orb_true_iff in Hge. destruct Hge as [Hlt|Heq].
      + left. apply Z.ltb_lt. exact Hlt.
      + right. apply andb_true_iff in Heq. destruct Heq as [He Hle].
        apply Z.eqb_eq in He. apply Z.leb_le in Hle. lia.
    - intros H. split; [assumption|]. exists d. split; [assumption|].
      unfold datetime_ge, midnight. cbn [dt_day dt_us].
      apply orb_true_iff. destruct H as [Hlt|[-> Hz]].
      + left. apply Z.ltb_lt. exact Hlt.
      + right. rewrite Z.eqb_refl, Hz. reflexivity. }
  split; [exact Hkept|]. split.
  - intros ->. rewrite Hkept. split; [intros [?|[_ ?]]; [lia | assumption]|].
    intros Hz. right. auto.
  - intros -> Hk. apply Hkept in Hk. lia.
Qed.

(** Use of C6 at noon of day 739000 with a period of 14 days. *)
Lemma date_filter_boundary_witness :
  let now := {| dt_day := 739000; dt_us := 43200000000 |} in
  let r := {| Broker := Text (u "Ivan"); Date := Dated 738986;
              Object := Text (u "Shagal"); Status := NA |} in
  valid_datetime now /\
  date_window now 14 [r] = Return [] /\
  (In r [] <-> dt_us now = 0%Z).
Proof.
  intros now r.
  assert (Hv : valid_datetime now)
    by (unfold valid_datetime, MAXORDINAL, US_PER_DAY, now;
        cbn [dt_day dt_us]; lia).
  assert (Hw : date_window now 14 [r] = Return []) by reflexivity.
  split; [exact Hv|]. split; [exact Hw|].
  destruct (date_filter_boundary now 14 [r] [] r 738986 Hv Hw
              (or_introl eq_refl) eq_refl) as (_ & Hday & _).
  apply Hday. reflexivity.
Defined.

(** C6 fails as stated: at noon, with a period of 14 days, the row dated
    exactly 14 days before today is filtered out and its broker is not
    reported. *)
Lemma date_filter_boundary_counterexample :
  let now := {| dt_day := 739000; dt_us := 43200000000 |} in
  let r := {| Broker := Text (u "Ivan"); Date := Dated (739000 - 14);
              Object := Text (u "Shagal"); Status := NA |} in
  let df := {| columns := required; rows := [r] |} in
  date_window now 14 (rows df) = Return [] /\
  find_brokers (fun _ => None) df now (u "Shagal") 14 (u "exact") None
  = Return {| br_object := u "Shagal"; br_days := 14;
              br_match := u "exact"; br_brokers := [] |}.
Proof. split; vm_compute; reflexivity. Qed.

Lemma apply_parse_date_raises (rs : list row) (e : exn) :
  apply_parse_date rs = Raise e -> e = StrptimeError.
Proof.
  induction rs as [|r rs IH]; simpl; [discriminate|].
  destruct (Date r); simpl; [|intros [= <-]; reflexivity].
  destruct (apply_parse_date rs); simpl; [discriminate|].
  intros [= <-]. apply IH. reflexivity.
Qed.

Lemma date_window_raises (now : datetime) (days : Z) (rs : list row)
    (e : exn) :
  date_window now days rs = Raise e ->
  e = StrptimeError \/ e = OverflowError.
Proof.
  unfold date_window, minus_days.
  destruct ((Z.abs days <=? 999999999)%Z && (1 <=? dt_day now - days)%Z
            && (dt_day now - days <=? MAXORDINAL)%Z); simpl.
  - destruct (apply_parse_date rs) eqn:E; simpl; [discriminate|].
    intros [= <-]. left. exact (apply_parse_date_raises _ _ E).
  - intros [= <-]. right. reflexivity.
Qed.

(** ** Required columns *)

Lemma missing_column_some (df : DataFrame) (col : str) :
  missing_column df = Some col ->
  In col required /\ ~ In col (columns df).
Proof.
  unfold missing_column. intros H. apply find_some in H.
  destruct H as [Hin Hmem]. split; [assumption|].
  apply negb_true_iff, mem_not_In in Hmem. exact Hmem.
Qed.

Lemma missing_column_none (df : DataFrame) :
  missing_column df = None <->
  forall col, In col required -> In col (columns df).
Proof.
  unfold missing_column. rewrite find_no_hit. unfold no_hit.
  split; intros H col Hcol; specialize (H col Hcol).
  - apply negb_false_iff, mem_In in H. exact H.
  - apply negb_false_iff, mem_In. exact H.
Qed.

(** C8: when a required column is missing, the first missing one (in the
    order broker, date, object) is named in the error: [load_data] and
    [search_brokers] return the message "Отсутствует колонка: <column>" and
    [find_brokers] raises [ValueError] with it, whatever the rows, the
    clock and the query are, so before any date is parsed or filtered and
    with no other result.  When every required column is present, neither
    function reports a missing column. *)
Theorem missing_column_is_fatal (df : DataFrame) :
  ((exists col, In col required /\ ~ In col (columns df)) ->
   exists col, missing_column df = Some col) /\
  (forall col, missing_column df = Some col ->
     In col required /\ ~ In col (columns df) /\
     load_data (Some df) = inr (u "Отсутствует колонка: " ++ col) /\
     (forall WRatio now query,
        search_brokers WRatio (Some df) now query
        = Return (Error (u "Отсутствует колонка: " ++ col))) /\
     (forall re_compile now query days match_mode exclude_status,
        find_brokers re_compile df now query days match_mode exclude_status
        = Raise (ValueError (u "Отсутствует колонка: " ++ col)))) /\
  ((forall col, In col required -> In col (columns df)) ->
     load_data (Some df) = inl df /\
     (forall WRatio now query col,
        search_brokers WRatio (Some df) now query
        <> Return (Error (u "Отсутствует колонка: " ++ col))) /\
     (forall re_compile now query days match_mode exclude_status msg,
        find_brokers re_compile df now query days match_mode exclude_status
        <> Raise (ValueError msg))).
Proof.
  split; [|split].
  - intros (col & Hreq & Hmiss).
    destruct (missing_column df) as [c|] eqn:E; [eauto|].
    exfalso. apply Hmiss. exact (proj1 (missing_column_none df) E col Hreq).
  - intros col Hcol. destruct (missing_column_some df col Hcol) as [Hreq Hmiss].
    split; [assumption|]. split; [assumption|].
    split; [|split].
    + unfold load_data. rewrite Hcol. reflexivity.
    + intros WRatio now query. unfold search_brokers, load_data.
      rewrite Hcol. reflexivity.
    + intros re now query days mode ex. unfold find_brokers.
      rewrite Hcol. reflexivity.
  - intros Hall. apply missing_column_none in Hall.
    split; [|split].
    + unfold load_data. rewrite Hall. reflexivity.
    + intros WRatio now query col. unfold search_brokers, load_data.
      rewrite Hall.
      destruct (date_window now DAYS (rows df)) as [[|r kept]|e];
        cbn [bind]; [| |discriminate].
      * intros H. vm_compute in H. discriminate H.
      * destruct (find_best_match WRatio query
                    (unique (dropna (map Object (r :: kept)))))
          as [[[[|c o]|] s] exact]; try discriminate.
        unfold broker_names.
        destruct (text_column (map Broker (rows df))); discriminate.
    + intros re now query days mode ex msg. unfold find_brokers.
      rewrite Hall.
      destruct (date_window now days (rows df)) as [kept|e] eqn:E;
        cbn [bind].
      * destruct (str_eqb mode (u "exact"));
          [|destruct (re (normalize (Text query))); [|discriminate]];
          cbn [bind]; unfold broker_names;
          destruct (text_column (map Broker (rows df))); discriminate.
      * destruct (date_window_raises _ _ _ _ E) as [-> | ->]; discriminate.
Qed.

(** ** Aggregation in [search_brokers] *)

(** Whenever an object is found, exactly or not, the broker list is the
    aggregation over the rows of the date window whose object cell is,
    verbatim, one of the synonyms of the match. *)
Lemma search_brokers_found (WRatio : str -> str -> score)
    (file : option DataFrame) (now : datetime) (query : str) (r : found) :
  search_brokers WRatio file now query = Return (Found r) ->
  exists df kept,
    load_data file = inl df /\
    date_window now DAYS (rows df) = Return kept /\
    find_best_match WRatio query (unique (dropna (map Object kept)))
    = (Some (f_object r), f_score r, f_exact r) /\
    f_brokers r =
      unique_brokers
        (filter (fun x => isin (Object x) (get_synonyms (f_object r)))
           kept).
Proof.
  unfold search_brokers.
  destruct (load_data file) as [df|err] eqn:El; [|discriminate].
  destruct (date_window now DAYS (rows df)) as [[|x kept]|e] eqn:Ew;
    cbn [bind]; try discriminate.
  destruct (find_best_match WRatio query
              (unique (dropna (map Object (x :: kept)))))
    as [[[[|c o]|] s] exact] eqn:E; try discriminate.
  unfold broker_names.
  destruct (text_column (map Broker (rows df))); cbn [bind];
    [|discriminate].
  intros [= <-]. exists df, (x :: kept).
  cbn [f_object f_score f_exact f_brokers].
  split; [reflexivity|]. split; [exact Ew|]. split; [exact E | reflexivity].
Qed.

(** C3 (as the code has it): when the search ends in a fuzzy match
    (exact = false), the message handler sends the suggestion with the
    request for an exact name and nothing else, so no broker is displayed.
    The aggregation itself is not suppressed: the result of
    [search_brokers] carries the broker list of the guessed object. *)
Theorem fuzzy_match_shows_suggestion_only (WRatio : str -> str -> score)
    (file : option DataFrame) (districts_data : list (str * district_info))
    (now : datetime) (text : str) (r : found) :
  strip text <> [] ->
  district_request (strip text) = [] ->
  search_brokers WRatio file now (strip text) = Return (Found r) ->
  f_exact r = false ->
  handle_message WRatio file districts_data now text
  = Return [ReplySuggestion (f_object r)] /\
  exists df kept,
    load_data file = inl df /\
    date_window now DAYS (rows df) = Return kept /\
    f_brokers r =
      unique_brokers
        (filter (fun x => isin (Object x) (get_synonyms (f_object r)))
           kept).
Proof.
  intros Hq Hd Hs He. split.
  - unfold handle_message.
    destruct (strip text) as [|c q] eqn:Eq; [congruence|].
    rewrite Hd, Hs. cbn [bind]. rewrite He. reflexivity.
  - destruct (search_brokers_found _ _ _ _ _ Hs)
      as (df & kept & Hl & Hw & _ & Hb).
    exists df, kept. auto.
Qed.

(** Use of C3: the misspelt "Shagaal" is answered with the suggestion
    "Shagal" only. *)
Lemma fuzzy_match_shows_suggestion_only_witness :
  let now := {| dt_day := 739000; dt_us := 43200000000 |} in
  let file := Some {| columns := required;
                      rows := [ {| Broker := Text (u "Ivan");
                                   Date := Dated 738999;
                                   Object := Text (u "Shagal");
                                   Status := NA |} ] |} in
  handle_message ratio file [] now (u " Shagaal ")
  = Return [ReplySuggestion (u "Shagal")].
Proof.
  intros now file.
  refine (proj1 (fuzzy_match_shows_suggestion_only ratio file [] now
                   (u " Shagaal ")
                   {| f_query := u "Shagaal"; f_object := u "Shagal";
                      f_objects := [u "Shagal"]; f_days := 60;
                      f_brokers := [u "Ivan"]; f_score := 1200 # 13;
                      f_exact := false |} _ _ _ _)).
  - vm_compute. discriminate.
  - vm_compute. reflexivity.
  - vm_compute. reflexivity.
  - reflexivity.
Defined.

(** C3 fails as stated: for the fuzzy guess "Shagal" the search does
    produce the aggregated broker list, next to exact = false. *)
Lemma search_brokers_fuzzy_counterexample :
  let now := {| dt_day := 739000; dt_us := 43200000000 |} in
  let file := Some {| columns := required;
                      rows := [ {| Broker := Text (u "Ivan");
                                   Date := Dated 738999;
                                   Object := Text (u "Shagal");
                                   Status := NA |} ] |} in
  search_brokers ratio file now (u "Shagaal")
  = Return (Found {| f_query := u "Shagaal"; f_object := u "Shagal";
                     f_objects := [u "Shagal"]; f_days := 60;
                     f_brokers := [u "Ivan"]; f_score := 1200 # 13;
                     f_exact := false |}).
Proof. vm_compute. reflexivity. Qed.

(** C4: the only showing is filed under "prime park", a spelling that
    normalizes to a member of the synonym group of "Prime Park".  The
    search resolves the query to that very row's object and then filters
    the rows by verbatim comparison with the group, so the row is left out
    and no broker is reported. *)
Theorem search_brokers_drops_respelled_rows :
  let now := {| dt_day := 739000; dt_us := 43200000000 |} in
  let x := {| Broker := Text (u "Ivan"); Date := Dated 738999;
              Object := Text (u "prime park"); Status := NA |} in
  let file := Some {| columns := required; rows := [x] |} in
  get_synonyms (u "prime park") = [u "Прайм парк"; u "Prime Park"] /\
  In (normalize (Object x))
     (map (fun o => normalize (Text o)) (get_synonyms (u "prime park"))) /\
  search_brokers ratio file now (u "prime park")
  = Return (Found {| f_query := u "prime park";
                     f_object := u "prime park";
                     f_objects := []; f_days := 60;
                     f_brokers := []; f_score := 100%Q;
                     f_exact := true |}).
Proof.
  intros now x file. split; [|split].
  - vm_compute. reflexivity.
  - right. left. vm_compute. reflexivity.
  - vm_compute. reflexivity.
Qed.

(* ================================================================== *)
(** * Further properties *)

(** ** Normalizer and transliteration *)

(** X1: the value of [normalize] is in canonical form, in every script:
    [strip] and [str.lower] leave it unchanged and it holds no two adjacent
    spaces. *)
Theorem normalize_canonical (lower_full : char -> str)
    (final_sigma : str -> str -> bool) (v : value) :
  case_table lower_full ->
  strip (Unicode.normalize lower_full final_sigma v)
  = Unicode.normalize lower_full final_sigma v /\
  Unicode.lower lower_full final_sigma
    (Unicode.normalize lower_full final_sigma v)
  = Unicode.normalize lower_full final_sigma v /\
  contains (u "  ") (Unicode.normalize lower_full final_sigma v) = false.
Proof.
  intros table. split; [|split].
  - apply strip_trimmed, full_normalize_trimmed, table.
  - apply lower_from_fixed, full_normalize_settled, table.
  - apply full_normalize_no_double_space.
Qed.

Lemma normalize_canonical_witness :
  case_table basic_lower_full /\
  Unicode.normalize basic_lower_full (fun _ _ => false)
    (Text (u " WEST  Garden ")) = u "west garden" /\
  strip (u "west garden") = u "west garden" /\
  Unicode.lower basic_lower_full (fun _ _ => false) (u "west garden")
  = u "west garden" /\
  contains (u "  ") (u "west garden") = false.
Proof.
  split; [exact basic_case_table|].
  assert (E : Unicode.normalize basic_lower_full (fun _ _ => false)
                (Text (u " WEST  Garden ")) = u "west garden")
    by (vm_compute; reflexivity).
  split; [exact E|]. rewrite <- E.
  exact (normalize_canonical basic_lower_full (fun _ _ => false)
           (Text (u " WEST  Garden ")) basic_case_table).
Defined.

(** X2: [normalize] absorbs an earlier [strip], and an earlier [strip]
    followed by [lower]: text that a caller already stripped, or stripped
    and lower-cased, normalizes to the same string. *)
Theorem normalize_absorbs_strip_lower (lower_full : char -> str)
    (final_sigma : str -> str -> bool) (s : str) :
  case_table lower_full ->
  Unicode.normalize lower_full final_sigma (Text (strip s))
  = Unicode.normalize lower_full final_sigma (Text s) /\
  Unicode.normalize lower_full final_sigma
    (Text (Unicode.lower lower_full final_sigma (strip s)))
  = Unicode.normalize lower_full final_sigma (Text s).
Proof.
  intros table. split; cbn [Unicode.normalize].
  - rewrite (strip_trimmed _ (trimmed_strip s)). reflexivity.
  - rewrite (strip_trimmed _
               (trimmed_lower_full _ final_sigma table _ (trimmed_strip s))).
    assert (E : Unicode.lower lower_full final_sigma
                  (Unicode.lower lower_full final_sigma (strip s))
                = Unicode.lower lower_full final_sigma (strip s))
      by (apply lower_from_fixed, lower_from_settled; exact table).
    rewrite E. reflexivity.
Qed.

Lemma normalize_absorbs_strip_lower_witness :
  case_table basic_lower_full /\
  Unicode.normalize basic_lower_full (fun _ _ => false)
    (Text (Unicode.lower basic_lower_full (fun _ _ => false)
             (strip (u " Прайм  Парк "))))
  = Unicode.normalize basic_lower_full (fun _ _ => false)
      (Text (u " Прайм  Парк ")).
Proof.
  split; [exact basic_case_table|].
  exact (proj2 (normalize_absorbs_strip_lower basic_lower_full
                  (fun _ _ => false) (u " Прайм  Парк ")
                  basic_case_table)).
Defined.

Lemma translit_fold (l : str) (acc : str) :
  fold_left (fun result c => result ++ table_get c) l acc =
  acc ++ flat_map table_get l.
Proof.
  revert acc. induction l as [|c l IH]; intros acc; simpl.
  - symmetry; apply app_nil_r.
  - rewrite IH, <- app_assoc. reflexivity.
Qed.

Lemma transliterate_flat_map (text : str) :
  transliterate_ru_to_en text = flat_map table_get (lower text).
Proof. unfold transliterate_ru_to_en. apply translit_fold. Qed.

Lemma modelled_not_sigma (c : char) : modelled c = true -> c <> 931.
Proof. intros H ->. discriminate H. Qed.

Lemma to_lower_modelled (c : char) :
  modelled c = true -> modelled (to_lower c) = true.
Proof.
  unfold modelled.
  destruct (to_lower_cases c) as [E|[[E ?]|[[E ?]|[[E ?]|[E ?]]]]];
    rewrite E; [auto| | | |]; intros _; split_cmp.
Qed.

Lemma lstrip_Forall (P : char -> Prop) (s : str) :
  Forall P s -> Forall P (lstrip s).
Proof.
  induction 1 as [|c s Hc Hs IH]; [constructor|].
  cbn [lstrip]. destruct (isspace c); [exact IH | constructor; assumption].
Qed.

Lemma strip_Forall (P : char -> Prop) (s : str) :
  Forall P s -> Forall P (strip s).
Proof.
  intros H. unfold strip, rstrip.
  apply Forall_rev, lstrip_Forall, Forall_rev, lstrip_Forall, H.
Qed.

Lemma squeeze_Forall (P : char -> Prop) (s : str) :
  P 32 -> Forall P s -> Forall P (squeeze s).
Proof.
  intros Hsp H. apply replace_from_Forall; [|assumption].
  constructor; [exact Hsp | constructor].
Qed.

Lemma lower_from_agrees (lower_full : char -> str)
    (final_sigma : str -> str -> bool) (s : str) :
  (forall c, modelled c = true -> lower_full c = [to_lower c]) ->
  Forall (fun c => modelled c = true) s ->
  forall before,
    Unicode.lower_from lower_full final_sigma before s = lower s.
Proof.
  intros Hagree. induction 1 as [|c s Hc _ IH]; intros before;
    cbn [Unicode.lower_from lower map]; [reflexivity|].
  unfold Unicode.lower_char.
  destruct (N.eqb_spec c 931) as [E|_];
    [exfalso; exact (modelled_not_sigma c Hc E)|].
  rewrite (Hagree c Hc), IH. reflexivity.
Qed.

Lemma normalize_modelled (s : str) :
  Forall (fun c => modelled c = true) s ->
  Forall (fun c => modelled c = true) (normalize (Text s)).
Proof.
  intros H. cbn [normalize].
  apply (collapse_spaces_inv (Forall (fun c => modelled c = true))).
  - intros t Ht. apply squeeze_Forall; [reflexivity | exact Ht].
  - unfold lower. apply Forall_map.
    apply (Forall_impl (fun c => modelled (to_lower c) = true)
             to_lower_modelled).
    apply strip_Forall, H.
Qed.

(** X3: on text of Basic Latin, Latin-1 and Cyrillic up to U+045F, the
    blocks the program's tables are written in, the functions built on
    [to_lower] are the functions over [str.lower]: lower-casing, both
    normalizers and the transliteration give the same strings, whatever
    [str.lower] does in other scripts, as long as its mapping is [to_lower]
    on these blocks. *)
Theorem lower_agrees (lower_full : char -> str)
    (final_sigma : str -> str -> bool) (s : str) :
  (forall c, modelled c = true -> lower_full c = [to_lower c]) ->
  Forall (fun c => modelled c = true) s ->
  Unicode.lower lower_full final_sigma s = lower s /\
  Unicode.normalize lower_full final_sigma (Text s) = normalize (Text s) /\
  Unicode.transliterate_ru_to_en lower_full final_sigma s
  = transliterate_ru_to_en s /\
  Unicode.normalize_for_search lower_full final_sigma (Text s)
  = normalize_for_search (Text s).
Proof.
  intros Hagree Hs.
  assert (Hlow : forall t, Forall (fun c => modelled c = true) t ->
            Unicode.lower lower_full final_sigma t = lower t)
    by (intros t Ht; apply lower_from_agrees; assumption).
  assert (Hnorm : Unicode.normalize lower_full final_sigma (Text s)
                  = normalize (Text s)).
  { cbn [Unicode.normalize normalize].
    rewrite (Hlow _ (strip_Forall _ _ Hs)). reflexivity. }
  split; [exact (Hlow s Hs)|]. split; [exact Hnorm|]. split.
  - unfold Unicode.transliterate_ru_to_en, transliterate_ru_to_en.
    rewrite (Hlow s Hs). reflexivity.
  - unfold Unicode.normalize_for_search, normalize_for_search,
      Unicode.transliterate_ru_to_en, transliterate_ru_to_en.
    rewrite Hnorm, (Hlow _ (normalize_modelled s Hs)). reflexivity.
Qed.

Lemma basic_lower_full_agrees (c : char) :
  modelled c = true -> basic_lower_full c = [to_lower c].
Proof.
  intros H. unfold basic_lower_full.
  destruct (N.eqb_spec c 931) as [E|_]; [|reflexivity].
  exfalso. exact (modelled_not_sigma c H E).
Qed.

Lemma lower_agrees_witness :
  (forall c, modelled c = true -> basic_lower_full c = [to_lower c]) /\
  Forall (fun c => modelled c = true) (u " Прайм  Park ") /\
  Unicode.normalize_for_search basic_lower_full (fun _ _ => true)
    (Text (u " Прайм  Park "))
  = normalize_for_search (Text (u " Прайм  Park ")).
Proof.
  assert (H : Forall (fun c => modelled c = true) (u " Прайм  Park "))
    by (repeat constructor).
  split; [exact basic_lower_full_agrees|]. split; [exact H|].
  exact (proj2 (proj2 (proj2
           (lower_agrees basic_lower_full (fun _ _ => true)
              (u " Прайм  Park ") basic_lower_full_agrees H)))).
Defined.

Lemma table_get_miss (c : char) :
  ~ In c (map fst translit_table) -> table_get c = [c].
Proof.
  intros H. unfold table_get.
  destruct (find (fun kv => fst kv =? c) translit_table) as [kv|] eqn:E;
    [|reflexivity].
  apply find_some in E. destruct E as [Hin Heq]. apply N.eqb_eq in Heq.
  exfalso. apply H. rewrite <- Heq. apply in_map. exact Hin.
Qed.

Lemma table_get_hit (c : char) :
  In c (map fst translit_table) -> In (table_get c) (map snd translit_table).
Proof.
  intros H. unfold table_get.
  destruct (find (fun kv => fst kv =? c) translit_table) as [kv|] eqn:E.
  - apply find_some in E. apply in_map. exact (proj1 E).
  - exfalso. apply in_map_iff in H. destruct H as (kv & Hk & Hin).
    pose proof (find_none _ _ E kv Hin) as Hn. cbn beta in Hn.
    apply N.eqb_neq in Hn. contradiction.
Qed.

Lemma translit_keys (c : char) :
  In c (map fst translit_table) <-> is_russian_small c = true.
Proof.
  split.
  - intros H.
    assert (Hall : forallb is_russian_small (map fst translit_table) = true)
      by (vm_compute; reflexivity).
    rewrite forallb_forall in Hall. apply Hall. exact H.
  - intros H.
    assert (Hall : forallb (fun x => existsb (N.eqb x)
                                       (map fst translit_table))
                     (1105 :: map N.of_nat (seq 1072 32)) = true)
      by (vm_compute; reflexivity).
    rewrite forallb_forall in Hall.
    assert (Hc : In c (1105 :: map N.of_nat (seq 1072 32))).
    { unfold is_russian_small in H. apply orb_true_iff in H.
      destruct H as [H|H].
      - right. apply andb_true_iff in H. destruct H as [H1 H2].
        apply N.leb_le in H1, H2. apply in_map_iff.
        exists (N.to_nat c). split; [apply N2Nat.id|].
        apply in_seq. lia.
      - left. apply N.eqb_eq in H. congruence. }
    specialize (Hall c Hc). apply existsb_exists in Hall.
    destruct Hall as (x & Hx & Heq). apply N.eqb_eq in Heq. subst x.
    exact Hx.
Qed.

Lemma translit_values_latin :
  forall v, In v (map snd translit_table) ->
            Forall (fun c => is_russian c = false) v.
Proof.
  assert (Hall : forallb (forallb (fun c => negb (is_russian c)))
                   (map snd translit_table) = true)
    by (vm_compute; reflexivity).
  rewrite forallb_forall in Hall. intros v Hv. specialize (Hall v Hv).
  rewrite forallb_forall in Hall. apply Forall_forall. intros c Hc.
  apply negb_true_iff. apply Hall. exact Hc.
Qed.

Lemma to_lower_not_capital (c : char) :
  is_russian (to_lower c) = is_russian_small (to_lower c).
Proof.
  destruct (to_lower_cases c) as [H|[[H ?]|[[H ?]|[[H ?]|[H ?]]]]];
    rewrite !H; unfold is_russian, is_russian_small.
  - unfold to_lower in H. revert H. split_cmp.
  - split_cmp.
  - split_cmp.
  - split_cmp.
  - split_cmp.
Qed.

Lemma table_get_latin (c : char) :
  Forall (fun x => is_russian x = false) (table_get (to_lower c)).
Proof.
  destruct (is_russian_small (to_lower c)) eqn:E.
  - apply translit_values_latin, table_get_hit, translit_keys, E.
  - rewrite table_get_miss.
    + constructor; [|constructor]. rewrite to_lower_not_capital. exact E.
    + intros H. apply translit_keys in H. congruence.
Qed.

(** X4: the transliterated text holds no letter of the Russian alphabet,
    capital or small: all of them are rewritten to Latin letters or
    dropped. *)
Theorem transliterate_no_russian (text : str) :
  Forall (fun c => is_russian c = false) (transliterate_ru_to_en text).
Proof.
  rewrite transliterate_flat_map.
  induction text as [|c text IH]; [constructor|].
  cbn [lower map flat_map]. apply Forall_app. split.
  - apply table_get_latin.
  - exact IH.
Qed.

Lemma lower_from_In (lower_full : char -> str)
    (final_sigma : str -> str -> bool) (text : str) (d : char) :
  forall before,
    In d (Unicode.lower_from lower_full final_sigma before text) ->
    d = 962 \/ d = 963 \/ exists c, In c text /\ In d (lower_full c).
Proof.
  induction text as [|c text IH]; intros before; [intros []|].
  cbn [Unicode.lower_from]. intros H. apply in_app_iff in H.
  destruct H as [H|H].
  - unfold Unicode.lower_char in H. destruct (c =? 931).
    + destruct H as [<-|[]].
      destruct (final_sigma before text); auto.
    + right. right. exists c. split; [left; reflexivity | exact H].
  - destruct (IH _ H) as [E|[E|(c' & Hc' & Hd)]]; auto.
    right. right. exists c'. split; [right; exact Hc' | exact Hd].
Qed.

Lemma flat_map_table_get_miss (s : str) :
  Forall (fun d => is_russian_small d = false) s ->
  flat_map table_get s = s.
Proof.
  induction 1 as [|d s Hd _ IH]; [reflexivity|].
  cbn [flat_map]. rewrite IH, table_get_miss; [reflexivity|].
  intros Hk. apply translit_keys in Hk. congruence.
Qed.

(** X5: text without Russian letters passes through transliteration
    unchanged but for its case, in every script: the result is
    [text.lower()].  No letter of another alphabet has a Russian small
    letter as its lower case. *)
Theorem transliterate_other_text (lower_full : char -> str)
    (final_sigma : str -> str -> bool) (text : str) :
  (forall c d, In d (lower_full c) -> is_russian_small d = true ->
               is_russian c = true) ->
  Forall (fun c => is_russian c = false) text ->
  Unicode.transliterate_ru_to_en lower_full final_sigma text
  = Unicode.lower lower_full final_sigma text.
Proof.
  intros Hrus H. unfold Unicode.transliterate_ru_to_en.
  rewrite translit_fold. cbn [app].
  apply flat_map_table_get_miss, Forall_forall. intros d Hd.
  destruct (lower_from_In _ _ _ _ _ Hd) as [->|[->|(c & Hc & Hin)]];
    [reflexivity | reflexivity |].
  destruct (is_russian_small d) eqn:E; [|reflexivity].
  rewrite Forall_forall in H. pose proof (H c Hc) as Hn.
  rewrite (Hrus c d Hin E) in Hn. discriminate Hn.
Qed.

Lemma basic_lower_full_russian (c d : char) :
  In d (basic_lower_full c) -> is_russian_small d = true ->
  is_russian c = true.
Proof.
  unfold basic_lower_full. destruct (c =? 931).
  - intros [<-|[]]. discriminate.
  - intros [<-|[]]. unfold is_russian_small, is_russian.
    destruct (to_lower_cases c) as [E|[[E ?]|[[E ?]|[[E ?]|[E ?]]]]];
      rewrite E; split_cmp.
Qed.

Lemma transliterate_other_text_witness :
  (forall c d, In d (basic_lower_full c) -> is_russian_small d = true ->
               is_russian c = true) /\
  Forall (fun c => is_russian c = false) (u "Canal Front 3") /\
  Unicode.transliterate_ru_to_en basic_lower_full (fun _ _ => false)
    (u "Canal Front 3") = u "canal front 3".
Proof.
  assert (H : Forall (fun c => is_russian c = false) (u "Canal Front 3"))
    by (repeat constructor).
  split; [exact basic_lower_full_russian|]. split; [exact H|].
  rewrite (transliterate_other_text basic_lower_full (fun _ _ => false)
             _ basic_lower_full_russian H).
  vm_compute. reflexivity.
Defined.

(** ** Alias expansion and synonym groups *)

Lemma alias_step_In (q : str) (vs : list str) (item : str * str) (v : str) :
  In v (alias_step q vs item) <->
  In v vs \/
  (contains (fst item) q = true /\ fst item <> q /\
   v = replace q (fst item) (snd item)).
Proof.
  destruct item as [alias replacement]. unfold alias_step. cbn [fst snd].
  destruct (contains alias q) eqn:Ec; cbn [andb].
  - destruct (str_eqb alias q) eqn:Ee; cbn [negb].
    + apply str_eqb_eq in Ee. split; [auto|].
      intros [H|(_ & H & _)]; [assumption | contradiction].
    + apply str_eqb_neq in Ee.
      destruct (mem (replace q alias replacement) vs) eqn:Em; cbn [negb].
      * apply mem_In in Em. split; [auto|].
        intros [H|(_ & _ & ->)]; assumption.
      * rewrite in_app_iff. cbn [In]. split.
        -- intros [H|[<-|[]]]; auto.
        -- intros [H|(_ & _ & ->)]; auto.
  - split; [auto|]. intros [H|(H & _)]; [assumption | discriminate].
Qed.

Lemma alias_loop_In (q : str) (items : list (str * str)) (vs : list str)
    (v : str) :
  In v (fold_left (alias_step q) items vs) <->
  In v vs \/
  exists alias replacement,
    In (alias, replacement) items /\ contains alias q = true /\
    alias <> q /\ v = replace q alias replacement.
Proof.
  revert vs. induction items as [|item items IH]; intros vs; cbn [fold_left].
  - split; [auto|]. intros [H|(a & r & [] & _)]. exact H.
  - rewrite IH, alias_step_In. split.
    + intros [[H|(Hc & Hn & Hv)]|(a & r & Hin & H)].
      * left; exact H.
      * right. exists (fst item), (snd item). destruct item. cbn [fst snd] in *.
        repeat split; auto. left; reflexivity.
      * right. exists a, r. split; [right; exact Hin | exact H].
    + intros [H|(a & r & [E|Hin] & Hc & Hn & Hv)].
      * left; left; exact H.
      * left; right. subst item. cbn [fst snd]. auto.
      * right. exists a, r. auto.
Qed.

(** X6: the variants of a query are exactly: the normalized query; the
    normalized replacement when the whole query is an alias; and, for every
    alias that occurs inside the query without being the whole of it, the
    query with all occurrences of that alias replaced. *)
Theorem apply_aliases_variants (query v : str) :
  let query_norm := normalize (Text query) in
  In v (apply_aliases query) <->
  v = query_norm \/
  (exists replacement,
     dict_get ALIASES query_norm = Some replacement /\
     v = normalize (Text replacement)) \/
  (exists alias replacement,
     In (alias, replacement) ALIASES /\ contains alias query_norm = true /\
     alias <> query_norm /\ v = replace query_norm alias replacement).
Proof.
  intros query_norm. unfold apply_aliases. fold query_norm.
  rewrite alias_loop_In.
  destruct (dict_get ALIASES query_norm) as [r|]; cbn [app In].
  - split.
    + intros [[H|[H|[]]]|H]; auto. right; left. eauto.
    + intros [H|[(r' & [= <-] & H)|H]]; auto.
  - split.
    + intros [[H|[]]|H]; auto.
    + intros [H|[(r' & [=] & _)|H]]; auto.
Qed.

(** X7: the variants are pairwise distinct exactly when the query is not
    an alias whose replacement normalizes to the query itself. *)
Theorem apply_aliases_distinct_iff (query : str) :
  NoDup (apply_aliases query) <->
  ~ exists replacement,
      dict_get ALIASES (normalize (Text query)) = Some replacement /\
      normalize (Text replacement) = normalize (Text query).
Proof.
  split.
  - intros Hnd (r & Hr & Heq).
    destruct (alias_loop_grows (normalize (Text query)) ALIASES
                [normalize (Text query); normalize (Text r)])
      as [extra E].
    assert (Happ : apply_aliases query =
                   normalize (Text query) :: normalize (Text r) :: extra).
    { unfold apply_aliases. rewrite Hr. exact E. }
    rewrite Happ, Heq in Hnd.
    inversion Hnd as [|x l Hin _]; subst. apply Hin. left; reflexivity.
  - intros H. apply apply_aliases_NoDup. intros r Hr Heq.
    apply H. exists r. auto.
Qed.

(** The group that holds a normalized name. *)
Lemma get_synonyms_by_norm (a b : str) :
  normalize (Text a) = normalize (Text b) ->
  forall g,
    find (fun group => mem (normalize (Text b))
                         (map (fun o => normalize (Text o)) group))
      SYNONYMS = Some g ->
    get_synonyms a = g.
Proof. intros E g Hg. unfold get_synonyms. rewrite E, Hg. reflexivity. Qed.

Lemma strs_eqb_eq (a b : list str) : strs_eqb a b = true -> a = b.
Proof.
  revert b. induction a as [|x a IH]; intros [|y b]; cbn [strs_eqb];
    try discriminate; [reflexivity|].
  intros H. apply andb_true_iff in H. destruct H as [H1 H2].
  apply str_eqb_eq in H1. apply IH in H2. congruence.
Qed.

(** The configured groups are pairwise disjoint after normalization: the
    scan of [get_synonyms] stops at the group a member was taken from. *)
Lemma synonyms_scan_closed :
  forallb
    (fun g =>
       forallb
         (fun m =>
            match
              find (fun group =>
                      mem (normalize (Text m))
                        (map (fun o => normalize (Text o)) group)) SYNONYMS
            with
            | Some g' => strs_eqb g' g
            | None => false
            end) g) SYNONYMS = true.
Proof. vm_compute. reflexivity. Qed.

(** X8: synonym closure.  For every configured group and every member of
    it, any spelling that normalizes like the member is resolved to that
    very group, members in their configured spelling and order. *)
Theorem get_synonyms_of_member (g : list str) (m s : str) :
  In g SYNONYMS -> In m g ->
  normalize (Text s) = normalize (Text m) ->
  get_synonyms s = g.
Proof.
  intros Hg Hm Hs. apply (get_synonyms_by_norm s m Hs).
  pose proof synonyms_scan_closed as H.
  rewrite forallb_forall in H. specialize (H g Hg).
  rewrite forallb_forall in H. specialize (H m Hm). cbn beta in H.
  destruct (find (fun group =>
                    mem (normalize (Text m))
                      (map (fun o => normalize (Text o)) group)) SYNONYMS)
    as [g'|]; [|discriminate].
  apply strs_eqb_eq in H. congruence.
Qed.

Lemma get_synonyms_of_member_witness :
  get_synonyms (u "  SHAGAL ") = [u "Шагал"; u "Shagal"].
Proof.
  apply (get_synonyms_of_member [u "Шагал"; u "Shagal"] (u "Shagal")).
  - apply (nth_error_In SYNONYMS 1). reflexivity.
  - right; left. reflexivity.
  - vm_compute. reflexivity.
Defined.

(** X9: the answer of [get_synonyms] always holds a name that normalizes
    like the input, and a name found in no configured group is returned
    alone and verbatim. *)
Theorem get_synonyms_holds_input (object_name : str) :
  In (normalize (Text object_name))
     (map (fun o => normalize (Text o)) (get_synonyms object_name)) /\
  ((forall g, In g SYNONYMS ->
      ~ In (normalize (Text object_name))
           (map (fun o => normalize (Text o)) g)) ->
   get_synonyms object_name = [object_name]).
Proof.
  unfold get_synonyms.
  destruct (find (fun group => mem (normalize (Text object_name))
                                 (map (fun o => normalize (Text o)) group))
              SYNONYMS) as [g|] eqn:E.
  - apply find_some in E. destruct E as [Hg Hmem]. apply mem_In in Hmem.
    split; [exact Hmem|]. intros H. exfalso. exact (H g Hg Hmem).
  - split; [left; reflexivity | reflexivity].
Qed.

(** ** Matching *)

Lemma contains_nil (s : str) : contains [] s = true.
Proof. destruct s; reflexivity. Qed.

(** X10: a query that normalizes like one of the candidates is resolved
    in the exact tier: score 100, exact = true, and the candidate returned
    is the first of the pool that equals the normalized query in plain or
    transliterated form. *)
Theorem find_best_match_exact_name (WRatio : str -> str -> score)
    (query : str) (objects : list str) (c : str) :
  In c objects ->
  normalize (Text c) = normalize (Text query) ->
  exists o,
    find_best_match WRatio query objects = (Some o, 100%Q, true) /\
    first_hit (tier1 (normalize (Text query))) objects o.
Proof.
  intros Hc Heq.
  assert (Hne : objects <> []) by (intros ->; contradiction).
  rewrite (find_best_match_unfold WRatio query objects Hne).
  destruct (apply_aliases_head query) as [rest ->].
  rewrite cascade_cons.
  destruct (find (tier1 (normalize (Text query))) objects) as [o|] eqn:E.
  - exists o. split; [reflexivity|]. apply find_first_hit. exact E.
  - exfalso. pose proof (find_none _ _ E c Hc) as Hn.
    unfold tier1 in Hn. rewrite Heq, str_eqb_refl in Hn. discriminate.
Qed.

Lemma find_best_match_exact_name_witness :
  exists o,
    find_best_match ratio (u " PRIME   park ") [u "Soul"; u "Prime Park"]
    = (Some o, 100%Q, true) /\
    first_hit (tier1 (normalize (Text (u " PRIME   park "))))
      [u "Soul"; u "Prime Park"] o.
Proof.
  apply (find_best_match_exact_name ratio (u " PRIME   park ")
           [u "Soul"; u "Prime Park"] (u "Prime Park")).
  - right; left; reflexivity.
  - vm_compute. reflexivity.
Defined.

Lemma apply_aliases_norm (q1 q2 : str) :
  normalize (Text q1) = normalize (Text q2) ->
  apply_aliases q1 = apply_aliases q2.
Proof. intros H. unfold apply_aliases. rewrite H. reflexivity. Qed.

(** X11: the resolution depends on the query only through its normal
    form: two queries that differ in case, outer white space or runs of
    spaces resolve to the same candidate with the same score and flag. *)
Theorem find_best_match_normal_form (WRatio : str -> str -> score)
    (q1 q2 : str) (objects : list str) :
  normalize (Text q1) = normalize (Text q2) ->
  find_best_match WRatio q1 objects = find_best_match WRatio q2 objects.
Proof.
  intros H. destruct objects as [|o objects]; [reflexivity|].
  unfold find_best_match. rewrite (apply_aliases_norm q1 q2 H). reflexivity.
Qed.

Lemma find_best_match_normal_form_witness :
  normalize (Text (u " ШАГАЛ ")) = normalize (Text (u "шагал")) /\
  find_best_match ratio (u " ШАГАЛ ") [u "Shagal"]
  = find_best_match ratio (u "шагал") [u "Shagal"].
Proof.
  assert (H : normalize (Text (u " ШАГАЛ ")) = normalize (Text (u "шагал")))
    by (vm_compute; reflexivity).
  split; [exact H|].
  exact (find_best_match_normal_form ratio _ _ [u "Shagal"] H).
Defined.

(** X12: a query that normalizes to the empty string (empty or white
    space only) is contained in every candidate, so on a non-empty pool it
    always ends in an exact verdict: the first candidate at score 95,
    unless a candidate has an empty form and takes score 100. *)
Theorem find_best_match_empty_query (WRatio : str -> str -> score)
    (query : str) (o : str) (rest : list str) :
  normalize (Text query) = [] ->
  exists o' s,
    find_best_match WRatio query (o :: rest) = (Some o', s, true) /\
    (s = 100%Q \/ (s = 95%Q /\ o' = o)).
Proof.
  intros Hq.
  rewrite find_best_match_unfold by discriminate.
  destruct (apply_aliases_head query) as [vs ->]. rewrite Hq.
  rewrite cascade_cons.
  destruct (find (tier1 []) (o :: rest)) as [o1|]; [eauto|].
  cbn [find]. unfold tier2 at 1. rewrite contains_nil. cbn [orb].
  exists o, 95%Q. auto.
Qed.

Lemma find_best_match_empty_query_witness :
  exists o' s,
    find_best_match ratio (u "   ") [u "Soul"; u "Slava"] = (Some o', s, true) /\
    (s = 100%Q \/ (s = 95%Q /\ o' = u "Soul")).
Proof.
  apply (find_best_match_empty_query ratio (u "   ") (u "Soul") [u "Slava"]).
  vm_compute. reflexivity.
Defined.

(** *** The fuzzy tier keeps the best pair *)

Lemma Qlt_bool_true (a b : Q) : Qlt_bool a b = true <-> (a < b)%Q.
Proof.
  unfold Qlt_bool. rewrite negb_true_iff. split.
  - intros H. apply Qnot_le_lt. intros Hle.
    apply Qle_bool_iff in Hle. congruence.
  - intros H. destruct (Qle_bool b a) eqn:E; [|reflexivity].
    apply Qle_bool_iff in E. exfalso. exact (Qlt_not_le _ _ H E).
Qed.

Lemma Qlt_bool_false (a b : Q) : Qlt_bool a b = false <-> (b <= a)%Q.
Proof.
  unfold Qlt_bool. rewrite negb_false_iff. apply Qle_bool_iff.
Qed.

Section FuzzyBest.

Variable WRatio : str -> str -> score.

Lemma extractOne_from_best (query : str) (score_cutoff : score) :
  forall (choices : list str) (i : nat) (r : option (str * score * nat))
         (seen : score -> Prop),
    (forall x, seen x -> (score_cutoff <= x)%Q ->
               exists c s j, r = Some (c, s, j) /\ (x <= s)%Q) ->
    forall x,
      seen x \/ (exists c, In c choices /\ x = WRatio query c) ->
      (score_cutoff <= x)%Q ->
      exists c s j,
        extractOne_from WRatio query score_cutoff i choices r
        = Some (c, s, j) /\ (x <= s)%Q.
Proof.
  induction choices as [|c rest IH]; intros i r seen Hseen x Hx Hcut.
  - destruct Hx as [Hx|(c & [] & _)]. exact (Hseen x Hx Hcut).
  - cbn [extractOne_from].
    apply (IH (S i) _ (fun y => seen y \/ y = WRatio query c)).
    + clear x Hx Hcut. intros x [Hx| ->] Hcut.
      * destruct (Hseen x Hx Hcut) as (c0 & s0 & j0 & -> & Hle).
        destruct (Qle_bool score_cutoff (WRatio query c)); cbn [andb];
          [|eauto].
        destruct (Qlt_bool s0 (WRatio query c)) eqn:El; [|eauto].
        apply Qlt_bool_true in El.
        exists c, (WRatio query c), i. split; [reflexivity|].
        apply Qle_trans with (y := s0); [exact Hle|].
        apply Qlt_le_weak. exact El.
      * apply Qle_bool_iff in Hcut. rewrite Hcut. cbn [andb].
        destruct r as [[[c0 s0] j0]|].
        -- destruct (Qlt_bool s0 (WRatio query c)) eqn:El.
           ++ exists c, (WRatio query c), i. split; [reflexivity|].
              apply Qle_refl.
           ++ apply Qlt_bool_false in El. eauto.
        -- exists c, (WRatio query c), i. split; [reflexivity|].
           apply Qle_refl.
    + destruct Hx as [Hx|(c' & [<-|Hin] & ->)]; eauto.
    + exact Hcut.
Qed.

Lemma extractOne_best (query : str) (choices : list str)
    (score_cutoff : score) (c : str) :
  In c choices -> (score_cutoff <= WRatio query c)%Q ->
  exists c' s j,
    extractOne WRatio query choices score_cutoff = Some (c', s, j) /\
    (WRatio query c <= s)%Q.
Proof.
  intros Hin Hcut. unfold extractOne.
  apply (extractOne_from_best query score_cutoff choices 0 None
           (fun _ => False)).
  - intros ? [].
  - right. exists c. auto.
  - exact Hcut.
Qed.

(** The state of the fuzzy loop after the variants [done]: the recorded
    score is that of the recorded result, which dominates every pair that
    reaches the cut-off. *)
Lemma fuzzy_loop_best (choices : list str) :
  forall (variants done : list str)
         (best : option (str * score * nat) * score),
    (match fst best with
     | Some (_, s, _) => snd best = s /\ (75 <= s)%Q
     | None => snd best = 0%Q
     end) ->
    (forall v c, In v done -> In c choices ->
       (75 <= WRatio (normalize_for_search (Text v)) c)%Q ->
       exists m s i, fst best = Some (m, s, i) /\
         (WRatio (normalize_for_search (Text v)) c <= s)%Q) ->
    let final := fold_left (fuzzy_step WRatio choices) variants best in
    (match fst final with
     | Some (_, s, _) => snd final = s /\ (75 <= s)%Q
     | None => snd final = 0%Q
     end) /\
    (forall v c, In v (done ++ variants) -> In c choices ->
       (75 <= WRatio (normalize_for_search (Text v)) c)%Q ->
       exists m s i, fst final = Some (m, s, i) /\
         (WRatio (normalize_for_search (Text v)) c <= s)%Q).
Proof.
  induction variants as [|v0 variants IH]; intros done best Hco Hdom.
  - cbn [fold_left]. rewrite app_nil_r. auto.
  - cbn [fold_left].
    replace (done ++ v0 :: variants) with ((done ++ [v0]) ++ variants)
      by (rewrite <- app_assoc; reflexivity).
    apply IH; unfold fuzzy_step;
      pose proof (extractOne_sound WRatio
                    (normalize_for_search (Text v0)) choices 75%Q) as Hs;
      pose proof (extractOne_best (normalize_for_search (Text v0)) choices
                    75%Q) as Hb;
      destruct (extractOne WRatio (normalize_for_search (Text v0)) choices
                  75%Q) as [[[m s] idx]|].
    + destruct (Qlt_bool (snd best) s); [|exact Hco].
      cbn [fst snd]. split; [reflexivity|].
      apply Qle_bool_iff. exact (proj1 (Hs m s idx eq_refl)).
    + exact Hco.
    + destruct (Hs m s idx eq_refl) as (Hcut & _ & _).
      apply Qle_bool_iff in Hcut.
      intros v c Hv Hc Hx. apply in_app_iff in Hv.
      destruct (Qlt_bool (snd best) s) eqn:El.
      * cbn [fst]. exists m, s, idx. split; [reflexivity|].
        apply Qlt_bool_true in El.
        destruct Hv as [Hv|[<-|[]]].
        -- destruct (Hdom v c Hv Hc Hx) as (m0 & s0 & i0 & E0 & Hle).
           rewrite E0 in Hco. destruct Hco as [Hbs _]. rewrite Hbs in El.
           apply Qle_trans with (y := s0); [exact Hle|].
           apply Qlt_le_weak. exact El.
        -- destruct (Hb c Hc Hx) as (c' & s' & j' & [= <- <- <-] & Hle).
           exact Hle.
      * apply Qlt_bool_false in El.
        destruct Hv as [Hv|[<-|[]]]; [exact (Hdom v c Hv Hc Hx)|].
        destruct (Hb c Hc Hx) as (c' & s' & j' & [= <- <- <-] & Hle).
        destruct (fst best) as [[[m0 s0] i0]|] eqn:E0.
        -- destruct Hco as [Hbs _]. rewrite Hbs in El.
           exists m0, s0, i0. split; [reflexivity|].
           apply Qle_trans with (y := s); assumption.
        -- exfalso. rewrite Hco in El.
           apply (Qlt_not_le 0 s); [|exact El].
           apply Qlt_le_trans with (y := 75%Q); [reflexivity | exact Hcut].
    + intros v c Hv Hc Hx. apply in_app_iff in Hv.
      destruct Hv as [Hv|[<-|[]]]; [exact (Hdom v c Hv Hc Hx)|].
      destruct (Hb c Hc Hx) as (c' & s' & j' & [=] & _).
Qed.

Lemma fuzzy_tier_best (objects variants : list str) (m : option str)
    (s : score) (e : bool) :
  fuzzy_tier WRatio objects (translits objects) variants = (m, s, e) ->
  (m = None ->
   forall v o, In v variants -> In o objects ->
     (WRatio (normalize_for_search (Text v))
             (normalize_for_search (Text o)) < 75)%Q) /\
  (m <> None ->
   forall v o, In v variants -> In o objects ->
     (WRatio (normalize_for_search (Text v))
             (normalize_for_search (Text o)) <= s)%Q).
Proof.
  unfold fuzzy_tier.
  destruct (fuzzy_loop_best (translits objects) variants [] (None, 0%Q))
    as [Hco Hdom]; [reflexivity | intros ? ? [] |].
  cbn [app] in Hdom.
  pose proof (fuzzy_index_in_range WRatio objects variants) as Hidx.
  destruct (fold_left (fuzzy_step WRatio (translits objects)) variants
              (None, 0%Q)) as [[[[m0 s0] idx]|] bs]; cbn [fst snd] in *.
  - specialize (Hidx m0 s0 idx eq_refl).
    destruct (nth_error objects idx) as [obj|] eqn:En;
      [|apply nth_error_None in En; lia].
    intros [= <- <- <-]. split; [discriminate|].
    intros _ v o Hv Ho.
    assert (Hc : In (normalize_for_search (Text o)) (translits objects))
      by (unfold translits;
          apply (in_map (fun o => normalize_for_search (Text o)));
          exact Ho).
    destruct (Qlt_le_dec
                (WRatio (normalize_for_search (Text v))
                        (normalize_for_search (Text o))) 75) as [Hlt|Hge].
    + apply Qlt_le_weak.
      apply Qlt_le_trans with (y := 75%Q); [exact Hlt | exact (proj2 Hco)].
    + destruct (Hdom v _ Hv Hc Hge) as (m1 & s1 & i1 & [= <- <- <-] & Hle).
      exact Hle.
  - intros [= <- <- <-]. split; [|congruence].
    intros _ v o Hv Ho.
    assert (Hc : In (normalize_for_search (Text o)) (translits objects))
      by (unfold translits;
          apply (in_map (fun o => normalize_for_search (Text o)));
          exact Ho).
    apply Qnot_le_lt. intros Hge.
    destruct (Hdom v _ Hv Hc Hge) as (m1 & s1 & i1 & [=] & _).
Qed.

End FuzzyBest.

(** X13: a fuzzy result is the best one: when [find_best_match] answers
    with exact = false and a candidate, no variant and candidate, in
    transliterated form, score higher than the score returned; when it
    answers with no candidate, every such pair scores below the cut-off
    75. *)
Theorem find_best_match_fuzzy_is_best (WRatio : str -> str -> score)
    (query : str) (objects : list str) (m : option str) (s : score) :
  find_best_match WRatio query objects = (m, s, false) ->
  (m = None ->
   forall v o, In v (apply_aliases query) -> In o objects ->
     (WRatio (normalize_for_search (Text v))
             (normalize_for_search (Text o)) < 75)%Q) /\
  (m <> None ->
   forall v o, In v (apply_aliases query) -> In o objects ->
     (WRatio (normalize_for_search (Text v))
             (normalize_for_search (Text o)) <= s)%Q).
Proof.
  intros H. destruct objects as [|o0 objects'] eqn:Eobj.
  { split; intros _ v o _ []. }
  rewrite <- Eobj in *.
  rewrite find_best_match_unfold in H by (rewrite Eobj; discriminate).
  destruct (cascade (table_of objects) (apply_aliases query))
    as [[o1 s1]|]; [discriminate|].
  exact (fuzzy_tier_best WRatio objects (apply_aliases query) m s false H).
Qed.

Lemma find_best_match_fuzzy_is_best_witness :
  find_best_match ratio (u "Shagaal") [u "Shagal"; u "Slava"]
  = (Some (u "Shagal"), 1200 # 13, false) /\
  (ratio (normalize_for_search (Text (u "shagaal")))
         (normalize_for_search (Text (u "Slava"))) <= 1200 # 13)%Q.
Proof.
  assert (E : find_best_match ratio (u "Shagaal") [u "Shagal"; u "Slava"]
              = (Some (u "Shagal"), 1200 # 13, false))
    by (vm_compute; reflexivity).
  split; [exact E|].
  apply (proj2 (find_best_match_fuzzy_is_best ratio _ _ _ _ E)).
  - discriminate.
  - vm_compute. left. reflexivity.
  - right; left; reflexivity.
Defined.

(** ** Aggregation of brokers *)

Lemma dropna_In (vs : list value) (s : str) :
  In s (dropna vs) <-> In (Text s) vs.
Proof.
  unfold dropna. rewrite in_flat_map. split.
  - intros ([|t] & Hin & Hs); [destruct Hs|].
    destruct Hs as [<-|[]]. exact Hin.
  - intros H. exists (Text s). split; [exact H | left; reflexivity].
Qed.

Lemma unique_from_In (seen xs : list str) (x : str) :
  In x (unique_from seen xs) <-> In x xs /\ ~ In x seen.
Proof.
  revert seen. induction xs as [|y xs IH]; intros seen; cbn [unique_from].
  - split; [intros [] | intros [[] _]].
  - destruct (mem y seen) eqn:E.
    + apply mem_In in E. rewrite IH. cbn [In]. split.
      * intros [H1 H2]. auto.
      * intros [[<-|H1] H2]; [contradiction | auto].
    + apply mem_not_In in E. cbn [In]. rewrite IH. cbn [In]. split.
      * intros [<-|[H1 H2]]; auto.
      * intros [[<-|H1] H2]; [auto|].
        destruct (list_eq_dec N.eq_dec y x) as [->|Hne]; [auto|].
        right. split; [assumption|]. intros [?|?]; contradiction.
Qed.

Lemma unique_from_NoDup (seen xs : list str) : NoDup (unique_from seen xs).
Proof.
  revert seen. induction xs as [|y xs IH]; intros seen; cbn [unique_from].
  - constructor.
  - destruct (mem y seen); [apply IH|].
    constructor; [|apply IH].
    rewrite unique_from_In. intros [_ H]. apply H. left; reflexivity.
Qed.

Lemma unique_In (xs : list str) (x : str) : In x (unique xs) <-> In x xs.
Proof. unfold unique. rewrite unique_from_In. cbn [In]. tauto. Qed.

Lemma unique_NoDup (xs : list str) : NoDup (unique xs).
Proof. apply unique_from_NoDup. Qed.

Lemma insert_sorted_In (x : str) (l : list str) (y : str) :
  In y (insert_sorted x l) <-> y = x \/ In y l.
Proof.
  induction l as [|z l IH]; cbn [insert_sorted In].
  - split; [intros [<-|[]]; auto | intros [->|[]]; auto].
  - destruct (str_leb x z); cbn [In]; [split; intuition congruence|].
    rewrite IH. split; intuition congruence.
Qed.

Lemma sorted_In (l : list str) (y : str) : In y (sorted l) <-> In y l.
Proof.
  unfold sorted. induction l as [|x l IH]; cbn [fold_right In]; [tauto|].
  rewrite insert_sorted_In, IH. split; intuition congruence.
Qed.

Lemma insert_sorted_NoDup (x : str) (l : list str) :
  ~ In x l -> NoDup l -> NoDup (insert_sorted x l).
Proof.
  induction l as [|z l IH]; intros Hx Hl; cbn [insert_sorted].
  - constructor; [intros [] | constructor].
  - destruct (str_leb x z); [constructor; assumption|].
    inversion Hl as [|? ? Hz Hl']; subst.
    constructor.
    + rewrite insert_sorted_In. intros [->|H]; [|contradiction].
      apply Hx. left; reflexivity.
    + apply IH; [|assumption]. intros H. apply Hx. right; exact H.
Qed.

Lemma sorted_NoDup (l : list str) : NoDup l -> NoDup (sorted l).
Proof.
  unfold sorted. induction 1 as [|x l Hx Hl IH]; cbn [fold_right].
  - constructor.
  - apply insert_sorted_NoDup; [|exact IH].
    intros H. apply Hx. apply (sorted_In l x). exact H.
Qed.

Lemma str_leb_total (a b : str) : str_leb a b = false -> str_leb b a = true.
Proof.
  revert b. induction a as [|x a IH]; intros [|y b]; cbn [str_leb];
    try discriminate; try reflexivity.
  destruct (N.ltb_spec x y); [discriminate|].
  destruct (N.ltb_spec y x); [reflexivity|].
  apply IH.
Qed.

Lemma str_leb_trans (a b c : str) :
  str_leb a b = true -> str_leb b c = true -> str_leb a c = true.
Proof.
  revert b c. induction a as [|x a IH]; intros [|y b] [|z c];
    cbn [str_leb]; try discriminate; try reflexivity.
  destruct (N.ltb_spec x y), (N.ltb_spec y z), (N.ltb_spec x z);
    try reflexivity; try lia;
    destruct (N.ltb_spec y x), (N.ltb_spec z y), (N.ltb_spec z x);
    try discriminate; try lia; try (intros; reflexivity).
  apply IH.
Qed.

Lemma insert_sorted_sorted (x : str) (l : list str) :
  StronglySorted str_le l -> StronglySorted str_le (insert_sorted x l).
Proof.
  induction 1 as [|z l Hl IH Hz]; cbn [insert_sorted].
  - repeat constructor.
  - destruct (str_leb x z) eqn:E.
    + constructor; [constructor; assumption|].
      constructor; [exact E|].
      rewrite Forall_forall in *. intros y Hy.
      exact (str_leb_trans _ _ _ E (Hz y Hy)).
    + constructor; [exact IH|].
      rewrite Forall_forall in *. intros y Hy.
      apply insert_sorted_In in Hy. destruct Hy as [->|Hy]; [|auto].
      apply str_leb_total. exact E.
Qed.

Lemma sorted_sorted (l : list str) : StronglySorted str_le (sorted l).
Proof.
  unfold sorted. induction l as [|x l IH]; cbn [fold_right].
  - constructor.
  - apply insert_sorted_sorted, IH.
Qed.

Lemma unique_brokers_In (df : list row) (b : str) :
  In b (unique_brokers df) <->
  b <> [] /\ exists r t, In r df /\ Broker r = Text t /\ strip t = b.
Proof.
  unfold unique_brokers. rewrite sorted_In, unique_In, filter_In.
  rewrite negb_true_iff, str_eqb_neq, in_map_iff. split.
  - intros [(t & Ht & Hin) Hne]. split; [exact Hne|].
    apply dropna_In, in_map_iff in Hin. destruct Hin as (r & Hr & Hin).
    exists r, t. auto.
  - intros [Hne (r & t & Hin & Hb & Hs)]. split; [|exact Hne].
    exists t. split; [exact Hs|]. apply dropna_In, in_map_iff.
    exists r. auto.
Qed.

Lemma text_column_spec (sheet : DataFrame) :
  text_column (map Broker (rows sheet)) = true <-> brokers_are_text sheet.
Proof.
  unfold brokers_are_text. destruct (rows sheet) as [|r0 rs] eqn:E.
  - split; [left; reflexivity | reflexivity].
  - cbn [map text_column]. rewrite <- map_cons, existsb_exists. split.
    + intros (v & Hin & Hv). right. apply in_map_iff in Hin.
      destruct Hin as (r & <- & Hin).
      destruct (Broker r) as [|t] eqn:Eb; [discriminate|].
      exists r, t. auto.
    + intros [H|(r & t & Hin & Hb)]; [discriminate|].
      exists (Broker r). split; [apply in_map; exact Hin|].
      rewrite Hb. reflexivity.
Qed.

Lemma broker_names_text (sheet : DataFrame) (df : list row) :
  brokers_are_text sheet ->
  broker_names sheet df = Return (unique_brokers df).
Proof.
  intros H. apply text_column_spec in H. unfold broker_names.
  rewrite H. reflexivity.
Qed.

Lemma broker_names_no_text (sheet : DataFrame) (df : list row) :
  ~ brokers_are_text sheet ->
  broker_names sheet df = Raise AttributeError.
Proof.
  intros H. unfold broker_names.
  destruct (text_column (map Broker (rows sheet))) eqn:E; [|reflexivity].
  exfalso. apply H, text_column_spec, E.
Qed.

(** X14: collecting the brokers of selected rows raises [AttributeError]
    when the sheet has rows and every broker cell of it is empty, whatever
    rows were selected.  Otherwise it returns a list that holds exactly the
    non-empty stripped names found in the broker cells of the selected
    rows; missing and blank cells contribute nothing. *)
Theorem broker_names_members (sheet : DataFrame) (df : list row) :
  (~ brokers_are_text sheet ->
   broker_names sheet df = Raise AttributeError) /\
  (brokers_are_text sheet ->
   exists brokers,
     broker_names sheet df = Return brokers /\
     forall b,
       In b brokers <->
       b <> [] /\
       exists r t, In r df /\ Broker r = Text t /\ strip t = b).
Proof.
  split.
  - apply broker_names_no_text.
  - intros H. exists (unique_brokers df).
    split; [apply broker_names_text; exact H|].
    apply unique_brokers_In.
Qed.

Lemma broker_names_members_witness :
  let empty := {| Broker := NA; Date := Dated 738999;
                  Object := Text (u "Soul"); Status := NA |} in
  let ivan := {| Broker := Text (u " Ivan "); Date := Dated 738999;
                 Object := Text (u "Soul"); Status := NA |} in
  (~ brokers_are_text {| columns := required; rows := [empty] |} /\
   broker_names {| columns := required; rows := [empty] |} []
   = Raise AttributeError) /\
  (brokers_are_text {| columns := required; rows := [empty; ivan] |} /\
   broker_names {| columns := required; rows := [empty; ivan] |}
     [empty; ivan] = Return [u "Ivan"]).
Proof.
  intros empty ivan. split.
  - assert (H : ~ brokers_are_text {| columns := required;
                                      rows := [empty] |}).
    { intros [H|(r & t & [<-|[]] & Hb)]; discriminate. }
    split; [exact H|].
    exact (proj1 (broker_names_members _ []) H).
  - assert (H : brokers_are_text {| columns := required;
                                    rows := [empty; ivan] |}).
    { right. exists ivan, (u " Ivan "). split; [|reflexivity].
      right. left. reflexivity. }
    split; [exact H|].
    destruct (proj2 (broker_names_members _ [empty; ivan]) H)
      as (brokers & E & _).
    rewrite E. vm_compute in E. injection E as <-. reflexivity.
Defined.

(** X15: the broker list is in ascending order of code points and names
    every broker once. *)
Theorem unique_brokers_sorted (df : list row) :
  StronglySorted str_le (unique_brokers df) /\ NoDup (unique_brokers df).
Proof.
  unfold unique_brokers. split.
  - apply sorted_sorted.
  - apply sorted_NoDup, unique_NoDup.
Qed.

(** ** Outcomes of the two searches *)

Lemma minus_days_in_range (now : datetime) (days : Z) :
  cutoff_in_range now days ->
  minus_days now days = Return (cutoff_of now days).
Proof.
  intros (H1 & H2 & H3). unfold minus_days.
  apply Z.leb_le in H1, H2, H3. rewrite H1, H2, H3. reflexivity.
Qed.

Lemma minus_days_out_of_range (now : datetime) (days : Z) :
  ~ cutoff_in_range now days -> minus_days now days = Raise OverflowError.
Proof.
  intros H. unfold minus_days.
  destruct ((Z.abs days <=? 999999999)%Z && (1 <=? dt_day now - days)%Z
            && (dt_day now - days <=? MAXORDINAL)%Z) eqn:E; [|reflexivity].
  exfalso. apply H. apply andb_true_iff in E. destruct E as [E E3].
  apply andb_true_iff in E. destruct E as [E1 E2].
  apply Z.leb_le in E1, E2, E3. repeat split; assumption.
Qed.

Lemma apply_parse_date_malformed (rs : list row) :
  (exists r, In r rs /\ Date r = Malformed) ->
  apply_parse_date rs = Raise StrptimeError.
Proof.
  induction rs as [|r0 rs IH]; intros (r & Hin & Hr); [destruct Hin|].
  cbn [apply_parse_date]. destruct (Date r0) as [d|] eqn:E0; [|reflexivity].
  cbn [parse_date bind]. destruct Hin as [->|Hin]; [congruence|].
  rewrite IH by eauto. reflexivity.
Qed.

Lemma apply_parse_date_well_formed (rs : list row) :
  (forall r, In r rs -> Date r <> Malformed) ->
  exists dated, apply_parse_date rs = Return dated.
Proof.
  induction rs as [|r0 rs IH]; intros H; [eexists; reflexivity|].
  cbn [apply_parse_date].
  destruct (Date r0) as [d|] eqn:E0;
    [|exfalso; exact (H r0 (or_introl eq_refl) E0)].
  cbn [parse_date bind].
  destruct IH as [dated ->]; [intros r Hr; apply H; right; exact Hr|].
  eexists; reflexivity.
Qed.

Lemma date_window_outcome (now : datetime) (days : Z) (rs : list row) :
  (~ cutoff_in_range now days ->
   date_window now days rs = Raise OverflowError) /\
  (cutoff_in_range now days ->
   (exists r, In r rs /\ Date r = Malformed) ->
   date_window now days rs = Raise StrptimeError) /\
  (cutoff_in_range now days ->
   (forall r, In r rs -> Date r <> Malformed) ->
   exists kept, date_window now days rs = Return kept).
Proof.
  unfold date_window. split; [|split].
  - intros H. rewrite (minus_days_out_of_range _ _ H). reflexivity.
  - intros H Hbad. rewrite (minus_days_in_range _ _ H). cbn [bind].
    rewrite (apply_parse_date_malformed _ Hbad). reflexivity.
  - intros H Hok. rewrite (minus_days_in_range _ _ H). cbn [bind].
    destruct (apply_parse_date_well_formed _ Hok) as [dated ->].
    eexists; reflexivity.
Qed.

(** X16: with the required columns present, [find_brokers] fails in
    exactly four ways, in this order: [OverflowError] when the cut-off
    [now - days] leaves the range of dates, whatever the rows hold;
    otherwise the error of [strptime] as soon as one row of the sheet has a
    date cell it rejects, even a row that no filter would keep; otherwise
    [re.error] when the mode is not "exact" and the normalized query is no
    regular expression; otherwise [AttributeError] when the sheet has rows
    and all its broker cells are empty.  In every other case it returns a
    result. *)
Theorem find_brokers_outcome (re_compile : str -> option (str -> bool))
    (df : DataFrame) (now : datetime) (object_query : str) (days : Z)
    (match_mode : str) (exclude_status : option str) :
  missing_column df = None ->
  (~ cutoff_in_range now days ->
   find_brokers re_compile df now object_query days match_mode
     exclude_status = Raise OverflowError) /\
  (cutoff_in_range now days ->
   (exists r, In r (rows df) /\ Date r = Malformed) ->
   find_brokers re_compile df now object_query days match_mode
     exclude_status = Raise StrptimeError) /\
  (cutoff_in_range now days ->
   (forall r, In r (rows df) -> Date r <> Malformed) ->
   ~ pattern_accepted re_compile match_mode object_query ->
   find_brokers re_compile df now object_query days match_mode
     exclude_status = Raise ReError) /\
  (cutoff_in_range now days ->
   (forall r, In r (rows df) -> Date r <> Malformed) ->
   pattern_accepted re_compile match_mode object_query ->
   ~ brokers_are_text df ->
   find_brokers re_compile df now object_query days match_mode
     exclude_status = Raise AttributeError) /\
  (cutoff_in_range now days ->
   (forall r, In r (rows df) -> Date r <> Malformed) ->
   pattern_accepted re_compile match_mode object_query ->
   brokers_are_text df ->
   exists res,
     find_brokers re_compile df now object_query days match_mode
       exclude_status = Return res).
Proof.
  intros Hcols. unfold find_brokers. rewrite Hcols.
  destruct (date_window_outcome now days (rows df)) as (H1 & H2 & H3).
  split; [|split; [|split; [|split]]].
  - intros H. rewrite (H1 H). reflexivity.
  - intros H Hbad. rewrite (H2 H Hbad). reflexivity.
  - intros H Hok Hpat. destruct (H3 H Hok) as [kept ->]. cbn [bind].
    unfold pattern_accepted in Hpat.
    destruct (str_eqb match_mode (u "exact")) eqn:Em.
    + exfalso. apply Hpat. left. apply str_eqb_eq. exact Em.
    + destruct (re_compile (normalize (Text object_query))) eqn:Er;
        [|reflexivity].
      exfalso. apply Hpat. right. discriminate.
  - intros H Hok Hpat Hno. destruct (H3 H Hok) as [kept ->]. cbn [bind].
    assert (Hsel : exists rs,
              (if str_eqb match_mode (u "exact")
               then Return
                      (filter (fun r => str_eqb (normalize (Object r))
                                          (normalize (Text object_query)))
                         kept)
               else
                 match re_compile (normalize (Text object_query)) with
                 | Some found =>
                     Return (filter (fun r => found (normalize (Object r)))
                               kept)
                 | None => Raise ReError
                 end) = Return rs).
    { destruct (str_eqb match_mode (u "exact")) eqn:Em;
        [eexists; reflexivity|].
      destruct Hpat as [Hm|Hre];
        [apply str_eqb_eq in Hm; congruence|].
      destruct (re_compile (normalize (Text object_query)));
        [eexists; reflexivity | congruence]. }
    destruct Hsel as [rs ->]. cbn [bind].
    rewrite (broker_names_no_text _ _ Hno). reflexivity.
  - intros H Hok Hpat Htext. destruct (H3 H Hok) as [kept ->]. cbn [bind].
    assert (Hsel : exists rs,
              (if str_eqb match_mode (u "exact")
               then Return
                      (filter (fun r => str_eqb (normalize (Object r))
                                          (normalize (Text object_query)))
                         kept)
               else
                 match re_compile (normalize (Text object_query)) with
                 | Some found =>
                     Return (filter (fun r => found (normalize (Object r)))
                               kept)
                 | None => Raise ReError
                 end) = Return rs).
    { destruct (str_eqb match_mode (u "exact")) eqn:Em;
        [eexists; reflexivity|].
      destruct Hpat as [Hm|Hre];
        [apply str_eqb_eq in Hm; congruence|].
      destruct (re_compile (normalize (Text object_query)));
        [eexists; reflexivity | congruence]. }
    destruct Hsel as [rs ->]. cbn [bind].
    rewrite (broker_names_text _ _ Htext). cbn [bind].
    eexists; reflexivity.
Qed.

Lemma find_brokers_outcome_witness :
  let row_of := fun b d => {| Broker := b; Date := d;
                              Object := Text (u "Soul"); Status := NA |} in
  let now := {| dt_day := 739000; dt_us := 0 |} in
  let bad_date :=
    {| columns := required;
       rows := [row_of (Text (u "Ivan")) Malformed] |} in
  let good :=
    {| columns := required;
       rows := [row_of (Text (u "Ivan")) (Dated 738999)] |} in
  let no_broker :=
    {| columns := required; rows := [row_of NA (Dated 738999)] |} in
  find_brokers (fun _ => None) bad_date now (u "Soul") 14 (u "exact") None
  = Raise StrptimeError /\
  find_brokers (fun _ => None) good now (u "Sou(l") 14 (u "contains") None
  = Raise ReError /\
  find_brokers (fun _ => None) no_broker now (u "Soul") 14 (u "exact") None
  = Raise AttributeError.
Proof.
  intros row_of now bad_date good no_broker.
  assert (Hcut : cutoff_in_range now 14)
    by (unfold cutoff_in_range, MAXORDINAL, now; cbn [dt_day]; lia).
  split; [|split].
  - apply (find_brokers_outcome (fun _ => None) bad_date now (u "Soul") 14
             (u "exact") None eq_refl).
    + exact Hcut.
    + eexists. split; [left; reflexivity | reflexivity].
  - apply (find_brokers_outcome (fun _ => None) good now (u "Sou(l") 14
             (u "contains") None eq_refl).
    + exact Hcut.
    + intros r [<-|[]]. discriminate.
    + intros [H|H]; [vm_compute in H; discriminate H|].
      apply H. reflexivity.
  - apply (find_brokers_outcome (fun _ => None) no_broker now (u "Soul") 14
             (u "exact") None eq_refl).
    + exact Hcut.
    + intros r [<-|[]]. discriminate.
    + left. reflexivity.
    + intros [H|(r & t & [<-|[]] & Hb)]; discriminate.
Defined.

(** X17: in exact mode [find_brokers] echoes its arguments and reports a
    broker exactly when some row dated at or after the cut-off has an
    object cell that normalizes like the query, passes the status filter,
    and holds that broker's name, stripped and non-empty, in its broker
    cell.  The object is compared after normalization, so case and spacing
    of the cell do not matter. *)
Theorem find_brokers_exact_members
    (re_compile : str -> option (str -> bool))
    (df : DataFrame) (now : datetime) (object_query : str) (days : Z)
    (exclude_status : option str) (res : brokers_result) :
  find_brokers re_compile df now object_query days (u "exact")
    exclude_status = Return res ->
  br_object res = object_query /\ br_days res = days /\
  br_match res = u "exact" /\
  forall b,
    In b (br_brokers res) <->
    b <> [] /\
    exists r d t,
      In r (rows df) /\ Date r = Dated d /\
      datetime_ge (midnight d) (cutoff_of now days) = true /\
      normalize (Object r) = normalize (Text object_query) /\
      status_kept df exclude_status r = true /\
      Broker r = Text t /\ strip t = b.
Proof.
  unfold find_brokers.
  destruct (missing_column df); [discriminate|].
  destruct (date_window now days (rows df)) as [kept|e] eqn:Ew;
    cbn [bind]; [|discriminate].
  rewrite str_eqb_refl. cbn [bind]. unfold broker_names.
  destruct (text_column (map Broker (rows df))); cbn [bind];
    [|discriminate].
  intros [= <-]. cbn [br_object br_days br_match br_brokers].
  repeat split; try reflexivity.
  - apply unique_brokers_In in H. exact (proj1 H).
  - apply unique_brokers_In in H. destruct H as (_ & r & t & Hin & Hb & Hs).
    assert (Hr : In r (filter (fun r => str_eqb (normalize (Object r))
                                          (normalize (Text object_query)))
                         kept) /\ status_kept df exclude_status r = true).
    { unfold status_kept. destruct exclude_status as [[|c st]|]; auto.
      destruct (mem (u "Статус") (columns df)); auto.
      apply filter_In in Hin. exact Hin. }
    destruct Hr as [Hr Hst]. apply filter_In in Hr. destruct Hr as [Hk Hn].
    apply str_eqb_eq in Hn.
    apply (date_window_In _ _ _ _ Ew) in Hk.
    destruct Hk as (Hrow & d & Hd & Hge).
    exists r, d, t. repeat split; assumption.
  - intros (Hne & r & d & t & Hrow & Hd & Hge & Hn & Hst & Hb & Hs).
    apply unique_brokers_In. split; [exact Hne|].
    exists r, t. repeat split; try assumption.
    assert (Hk : In r (filter (fun r => str_eqb (normalize (Object r))
                                          (normalize (Text object_query)))
                         kept)).
    { apply filter_In. split; [|apply str_eqb_eq; exact Hn].
      apply (date_window_In _ _ _ _ Ew). split; [exact Hrow|].
      exists d. auto. }
    unfold status_kept in Hst. destruct exclude_status as [[|c st]|]; auto.
    destruct (mem (u "Статус") (columns df)); auto.
    apply filter_In. auto.
Qed.

Lemma find_brokers_exact_members_witness :
  let df := {| columns := required;
               rows := [ {| Broker := Text (u " Ivan "); Date := Dated 738990;
                            Object := Text (u "SHAGAL");
                            Status := NA |} ] |} in
  let now := {| dt_day := 739000; dt_us := 0 |} in
  In (u "Ivan")
     (br_brokers {| br_object := u "shagal"; br_days := 14;
                    br_match := u "exact"; br_brokers := [u "Ivan"] |}) <->
  u "Ivan" <> [] /\
  exists r d t,
    In r (rows df) /\ Date r = Dated d /\
    datetime_ge (midnight d) (cutoff_of now 14) = true /\
    normalize (Object r) = normalize (Text (u "shagal")) /\
    status_kept df None r = true /\
    Broker r = Text t /\ strip t = u "Ivan".
Proof.
  intros df now.
  assert (E : find_brokers (fun _ => None) df now (u "shagal") 14
                (u "exact") None
              = Return {| br_object := u "shagal"; br_days := 14;
                          br_match := u "exact"; br_brokers := [u "Ivan"] |})
    by (vm_compute; reflexivity).
  destruct (find_brokers_exact_members _ _ _ _ _ _ _ E) as (_ & _ & _ & H).
  exact (H (u "Ivan")).
Defined.

(** X18: [search_brokers] reports a failed load as an error result and
    never raises for it.  With the data loaded it raises [OverflowError]
    when the cut-off leaves the range of dates, else the error of
    [strptime] when any row has a date cell it rejects.  Otherwise, when no
    row is left after the date filter, the result is the error "Нет данных
    за указанный период", whatever the query; when no object of the window
    matches, the result says so; and when one matches, a found result is
    returned if the broker column of the sheet holds text, and
    [AttributeError] is raised if all its cells are empty. *)
Theorem search_brokers_outcome (WRatio : str -> str -> score)
    (file : option DataFrame) (now : datetime) (query : str) :
  match load_data file with
  | inr error => search_brokers WRatio file now query = Return (Error error)
  | inl df =>
      (~ cutoff_in_range now DAYS ->
       search_brokers WRatio file now query = Raise OverflowError) /\
      (cutoff_in_range now DAYS ->
       (exists r, In r (rows df) /\ Date r = Malformed) ->
       search_brokers WRatio file now query = Raise StrptimeError) /\
      (date_window now DAYS (rows df) = Return [] ->
       search_brokers WRatio file now query
       = Return (Error (u "Нет данных за указанный период"))) /\
      (forall kept,
         date_window now DAYS (rows df) = Return kept -> kept <> [] ->
         match find_best_match WRatio query
                 (unique (dropna (map Object kept))) with
         | (Some (c :: o), s, exact) =>
             (brokers_are_text df ->
              exists r,
                search_brokers WRatio file now query = Return (Found r) /\
                f_object r = c :: o /\ f_score r = s /\
                f_exact r = exact) /\
             (~ brokers_are_text df ->
              search_brokers WRatio file now query = Raise AttributeError)
         | _ =>
             search_brokers WRatio file now query
             = Return (NotFound query DAYS)
         end) /\
      (cutoff_in_range now DAYS ->
       (forall r, In r (rows df) -> Date r <> Malformed) ->
       exists kept, date_window now DAYS (rows df) = Return kept)
  end.
Proof.
  unfold search_brokers.
  destruct (load_data file) as [df|error]; [|reflexivity].
  destruct (date_window_outcome now DAYS (rows df)) as (H1 & H2 & H3).
  split; [|split; [|split; [|split]]].
  - intros H. rewrite (H1 H). reflexivity.
  - intros H Hbad. rewrite (H2 H Hbad). reflexivity.
  - intros ->. reflexivity.
  - intros kept -> Hne. cbn [bind].
    destruct kept as [|x kept]; [congruence|].
    destruct (find_best_match WRatio query
                (unique (dropna (map Object (x :: kept)))))
      as [[[[|c o]|] s] exact]; try reflexivity.
    split.
    + intros Ht. rewrite (broker_names_text _ _ Ht). cbn [bind].
      eexists. split; [reflexivity|].
      cbn [f_object f_score f_exact]. auto.
    + intros Hno. rewrite (broker_names_no_text _ _ Hno). reflexivity.
  - exact H3.
Qed.

(** Use of X18: the only broker cell of the sheet is empty, the object
    matches, and the search raises. *)
Lemma search_brokers_outcome_witness :
  let now := {| dt_day := 739000; dt_us := 43200000000 |} in
  let x := {| Broker := NA; Date := Dated 738999;
              Object := Text (u "Shagal"); Status := NA |} in
  let df := {| columns := required; rows := [x] |} in
  ~ brokers_are_text df /\
  search_brokers ratio (Some df) now (u "shagal") = Raise AttributeError.
Proof.
  intros now x df.
  assert (Hno : ~ brokers_are_text df).
  { intros [H|(r & t & [<-|[]] & Hb)]; discriminate. }
  split; [exact Hno|].
  pose proof (search_brokers_outcome ratio (Some df) now (u "shagal")) as H.
  assert (El : load_data (Some df) = inl df) by reflexivity.
  rewrite El in H. destruct H as (_ & _ & _ & Hkept & _).
  specialize (Hkept [x] eq_refl).
  assert (Eb : find_best_match ratio (u "shagal")
                 (unique (dropna (map Object [x])))
               = (Some (83 :: u "hagal"), 100%Q, true))
    by (vm_compute; reflexivity).
  rewrite Eb in Hkept.
  destruct Hkept as [_ Hraise]; [discriminate|].
  exact (Hraise Hno).
Defined.

Lemma find_best_match_In (WRatio : str -> str -> score) (query : str)
    (objects : list str) (o : str) (s : score) (e : bool) :
  find_best_match WRatio query objects = (Some o, s, e) -> In o objects.
Proof.
  destruct objects as [|o0 objects'] eqn:Eobj; [discriminate|].
  rewrite <- Eobj.
  rewrite find_best_match_unfold by (rewrite Eobj; discriminate).
  destruct (cascade (table_of objects) (apply_aliases query))
    as [[o1 s1]|] eqn:Ec.
  - intros [= <- _ _]. exact (proj1 (cascade_some _ _ _ _ Ec)).
  - destruct (fuzzy_tier_cases WRatio objects (apply_aliases query))
      as [->|(o2 & s2 & v & -> & Ho & _)]; [discriminate|].
    intros [= <- _]. exact Ho.
Qed.

Lemma search_brokers_found_fields (WRatio : str -> str -> score)
    (file : option DataFrame) (now : datetime) (query : str) (r : found) :
  search_brokers WRatio file now query = Return (Found r) ->
  exists df kept,
    load_data file = inl df /\
    date_window now DAYS (rows df) = Return kept /\
    find_best_match WRatio query (unique (dropna (map Object kept)))
    = (Some (f_object r), f_score r, f_exact r) /\
    f_object r <> [] /\ f_query r = query /\ f_days r = DAYS /\
    f_brokers r =
      unique_brokers
        (filter (fun x => isin (Object x) (get_synonyms (f_object r)))
           kept) /\
    f_objects r =
      unique (dropna (map Object
        (filter (fun x => isin (Object x) (get_synonyms (f_object r)))
           kept))).
Proof.
  unfold search_brokers.
  destruct (load_data file) as [df|err] eqn:El; [|discriminate].
  destruct (date_window now DAYS (rows df)) as [[|x kept]|e] eqn:Ew;
    cbn [bind]; try discriminate.
  destruct (find_best_match WRatio query
              (unique (dropna (map Object (x :: kept)))))
    as [[[[|c o]|] s] exact] eqn:E; try discriminate.
  unfold broker_names.
  destruct (text_column (map Broker (rows df))); cbn [bind];
    [|discriminate].
  intros [= <-]. exists df, (x :: kept).
  cbn [f_query f_object f_objects f_days f_brokers f_score f_exact].
  split; [reflexivity|]. split; [exact Ew|]. split; [exact E|].
  split; [discriminate|]. repeat split; reflexivity.
Qed.

(** X19: a found result echoes the query and the period of 60 days; its
    object is a non-empty name that occurs, verbatim, in the object cell of
    a row of the date window; every broker it lists comes from a row of the
    window whose object cell is one of the synonyms of that object; and
    every listed object is such a synonym present in the window. *)
Theorem search_brokers_found_sound (WRatio : str -> str -> score)
    (file : option DataFrame) (now : datetime) (query : str) (r : found) :
  search_brokers WRatio file now query = Return (Found r) ->
  f_query r = query /\ f_days r = 60%Z /\ f_object r <> [] /\
  exists df kept,
    load_data file = inl df /\
    date_window now DAYS (rows df) = Return kept /\
    (exists x, In x kept /\ Object x = Text (f_object r)) /\
    (forall b, In b (f_brokers r) ->
       b <> [] /\
       exists x t, In x kept /\
         isin (Object x) (get_synonyms (f_object r)) = true /\
         Broker x = Text t /\ strip t = b) /\
    (forall o, In o (f_objects r) ->
       In o (get_synonyms (f_object r)) /\
       exists x, In x kept /\ Object x = Text o).
Proof.
  intros H.
  destruct (search_brokers_found_fields _ _ _ _ _ H)
    as (df & kept & Hl & Hw & E & Hne & Hq & Hd & Hb & Ho).
  split; [exact Hq|]. split; [exact Hd|]. split; [exact Hne|].
  exists df, kept. split; [exact Hl|]. split; [exact Hw|].
  split; [|split].
  - apply find_best_match_In, unique_In, dropna_In, in_map_iff in E.
    destruct E as (x & Hx & Hin). exists x. auto.
  - intros b Hin. rewrite Hb in Hin. apply unique_brokers_In in Hin.
    destruct Hin as (Hnb & x & t & Hin & Hbr & Hs). split; [exact Hnb|].
    apply filter_In in Hin. destruct Hin as [Hin Hsyn].
    exists x, t. auto.
  - intros o Hin. rewrite Ho in Hin.
    apply unique_In, dropna_In, in_map_iff in Hin.
    destruct Hin as (x & Hx & Hin). apply filter_In in Hin.
    destruct Hin as [Hin Hsyn]. rewrite Hx in Hsyn. cbn [isin] in Hsyn.
    apply mem_In in Hsyn. split; [exact Hsyn|]. exists x. auto.
Qed.

Lemma search_brokers_found_sound_witness :
  let now := {| dt_day := 739000; dt_us := 43200000000 |} in
  let file := Some {| columns := required;
                      rows := [ {| Broker := Text (u " Ivan ");
                                   Date := Dated 738999;
                                   Object := Text (u "Shagal");
                                   Status := NA |} ] |} in
  search_brokers ratio file now (u "шагал")
  = Return (Found {| f_query := u "шагал"; f_object := u "Shagal";
                     f_objects := [u "Shagal"]; f_days := 60;
                     f_brokers := [u "Ivan"]; f_score := 100%Q;
                     f_exact := true |}) /\
  u "Shagal" <> [].
Proof.
  intros now file.
  assert (E : search_brokers ratio file now (u "шагал")
              = Return (Found {| f_query := u "шагал";
                                 f_object := u "Shagal";
                                 f_objects := [u "Shagal"]; f_days := 60;
                                 f_brokers := [u "Ivan"];
                                 f_score := 100%Q; f_exact := true |}))
    by (vm_compute; reflexivity).
  split; [exact E|].
  exact (proj1 (proj2 (proj2 (search_brokers_found_sound _ _ _ _ _ E)))).
Defined.

(** ** The message handler *)

(** X20: the replies of the handler come from one search only.  A message
    that is no district request is answered by the object search: no
    message of the district search is sent, and a broker list is sent only
    for an exact match: the search of the stripped message returned a found
    result with exact = true, and the list, the period and the header sent
    are those of that result.  A district request is answered with the
    messages of [handle_district_search] and with nothing else; these list
    the brokers of every matching object, and no exact flag guards
    them. *)
Theorem handle_message_brokers_only_exact (WRatio : str -> str -> score)
    (file : option DataFrame) (districts_data : list (str * district_info))
    (now : datetime) (text : str) (replies : list reply) :
  handle_message WRatio file districts_data now text = Return replies ->
  (district_request (strip text) = [] ->
   (forall message, ~ In (DistrictReply message) replies) /\
   (forall header days brokers,
      In (ReplyBrokers header days brokers) replies ->
      exists r,
        search_brokers WRatio file now (strip text) = Return (Found r) /\
        f_exact r = true /\ brokers = f_brokers r /\ days = f_days r /\
        header = (if (1 <? length (f_objects r))%nat then f_objects r
                  else [f_object r]))) /\
  (district_request (strip text) <> [] ->
   exists messages,
     handle_district_search WRatio file districts_data now
       (district_request (strip text)) = Return messages /\
     replies = map DistrictReply messages).
Proof.
  unfold handle_message.
  destruct (strip text) as [|c q] eqn:Eq.
  { intros [= <-]. split; [|intros H; contradiction H; reflexivity].
    intros _. split; [intros m [] | intros h d b []]. }
  destruct (district_request (c :: q)) as [|c' d] eqn:Ed.
  - intros H. split; [|intros Hd; contradiction Hd; reflexivity].
    intros _. revert H.
    destruct (search_brokers WRatio file now (c :: q)) as [res|e];
      cbn [bind]; [|discriminate].
    destruct res as [err|q' d'|r].
    + intros [= <-]. split.
      * intros m [H|[]]. discriminate.
      * intros h d b [H|[]]. discriminate.
    + intros [= <-]. split.
      * intros m [H|[]]. discriminate.
      * intros h d b [H|[]]. discriminate.
    + destruct (f_exact r) eqn:Ee; cbn [negb].
      * intros [= <-]. split.
        -- intros m [H|[]]. discriminate.
        -- intros h d b [H|[]]. injection H as <- <- <-.
           exists r. auto.
      * intros [= <-]. split.
        -- intros m [H|[]]. discriminate.
        -- intros h d b [H|[]]. discriminate.
  - intros H. split; [discriminate|]. intros _.
    destruct (handle_district_search WRatio file districts_data now
                (c' :: d)) as [messages|e]; cbn [bind] in H;
      [|discriminate].
    injection H as <-. exists messages. auto.
Qed.

Lemma handle_message_brokers_only_exact_witness :
  let now := {| dt_day := 739000; dt_us := 43200000000 |} in
  let file := Some {| columns := required;
                      rows := [ {| Broker := Text (u "Ivan");
                                   Date := Dated 738999;
                                   Object := Text (u "Shagal");
                                   Status := NA |} ] |} in
  handle_message ratio file [] now (u "шагал")
  = Return [ReplyBrokers [u "Shagal"] 60 [u "Ivan"]] /\
  district_request (strip (u "шагал")) = [] /\
  exists r,
    search_brokers ratio file now (strip (u "шагал")) = Return (Found r) /\
    f_exact r = true /\ [u "Ivan"] = f_brokers r /\ 60%Z = f_days r /\
    [u "Shagal"] = (if (1 <? length (f_objects r))%nat then f_objects r
                    else [f_object r]).
Proof.
  intros now file.
  assert (E : handle_message ratio file [] now (u "шагал")
              = Return [ReplyBrokers [u "Shagal"] 60 [u "Ivan"]])
    by (vm_compute; reflexivity).
  assert (Ed : district_request (strip (u "шагал")) = [])
    by (vm_compute; reflexivity).
  split; [exact E|]. split; [exact Ed|].
  destruct (handle_message_brokers_only_exact ratio file [] now (u "шагал")
              _ E) as [Hobject _].
  destruct (Hobject Ed) as [_ Hbrokers].
  apply Hbrokers. left; reflexivity.
Defined.

Lemma lstrip_all_space (s : str) :
  Forall (fun c => isspace c = true) s -> lstrip s = [].
Proof.
  induction 1 as [|c s Hc _ IH]; [reflexivity|].
  cbn [lstrip]. rewrite Hc. exact IH.
Qed.

(** X21: a message made of white space only is dropped: the handler sends
    nothing and does not look at the data. *)
Theorem handle_message_blank (WRatio : str -> str -> score)
    (file : option DataFrame) (districts_data : list (str * district_info))
    (now : datetime) (text : str) :
  Forall (fun c => isspace c = true) text ->
  handle_message WRatio file districts_data now text = Return [].
Proof.
  intros H. unfold handle_message, strip.
  rewrite (lstrip_all_space _ H). reflexivity.
Qed.

Lemma handle_message_blank_witness :
  Forall (fun c => isspace c = true) (u "   ") /\
  handle_message ratio None [] {| dt_day := 1; dt_us := 0 |} (u "   ")
  = Return [].
Proof.
  assert (H : Forall (fun c => isspace c = true) (u "   "))
    by (repeat constructor).
  split; [exact H|]. exact (handle_message_blank ratio None [] _ _ H).
Defined.

Lemma startswith_app (p s : str) : startswith (p ++ s) p = true.
Proof.
  induction p as [|c p IH]; [reflexivity|].
  cbn [app startswith]. rewrite N.eqb_refl. exact IH.
Qed.

Lemma skipn_app_length {A : Type} (p s : list A) :
  skipn (length p) (p ++ s) = s.
Proof. induction p; [reflexivity | assumption]. Qed.

(** X22: a message that is the word "район" in any case, a space, and a
    name that neither starts with a colon nor carries outer white space is
    routed to the district search with exactly that name: the messages
    sent are those of [handle_district_search] for the name, and the object
    search is not run. *)
Theorem handle_message_district (WRatio : str -> str -> score)
    (file : option DataFrame) (districts_data : list (str * district_info))
    (now : datetime) (word : str) (c : char) (name : str) :
  lower word = u "район " ->
  isspace c = false -> c <> 58 -> clean_head (rev (c :: name)) ->
  handle_message WRatio file districts_data now (word ++ c :: name)
  = (messages <- handle_district_search WRatio file districts_data now
                   (c :: name) ;;
     Return (map DistrictReply messages)).
Proof.
  intros Hword Hc Hcolon Hlast.
  assert (Hlen : length word = 6%nat).
  { apply (f_equal (@length char)) in Hword. unfold lower in Hword.
    rewrite length_map in Hword. exact Hword. }
  destruct word as [|w word]; [discriminate|].
  assert (Hw : isspace w = false).
  { rewrite <- isspace_to_lower. injection Hword as -> _. reflexivity. }
  assert (Htrim : trimmed ((w :: word) ++ c :: name)).
  { split; [exact Hw|]. rewrite rev_app_distr.
    destruct (rev (c :: name)) as [|l t] eqn:Er; [|exact Hlast].
    apply (f_equal (@length char)) in Er. rewrite length_rev in Er.
    discriminate. }
  unfold handle_message. rewrite (strip_trimmed _ Htrim).
  cbn [app]. change (w :: word ++ c :: name) with ((w :: word) ++ c :: name).
  assert (Hreq : district_request ((w :: word) ++ c :: name) = c :: name).
  { unfold district_request, lower. rewrite map_app.
    fold (lower (w :: word)). rewrite Hword, startswith_app. cbn [orb].
    rewrite <- Hlen, skipn_app_length.
    rewrite strip_trimmed by (split; [exact Hc | exact Hlast]).
    change (u ":") with [58]. cbn [lstrip_chars existsb].
    destruct (N.eqb_spec c 58) as [E|_]; [contradiction | reflexivity]. }
  rewrite Hreq. reflexivity.
Qed.

(** Use of X22: the district "Hamovniki" of the sample reference has one
    object with showings; the request is answered with the message of the
    district search, which lists both brokers of "Soul". *)
Lemma handle_message_district_witness :
  let file := Some {| columns := required;
                      rows := [sample_row (u " Ivan ") 738999 (u "SOUL");
                               sample_row (u "Anna") 738999 (u "Soul")] |} in
  handle_message ratio file sample_reference sample_noon
    (u "Район Hamovniki")
  = Return [DistrictReply
              (found_response (Text (u "Hamovniki")) (Text (u "Moscow")) 60
                 [(u "Soul", [u "Anna"; u "Ivan"])] 2)].
Proof.
  intros file.
  refine (eq_trans
            (handle_message_district ratio file sample_reference sample_noon
               (u "Район ") 72 (u "amovniki") _ _ _ _) _).
  - vm_compute. reflexivity.
  - reflexivity.
  - discriminate.
  - vm_compute. reflexivity.
  - vm_compute. reflexivity.
Defined.

(** ** District lookup: loose matches *)

(** X23: the containment test of the district lookup is loose at the
    empty string: a query that normalizes to the empty string returns every
    record of the reference, in order, and a record whose district is
    missing or blank is returned for every query. *)
Theorem get_objects_by_district_loose
    (districts_data : list (str * district_info)) (district_query : str) :
  (normalize (Text district_query) = [] ->
   get_objects_by_district districts_data district_query
   = map (fun item => district_entry (fst item) (snd item)) districts_data)
  /\
  (forall obj info,
     In (obj, info) districts_data -> normalize (district info) = [] ->
     In (district_entry obj info)
        (get_objects_by_district districts_data district_query)).
Proof.
  unfold get_objects_by_district. rewrite district_loop. cbn [app]. split.
  - intros Hq. rewrite Hq. f_equal.
    induction districts_data as [|item data IH]; [reflexivity|].
    cbn [filter]. unfold district_matches at 1. rewrite contains_nil.
    cbn [orb]. f_equal. exact IH.
  - intros obj info Hin Hd. apply in_map_iff. exists (obj, info).
    split; [reflexivity|]. apply filter_In. split; [exact Hin|].
    cbn [snd]. unfold district_matches. rewrite Hd, contains_nil.
    rewrite orb_true_r. reflexivity.
Qed.

(** ** Search by district *)

Lemma set_add_In (x : str) (s : list str) (y : str) :
  In y (set_add x s) <-> y = x \/ In y s.
Proof.
  unfold set_add. destruct (mem x s) eqn:E.
  - apply mem_In in E. split; [auto|]. intros [->|H]; assumption.
  - rewrite in_app_iff. cbn [In]. split.
    + intros [H|[<-|[]]]; auto.
    + intros [->|H]; auto.
Qed.

Lemma set_add_NoDup (x : str) (s : list str) :
  NoDup s -> NoDup (set_add x s).
Proof.
  intros H. unfold set_add. destruct (mem x s) eqn:E; [assumption|].
  apply mem_not_In in E.
  apply NoDup_rev in H. rewrite <- (rev_involutive (s ++ [x])).
  apply NoDup_rev. rewrite rev_app_distr. cbn [rev app].
  constructor; [rewrite <- in_rev; assumption | assumption].
Qed.

Lemma all_districts_step_In (set : list str) (item : str * district_info)
    (s : str) :
  In s (all_districts_step set item) <->
  In s set \/
  exists d c, district (snd item) = Text d /\ city (snd item) = Text c /\
              d <> [] /\ c <> [] /\ s = district_label d c.
Proof.
  unfold all_districts_step.
  destruct (district (snd item)) as [|[|d ds]];
    try (split; [auto|]; intros [H|(d' & c' & Hd & Hc & Hnd & Hnc & _)];
         [exact H | congruence]).
  destruct (city (snd item)) as [|[|c cs]];
    try (split; [auto|]; intros [H|(d' & c' & Hd & Hc & Hnd & Hnc & _)];
         [exact H | congruence]).
  rewrite set_add_In. split.
  - intros [->|H]; [|auto]. right. exists (d :: ds), (c :: cs).
    repeat split; discriminate.
  - intros [H|(d' & c' & [= <-] & [= <-] & _ & _ & ->)]; auto.
Qed.

Lemma all_districts_loop_In (data : list (str * district_info))
    (set : list str) (s : str) :
  In s (fold_left all_districts_step data set) <->
  In s set \/
  exists obj info d c,
    In (obj, info) data /\ district info = Text d /\ city info = Text c /\
    d <> [] /\ c <> [] /\ s = district_label d c.
Proof.
  revert set. induction data as [|item data IH]; intros set; cbn [fold_left].
  - split; [auto|]. intros [H|(? & ? & ? & ? & [] & _)]. exact H.
  - rewrite IH, all_districts_step_In. split.
    + intros [[H|(d & c & H)]|(obj & info & d & c & Hin & H)].
      * auto.
      * right. exists (fst item), (snd item), d, c.
        split; [left; destruct item; reflexivity | exact H].
      * right. exists obj, info, d, c. split; [right; exact Hin | exact H].
    + intros [H|(obj & info & d & c & [E|Hin] & H)].
      * auto.
      * left; right. subst item. exists d, c. exact H.
      * right. exists obj, info, d, c. auto.
Qed.

Lemma all_districts_loop_NoDup (data : list (str * district_info))
    (set : list str) :
  NoDup set -> NoDup (fold_left all_districts_step data set).
Proof.
  revert set. induction data as [|item data IH]; intros set H;
    cbn [fold_left]; [exact H|].
  apply IH. unfold all_districts_step.
  destruct (district (snd item)) as [|[|d ds]]; try exact H.
  destruct (city (snd item)) as [|[|c cs]]; try exact H.
  apply set_add_NoDup, H.
Qed.

(** X24: [get_all_districts] lists, in ascending order and without
    repetition, exactly the labels "district (city)" of the reference
    records that have both a non-empty district and a non-empty city. *)
Theorem get_all_districts_labels
    (districts_data : list (str * district_info)) :
  StronglySorted str_le (get_all_districts districts_data) /\
  NoDup (get_all_districts districts_data) /\
  forall s,
    In s (get_all_districts districts_data) <->
    exists obj info d c,
      In (obj, info) districts_data /\
      district info = Text d /\ city info = Text c /\
      d <> [] /\ c <> [] /\ s = d ++ u " (" ++ c ++ u ")".
Proof.
  unfold get_all_districts. split; [apply sorted_sorted|]. split.
  - apply sorted_NoDup, all_districts_loop_NoDup. constructor.
  - intros s. rewrite sorted_In, all_districts_loop_In. cbn [In].
    unfold district_label. tauto.
Qed.

(** X25: [search_by_district] meets the same failures as the search by
    object and consults the reference only after them: a failed load and an
    empty date window are reported as error results, an unreachable cut-off
    raises [OverflowError] and a malformed date raises the error of
    [strptime], whatever the district query and the reference hold. *)
Theorem search_by_district_outcome (WRatio : str -> str -> score)
    (file : option DataFrame) (districts_data : list (str * district_info))
    (now : datetime) (district_query : str) :
  match load_data file with
  | inr error =>
      search_by_district WRatio file districts_data now district_query
      = Return (DistrictError error)
  | inl df =>
      (~ cutoff_in_range now DAYS ->
       search_by_district WRatio file districts_data now district_query
       = Raise OverflowError) /\
      (cutoff_in_range now DAYS ->
       (exists r, In r (rows df) /\ Date r = Malformed) ->
       search_by_district WRatio file districts_data now district_query
       = Raise StrptimeError) /\
      (date_window now DAYS (rows df) = Return [] ->
       search_by_district WRatio file districts_data now district_query
       = Return (DistrictError (u "Нет данных за указанный период")))
  end.
Proof.
  unfold search_by_district.
  destruct (load_data file) as [df|error]; [|reflexivity].
  destruct (date_window_outcome now DAYS (rows df)) as (H1 & H2 & _).
  split; [|split].
  - intros H. rewrite (H1 H). reflexivity.
  - intros H Hbad. rewrite (H2 H Hbad). reflexivity.
  - intros ->. reflexivity.
Qed.

(** *** Dictionaries *)

Lemma str_eqb_sym (a b : str) : str_eqb a b = str_eqb b a.
Proof.
  destruct (str_eqb a b) eqn:E.
  - apply str_eqb_eq in E. subst. symmetry. apply str_eqb_refl.
  - apply str_eqb_neq in E. symmetry. apply str_eqb_neq. congruence.
Qed.

Lemma assoc_get_set_same {V : Type} (d : list (str * V)) (k : str) (v : V) :
  assoc_get (assoc_set d k v) k = Some v.
Proof.
  induction d as [|[k' v'] d IH]; cbn [assoc_set assoc_get].
  - rewrite str_eqb_refl. reflexivity.
  - destruct (str_eqb k k') eqn:E; cbn [assoc_get]; rewrite E;
      [reflexivity | exact IH].
Qed.

Lemma assoc_get_set_other {V : Type} (d : list (str * V)) (k k0 : str)
    (v : V) :
  k0 <> k -> assoc_get (assoc_set d k v) k0 = assoc_get d k0.
Proof.
  intros Hne. induction d as [|[k' v'] d IH]; cbn [assoc_set assoc_get].
  - apply str_eqb_neq in Hne. rewrite Hne. reflexivity.
  - destruct (str_eqb k k') eqn:E; cbn [assoc_get].
    + apply str_eqb_eq in E. subst k'.
      apply str_eqb_neq in Hne. rewrite Hne. reflexivity.
    + rewrite IH. reflexivity.
Qed.

Lemma assoc_get_keys {V : Type} (d : list (str * V)) (k : str) :
  In k (map fst d) <-> exists v, assoc_get d k = Some v.
Proof.
  induction d as [|[k' v'] d IH]; cbn [map fst In assoc_get].
  - split; [intros [] | intros [v [=]]].
  - destruct (str_eqb k k') eqn:E.
    + apply str_eqb_eq in E. split; [eauto | auto].
    + apply str_eqb_neq in E. rewrite IH. split; [|auto].
      intros [H|H]; [congruence | exact H].
Qed.

Lemma assoc_set_keys {V : Type} (d : list (str * V)) (k : str) (v : V)
    (k0 : str) :
  In k0 (map fst (assoc_set d k v)) <-> k0 = k \/ In k0 (map fst d).
Proof.
  rewrite !assoc_get_keys. split.
  - intros [v0 H]. destruct (list_eq_dec N.eq_dec k0 k) as [->|Hne]; [auto|].
    rewrite assoc_get_set_other in H by exact Hne. eauto.
  - intros [->|[v0 H]].
    + exists v. apply assoc_get_set_same.
    + destruct (list_eq_dec N.eq_dec k0 k) as [->|Hne].
      * exists v. apply assoc_get_set_same.
      * exists v0. rewrite assoc_get_set_other by exact Hne. exact H.
Qed.

Lemma assoc_set_NoDup {V : Type} (d : list (str * V)) (k : str) (v : V) :
  NoDup (map fst d) -> NoDup (map fst (assoc_set d k v)).
Proof.
  induction d as [|[k' v'] d IH]; intros H; cbn [assoc_set map fst].
  - constructor; [intros [] | constructor].
  - inversion H as [|? ? Hk Hd]; subst.
    destruct (str_eqb k k') eqn:E; cbn [map fst]; [exact H|].
    constructor; [|apply IH; exact Hd].
    rewrite assoc_set_keys. intros [->|Hin]; [|contradiction].
    rewrite str_eqb_refl in E. discriminate.
Qed.

Lemma In_assoc_get {V : Type} (d : list (str * V)) (k : str) (v : V) :
  NoDup (map fst d) -> In (k, v) d -> assoc_get d k = Some v.
Proof.
  induction d as [|[k' v'] d IH]; intros Hnd Hin; [destruct Hin|].
  cbn [map fst] in Hnd. inversion Hnd as [|? ? Hk Hd]; subst.
  cbn [assoc_get]. destruct Hin as [[= -> ->]|Hin].
  - rewrite str_eqb_refl. reflexivity.
  - destruct (str_eqb k k') eqn:E; [|apply IH; assumption].
    apply str_eqb_eq in E. subst k'. exfalso. apply Hk.
    apply (in_map fst) in Hin. exact Hin.
Qed.

(** The dictionary of normalized names: every key is the normal form of
    its value, a name of the list; every name of the list has its key. *)
Lemma objects_norm_of_sound (names : list str) :
  (forall key name,
     assoc_get (objects_norm_of names) key = Some name ->
     In name names /\ normalize (Text name) = key) /\
  (forall name, In name names ->
     In (normalize (Text name)) (map fst (objects_norm_of names))).
Proof.
  unfold objects_norm_of.
  assert (H : forall rest seen d,
    (forall key name, assoc_get d key = Some name ->
       In name seen /\ normalize (Text name) = key) ->
    (forall name, In name seen -> In (normalize (Text name)) (map fst d)) ->
    let d' := fold_left
                (fun d name => assoc_set d (normalize (Text name)) name)
                rest d in
    (forall key name, assoc_get d' key = Some name ->
       In name (seen ++ rest) /\ normalize (Text name) = key) /\
    (forall name, In name (seen ++ rest) ->
       In (normalize (Text name)) (map fst d'))).
  { induction rest as [|n rest IH]; intros seen d H1 H2.
    - cbn [fold_left]. rewrite app_nil_r. auto.
    - cbn [fold_left].
      replace (seen ++ n :: rest) with ((seen ++ [n]) ++ rest)
        by (rewrite <- app_assoc; reflexivity).
      apply IH.
      + intros key name Hget.
        destruct (list_eq_dec N.eq_dec key (normalize (Text n)))
          as [->|Hne].
        * rewrite assoc_get_set_same in Hget. injection Hget as <-.
          split; [apply in_app_iff; right; left; reflexivity | reflexivity].
        * rewrite assoc_get_set_other in Hget by exact Hne.
          destruct (H1 key name Hget). split; [|assumption].
          apply in_app_iff. auto.
      + intros name Hin. rewrite assoc_set_keys.
        apply in_app_iff in Hin. destruct Hin as [Hin|[<-|[]]]; auto. }
  apply (H names [] []).
  - intros ? ? [=].
  - intros ? [].
Qed.

Lemma assoc_get_In {V : Type} (d : list (str * V)) (k : str) (v : V) :
  assoc_get d k = Some v -> In (k, v) d.
Proof.
  induction d as [|[k' v'] d IH]; cbn [assoc_get]; [discriminate|].
  destruct (str_eqb k k') eqn:E.
  - apply str_eqb_eq in E. intros [= ->]. left. congruence.
  - intros H. right. apply IH. exact H.
Qed.

(** *** The grouping loop *)

Lemma by_object_step_eq (on : list (str * str))
    (res : list (str * list str)) (r : row) :
  by_object_step on res r =
  match broker_of r with
  | [] => res
  | c :: b =>
      assoc_set res (name_of on r)
        (set_add (c :: b)
           match assoc_get res (name_of on r) with
           | Some s => s
           | None => []
           end)
  end.
Proof. unfold by_object_step, name_of. destruct (broker_of r); reflexivity. Qed.

Lemma grouped_step (on : list (str * str)) (res : list (str * list str))
    (seen : list row) (r : row) :
  grouped on res seen ->
  grouped on (by_object_step on res r) (seen ++ [r]).
Proof.
  intros (Hnd & Hsets & Hkeys). rewrite by_object_step_eq.
  destruct (broker_of r) as [|c b] eqn:Eb.
  - split; [exact Hnd|]. split.
    + intros k s Hget. destruct (Hsets k s Hget) as (H1 & H2 & H3).
      split; [exact H1|]. split; [exact H2|]. intros b'. rewrite H3. split.
      * intros (r' & Hin & H). exists r'. split; [|exact H].
        apply in_app_iff. auto.
      * intros (r' & Hin & Hn & Hb & Hne). apply in_app_iff in Hin.
        destruct Hin as [Hin|[<-|[]]]; [eauto|]. congruence.
    + intros r' Hin Hne. apply in_app_iff in Hin.
      destruct Hin as [Hin|[<-|[]]]; [auto | contradiction].
  - set (k := name_of on r).
    set (old := match assoc_get res k with Some s => s | None => [] end).
    assert (Hold : NoDup old /\
              forall b', In b' old <->
                exists r', In r' seen /\ name_of on r' = k /\
                           broker_of r' = b' /\ b' <> []).
    { unfold old. destruct (assoc_get res k) as [s|] eqn:Eg.
      - destruct (Hsets k s Eg) as (_ & H2 & H3). auto.
      - split; [constructor|]. intros b'. split; [intros []|].
        intros (r' & Hin & Hn & Hb & Hne).
        destruct (Hkeys r' Hin) as [s Hs]; [congruence|].
        rewrite Hn in Hs. congruence. }
    destruct Hold as [Hold1 Hold2].
    split; [apply assoc_set_NoDup; exact Hnd|]. split.
    + intros k0 s Hget.
      destruct (list_eq_dec N.eq_dec k0 k) as [->|Hne].
      * rewrite assoc_get_set_same in Hget. injection Hget as <-.
        split.
        { intros E. assert (Hin : In (c :: b) (set_add (c :: b) old))
            by (apply set_add_In; auto).
          rewrite E in Hin. destruct Hin. }
        split; [apply set_add_NoDup; exact Hold1|].
        intros b'. rewrite set_add_In, Hold2. split.
        -- intros [->|(r' & Hin & H)].
           ++ exists r. split; [apply in_app_iff; right; left; reflexivity|].
              repeat split; [exact Eb | discriminate].
           ++ exists r'. split; [apply in_app_iff; auto | exact H].
        -- intros (r' & Hin & Hn & Hb & Hnb). apply in_app_iff in Hin.
           destruct Hin as [Hin|[<-|[]]]; [right; eauto|].
           left. congruence.
      * rewrite assoc_get_set_other in Hget by exact Hne.
        destruct (Hsets k0 s Hget) as (H1 & H2 & H3).
        split; [exact H1|]. split; [exact H2|]. intros b'. rewrite H3.
        split.
        -- intros (r' & Hin & H). exists r'. split; [|exact H].
           apply in_app_iff. auto.
        -- intros (r' & Hin & Hn & Hb & Hnb). apply in_app_iff in Hin.
           destruct Hin as [Hin|[<-|[]]]; [eauto|].
           exfalso. apply Hne. symmetry. exact Hn.
    + intros r' Hin Hnb. apply assoc_get_keys, assoc_set_keys.
      apply in_app_iff in Hin. destruct Hin as [Hin|[<-|[]]].
      * right. apply assoc_get_keys. exact (Hkeys r' Hin Hnb).
      * left. reflexivity.
Qed.

Lemma grouped_loop (on : list (str * str)) (rs : list row) :
  forall (seen : list row) (res : list (str * list str)),
    grouped on res seen ->
    grouped on (fold_left (by_object_step on) rs res) (seen ++ rs).
Proof.
  induction rs as [|r rs IH]; intros seen res H; cbn [fold_left].
  - rewrite app_nil_r. exact H.
  - replace (seen ++ r :: rs) with ((seen ++ [r]) ++ rs)
      by (rewrite <- app_assoc; reflexivity).
    apply IH, grouped_step, H.
Qed.

Lemma grouped_start (on : list (str * str)) : grouped on [] [].
Proof.
  split; [constructor|]. split.
  - intros ? ? [=].
  - intros ? [].
Qed.

(** *** The results of [search_by_district] *)

Section DistrictFacts.

Variable WRatio : str -> str -> score.

(** X26: when no reference record matches the query, the answer is "not
    found" for that query and 60 days.  A suggestion given is one of the
    labels of [get_all_districts] whose normal form scores at least 70
    against the normalized query; no suggestion means that every label
    scores below 70. *)
Theorem search_by_district_suggestion (file : option DataFrame)
    (districts_data : list (str * district_info)) (now : datetime)
    (district_query query : str) (suggestion : option str) (days : Z) :
  search_by_district WRatio file districts_data now district_query
  = Return (DistrictNotFound query suggestion days) ->
  query = district_query /\ days = 60%Z /\
  get_objects_by_district districts_data district_query = [] /\
  (forall s, suggestion = Some s ->
     In s (get_all_districts districts_data) /\
     (70 <= WRatio (normalize (Text district_query))
                   (normalize (Text s)))%Q) /\
  (suggestion = None ->
   forall d, In d (get_all_districts districts_data) ->
     (WRatio (normalize (Text district_query)) (normalize (Text d)) < 70)%Q).
Proof.
  unfold search_by_district.
  destruct (load_data file) as [df|err]; [|discriminate].
  destruct (date_window now DAYS (rows df)) as [[|x kept]|e];
    cbn [bind]; try discriminate.
  destruct (get_objects_by_district districts_data district_query)
    as [|first rest].
  2: { destruct (filter _ (x :: kept)); discriminate. }
  set (all := get_all_districts districts_data).
  set (qn := normalize (Text district_query)).
  pose proof (extractOne_sound WRatio qn
                (map (fun d => normalize (Text d)) all) 70%Q) as Hsound.
  pose proof (extractOne_best WRatio qn
                (map (fun d => normalize (Text d)) all) 70%Q) as Hbest.
  destruct (extractOne WRatio qn (map (fun d => normalize (Text d)) all)
              70%Q) as [[[c s] idx]|].
  - destruct (Hsound c s idx eq_refl) as (Hcut & Hs & Hnth).
    rewrite nth_error_map in Hnth.
    destruct (nth_error all idx) as [d|] eqn:En; [|discriminate].
    injection Hnth as Hc. change (normalize (Text d) = c) in Hc.
    intros [= <- <- <-].
    split; [reflexivity|]. split; [reflexivity|]. split; [reflexivity|].
    split; [|discriminate].
    intros s0 [= <-]. split.
    + eapply nth_error_In; eassumption.
    + rewrite Hc, <- Hs. apply Qle_bool_iff. exact Hcut.
  - intros [= <- <- <-].
    split; [reflexivity|]. split; [reflexivity|]. split; [reflexivity|].
    split; [discriminate|].
    intros _ d Hd. apply Qnot_le_lt. intros Hge.
    destruct (Hbest (normalize (Text d))) as (c' & s' & j' & [=] & _);
      [|exact Hge].
    apply (in_map (fun d => normalize (Text d))). exact Hd.
Qed.

Lemma search_by_district_found_fields (file : option DataFrame)
    (districts_data : list (str * district_info)) (now : datetime)
    (district_query query : str) (d c : value) (days : Z)
    (by_object : list (str * list str)) (total : nat) :
  search_by_district WRatio file districts_data now district_query
  = Return (DistrictFound query d c days by_object total) ->
  exists df kept first rest,
    load_data file = inl df /\
    date_window now DAYS (rows df) = Return kept /\
    get_objects_by_district districts_data district_query = first :: rest /\
    query = district_query /\ days = DAYS /\
    d = do_district first /\ c = do_city first /\
    by_object =
      map (fun kv => (fst kv, sorted (snd kv)))
        (fold_left
           (by_object_step (objects_norm_of (map do_object (first :: rest))))
           (filter (fun r => mem (normalize (Object r))
                               (map fst (objects_norm_of
                                           (map do_object (first :: rest)))))
              kept)
           []).
Proof.
  unfold search_by_district.
  destruct (load_data file) as [df|err] eqn:El; [|discriminate].
  destruct (date_window now DAYS (rows df)) as [[|x kept]|e] eqn:Ew;
    cbn [bind]; try discriminate.
  destruct (get_objects_by_district districts_data district_query)
    as [|first rest].
  { destruct (extractOne WRatio _ _ _) as [[[? ?] ?]|]; discriminate. }
  destruct (filter
              (fun r => mem (normalize (Object r))
                          (map fst (objects_norm_of
                                      (map do_object (first :: rest)))))
              (x :: kept)) as [|y ys] eqn:Ef; [discriminate|].
  intros [= <- <- <- <- <- _].
  exists df, (x :: kept), first, rest. rewrite Ef.
  repeat split; try reflexivity. exact Ew.
Qed.

End DistrictFacts.

(** What the grouping loop yields for the rows [search_by_district]
    filters from the window [kept], stated on normal forms. *)
Lemma by_object_groups (names : list str) (kept : list row) :
  let on := objects_norm_of names in
  let filtered :=
    filter (fun r => mem (normalize (Object r)) (map fst on)) kept in
  let res := fold_left (by_object_step on) filtered [] in
  NoDup (map fst res) /\
  (forall obj s, In (obj, s) res ->
     In obj names /\ s <> [] /\ NoDup s /\
     forall b, In b s <->
       b <> [] /\
       exists r, In r kept /\
         normalize (Object r) = normalize (Text obj) /\ broker_of r = b) /\
  (forall r name,
     In r kept -> In name names ->
     normalize (Object r) = normalize (Text name) -> broker_of r <> [] ->
     exists obj s, In (obj, s) res /\
       normalize (Text obj) = normalize (Text name) /\
       In (broker_of r) s).
Proof.
  intros on filtered res.
  destruct (objects_norm_of_sound names) as [Hon1 Hon2]. fold on in Hon1, Hon2.
  destruct (grouped_loop on filtered [] [] (grouped_start on))
    as (Hnd & Hsets & Hkeys).
  cbn [app] in Hsets, Hkeys. fold res in Hnd, Hsets, Hkeys.
  assert (F1 : forall r, In r filtered ->
            In r kept /\ In (name_of on r) names /\
            assoc_get on (normalize (Object r)) = Some (name_of on r) /\
            normalize (Text (name_of on r)) = normalize (Object r)).
  { intros r Hr. apply filter_In in Hr. destruct Hr as [Hk Hm].
    apply mem_In, assoc_get_keys in Hm. destruct Hm as [name Hget].
    unfold name_of. rewrite Hget. destruct (Hon1 _ _ Hget). auto. }
  assert (F2 : forall r name, In r kept -> In name names ->
            normalize (Object r) = normalize (Text name) ->
            In r filtered).
  { intros r name Hk Hn He. apply filter_In. split; [exact Hk|].
    apply mem_In. rewrite He. apply Hon2. exact Hn. }
  split; [exact Hnd|]. split.
  - intros obj s Hin. apply (In_assoc_get _ _ _ Hnd) in Hin.
    destruct (Hsets obj s Hin) as (Hne & Hnds & Hmem).
    assert (Hrep : In obj names /\
                   assoc_get on (normalize (Text obj)) = Some obj).
    { destruct s as [|b0 s']; [congruence|].
      destruct (proj1 (Hmem b0) (or_introl eq_refl))
        as (r & Hr & Hn & _ & _).
      destruct (F1 r Hr) as (_ & H1 & H2 & H3).
      rewrite Hn in H1, H2, H3. rewrite H3. auto. }
    destruct Hrep as [Hobj Hrep].
    split; [exact Hobj|]. split; [exact Hne|]. split; [exact Hnds|].
    intros b. rewrite Hmem. split.
    + intros (r & Hr & Hn & Hb & Hnb). split; [exact Hnb|].
      destruct (F1 r Hr) as (Hk & _ & _ & H3). exists r.
      rewrite Hn in H3. auto.
    + intros (Hnb & r & Hk & He & Hb). exists r.
      split; [exact (F2 r obj Hk Hobj He)|].
      split; [|auto]. unfold name_of. rewrite He, Hrep. reflexivity.
  - intros r name Hk Hn He Hnb.
    pose proof (F2 r name Hk Hn He) as Hr.
    destruct (Hkeys r Hr Hnb) as [s Hget].
    exists (name_of on r), s. split; [apply assoc_get_In; exact Hget|].
    destruct (F1 r Hr) as (_ & _ & _ & H3). split; [congruence|].
    apply (proj2 (Hsets _ _ Hget)). exists r. auto.
Qed.

(** X27: in a found answer of [search_by_district] every object is listed
    once; a listed object is the name of a reference record matching the
    query; its broker list is non-empty, in ascending order, without
    repetition, and holds exactly the non-empty stripped broker names of
    the rows of the date window whose object cell normalizes like that
    name. *)
Theorem search_by_district_by_object (WRatio : str -> str -> score)
    (file : option DataFrame)
    (districts_data : list (str * district_info)) (now : datetime)
    (district_query query : str) (d c : value) (days : Z)
    (by_object : list (str * list str)) (total : nat) :
  search_by_district WRatio file districts_data now district_query
  = Return (DistrictFound query d c days by_object total) ->
  query = district_query /\ days = 60%Z /\
  NoDup (map fst by_object) /\
  exists df kept,
    load_data file = inl df /\
    date_window now DAYS (rows df) = Return kept /\
    forall obj brokers, In (obj, brokers) by_object ->
      In obj (map do_object
                (get_objects_by_district districts_data district_query)) /\
      brokers <> [] /\ StronglySorted str_le brokers /\ NoDup brokers /\
      forall b, In b brokers <->
        b <> [] /\
        exists r, In r kept /\
          normalize (Object r) = normalize (Text obj) /\ broker_of r = b.
Proof.
  intros H.
  destruct (search_by_district_found_fields _ _ _ _ _ _ _ _ _ _ _ H)
    as (df & kept & first & rest & Hl & Hw & Hg & Hq & Hd & _ & _ & Hbo).
  destruct (by_object_groups (map do_object (first :: rest)) kept)
    as (Hnd & Hsound & _).
  split; [exact Hq|]. split; [exact Hd|]. split.
  - rewrite Hbo, map_map. cbn [fst]. exact Hnd.
  - exists df, kept. split; [exact Hl|]. split; [exact Hw|].
    intros obj brokers Hin. rewrite Hbo in Hin. apply in_map_iff in Hin.
    destruct Hin as ([obj' s] & [= <- <-] & Hin). cbn [fst snd].
    destruct (Hsound obj' s Hin) as (Hobj & Hne & Hnds & Hmem).
    rewrite Hg. split; [exact Hobj|]. split.
    + destruct s as [|b0 s']; [congruence|]. intros E.
      assert (Hb0 : In b0 (sorted (b0 :: s')))
        by (apply sorted_In; left; reflexivity).
      rewrite E in Hb0. destruct Hb0.
    + split; [apply sorted_sorted|]. split; [apply sorted_NoDup, Hnds|].
      intros b. rewrite sorted_In. apply Hmem.
Qed.

(** X28: the search by district compares names after normalization: a
    row of the date window with a non-blank broker, filed under any
    spelling that normalizes like the name of a matching reference record,
    is counted: the answer lists an object with that normal form and the
    row's broker under it. *)
Theorem search_by_district_counts_respelled (WRatio : str -> str -> score)
    (file : option DataFrame)
    (districts_data : list (str * district_info)) (now : datetime)
    (district_query query : str) (d c : value) (days : Z)
    (by_object : list (str * list str)) (total : nat) :
  search_by_district WRatio file districts_data now district_query
  = Return (DistrictFound query d c days by_object total) ->
  exists df kept,
    load_data file = inl df /\
    date_window now DAYS (rows df) = Return kept /\
    forall r name,
      In r kept ->
      In name (map do_object
                 (get_objects_by_district districts_data district_query)) ->
      normalize (Object r) = normalize (Text name) ->
      broker_of r <> [] ->
      exists obj brokers,
        In (obj, brokers) by_object /\
        normalize (Text obj) = normalize (Text name) /\
        In (broker_of r) brokers.
Proof.
  intros H.
  destruct (search_by_district_found_fields _ _ _ _ _ _ _ _ _ _ _ H)
    as (df & kept & first & rest & Hl & Hw & Hg & _ & _ & _ & _ & Hbo).
  destruct (by_object_groups (map do_object (first :: rest)) kept)
    as (_ & _ & Hcomplete).
  exists df, kept. split; [exact Hl|]. split; [exact Hw|].
  intros r name Hk Hn He Hnb. rewrite Hg in Hn.
  destruct (Hcomplete r name Hk Hn He Hnb) as (obj & s & Hin & Ho & Hb).
  exists obj, (sorted s). split; [|split; [exact Ho|]].
  - rewrite Hbo. apply in_map_iff. exists (obj, s). auto.
  - apply sorted_In. exact Hb.
Qed.

(** X29: the answer "no showings" is given exactly for a query that
    matches reference records none of whose names, after normalization,
    labels a row of a non-empty date window; it carries the names of all
    matching records in reference order and the district and city of the
    first one. *)
Theorem search_by_district_no_showings (WRatio : str -> str -> score)
    (file : option DataFrame)
    (districts_data : list (str * district_info)) (now : datetime)
    (district_query query : str) (d c : value) (names : list str)
    (days : Z) :
  search_by_district WRatio file districts_data now district_query
  = Return (DistrictNoShowings query d c names days) ->
  query = district_query /\ days = 60%Z /\
  names = map do_object
            (get_objects_by_district districts_data district_query) /\
  (exists first rest,
     get_objects_by_district districts_data district_query = first :: rest /\
     d = do_district first /\ c = do_city first) /\
  exists df kept,
    load_data file = inl df /\
    date_window now DAYS (rows df) = Return kept /\ kept <> [] /\
    forall r name, In r kept -> In name names ->
      normalize (Object r) <> normalize (Text name).
Proof.
  unfold search_by_district.
  destruct (load_data file) as [df|err] eqn:El; [|discriminate].
  destruct (date_window now DAYS (rows df)) as [[|x kept]|e] eqn:Ew;
    cbn [bind]; try discriminate.
  destruct (get_objects_by_district districts_data district_query)
    as [|first rest].
  { destruct (extractOne WRatio _ _ _) as [[[? ?] ?]|]; discriminate. }
  destruct (filter
              (fun r => mem (normalize (Object r))
                          (map fst (objects_norm_of
                                      (map do_object (first :: rest)))))
              (x :: kept)) as [|y ys] eqn:Ef; [|discriminate].
  intros [= <- <- <- <- <-].
  split; [reflexivity|]. split; [reflexivity|]. split; [reflexivity|].
  split; [exists first, rest; auto|].
  exists df, (x :: kept). split; [reflexivity|]. split; [exact Ew|].
  split; [discriminate|].
  intros r name Hr Hn He.
  assert (Hin : In r (filter
              (fun r => mem (normalize (Object r))
                          (map fst (objects_norm_of
                                      (map do_object (first :: rest)))))
              (x :: kept))).
  { apply filter_In. split; [exact Hr|]. apply mem_In. rewrite He.
    apply (proj2 (objects_norm_of_sound _)). exact Hn. }
  rewrite Ef in Hin. destruct Hin.
Qed.

(** *** The district search at work *)

Lemma search_by_district_suggestion_witness :
  let file := Some {| columns := required;
                      rows := [sample_row (u "Ivan") 738999 (u "Soul")] |} in
  let reference :=
    [ (u "Soul", {| district := Text (u "Soho"); city := Text (u "NY");
                    country := NA |}) ] in
  search_by_district ratio file reference sample_noon (u "Sono (NY)")
  = Return (DistrictNotFound (u "Sono (NY)") (Some (u "Soho (NY)")) 60) /\
  In (u "Soho (NY)") (get_all_districts reference) /\
  (70 <= ratio (normalize (Text (u "Sono (NY)")))
               (normalize (Text (u "Soho (NY)"))))%Q.
Proof.
  intros file reference.
  assert (E : search_by_district ratio file reference sample_noon
                (u "Sono (NY)")
              = Return (DistrictNotFound (u "Sono (NY)")
                          (Some (u "Soho (NY)")) 60))
    by (vm_compute; reflexivity).
  split; [exact E|].
  destruct (search_by_district_suggestion ratio _ _ _ _ _ _ _ E)
    as (_ & _ & _ & Hs & _).
  exact (Hs _ eq_refl).
Defined.

Lemma search_by_district_by_object_witness :
  let file := Some {| columns := required;
                      rows := [sample_row (u " Ivan ") 738999 (u "SOUL");
                               sample_row (u "Anna") 738999 (u "Soul");
                               sample_row (u "Ivan") 738999 (u "Slava")] |} in
  search_by_district ratio file sample_reference sample_noon (u "hamovniki")
  = Return (DistrictFound (u "hamovniki") (Text (u "Hamovniki"))
              (Text (u "Moscow")) 60 [(u "Soul", [u "Anna"; u "Ivan"])] 2) /\
  NoDup (map fst [(u "Soul", [u "Anna"; u "Ivan"])]).
Proof.
  intros file.
  assert (E : search_by_district ratio file sample_reference sample_noon
                (u "hamovniki")
              = Return (DistrictFound (u "hamovniki") (Text (u "Hamovniki"))
                          (Text (u "Moscow")) 60
                          [(u "Soul", [u "Anna"; u "Ivan"])] 2))
    by (vm_compute; reflexivity).
  split; [exact E|].
  exact (proj1 (proj2 (proj2
           (search_by_district_by_object ratio _ _ _ _ _ _ _ _ _ _ E)))).
Defined.

Lemma search_by_district_counts_respelled_witness :
  let file := Some {| columns := required;
                      rows := [sample_row (u " Ivan ") 738999 (u "SOUL")] |} in
  exists df kept,
    load_data file = inl df /\
    date_window sample_noon DAYS (rows df) = Return kept /\
    forall r name,
      In r kept ->
      In name (map do_object
                 (get_objects_by_district sample_reference (u "hamovniki"))) ->
      normalize (Object r) = normalize (Text name) ->
      broker_of r <> [] ->
      exists obj brokers,
        In (obj, brokers) [(u "Soul", [u "Ivan"])] /\
        normalize (Text obj) = normalize (Text name) /\
        In (broker_of r) brokers.
Proof.
  intros file.
  apply (search_by_district_counts_respelled ratio file sample_reference
           sample_noon (u "hamovniki") (u "hamovniki")
           (Text (u "Hamovniki")) (Text (u "Moscow")) 60
           [(u "Soul", [u "Ivan"])] 1).
  vm_compute. reflexivity.
Defined.

Lemma search_by_district_no_showings_witness :
  let file := Some {| columns := required;
                      rows := [sample_row (u "Ivan") 738999 (u "Prime")] |} in
  search_by_district ratio file sample_reference sample_noon (u "moscow")
  = Return (DistrictNoShowings (u "moscow") (Text (u "Hamovniki"))
              (Text (u "Moscow")) [u "Soul"; u "Slava"] 60) /\
  [u "Soul"; u "Slava"]
  = map do_object (get_objects_by_district sample_reference (u "moscow")).
Proof.
  intros file.
  assert (E : search_by_district ratio file sample_reference sample_noon
                (u "moscow")
              = Return (DistrictNoShowings (u "moscow")
                          (Text (u "Hamovniki")) (Text (u "Moscow"))
                          [u "Soul"; u "Slava"] 60))
    by (vm_compute; reflexivity).
  split; [exact E|].
  exact (proj1 (proj2 (proj2
           (search_by_district_no_showings ratio _ _ _ _ _ _ _ _ _ E)))).
Defined.

(** ** Replies of the district search *)

Lemma chunk_step_cases (sent : list str) (chunk line : str) :
  chunk_step (sent, chunk) line =
  if (3500 <? length chunk + length line)%nat
  then (sent ++ [chunk], line)
  else (sent, chunk ++ line).
Proof. reflexivity. Qed.

Lemma chunk_loop (all : list str) :
  forall (lines sent : list str) (chunk : str),
    (forall l, In l lines -> In l all) ->
    Forall (fun ch => (length ch <= 3500)%nat \/ In ch all) sent ->
    (length chunk <= 3500)%nat \/ In chunk all ->
    concat (fst (fold_left chunk_step lines (sent, chunk)))
    ++ snd (fold_left chunk_step lines (sent, chunk))
    = concat sent ++ chunk ++ concat lines /\
    Forall (fun ch => (length ch <= 3500)%nat \/ In ch all)
      (fst (fold_left chunk_step lines (sent, chunk))) /\
    ((length (snd (fold_left chunk_step lines (sent, chunk))) <= 3500)%nat
     \/ In (snd (fold_left chunk_step lines (sent, chunk))) all).
Proof.
  induction lines as [|line lines IH]; intros sent chunk Hall Hsent Hchunk.
  - cbn [fold_left fst snd concat]. rewrite app_nil_r. auto.
  - cbn [fold_left]. rewrite chunk_step_cases.
    destruct (Nat.ltb_spec 3500 (length chunk + length line)) as [Hbig|Hfit];
      cbv iota.
    + destruct (IH (sent ++ [chunk]) line) as (Hc & Hs & Hl).
      * intros l Hl. apply Hall. right; exact Hl.
      * apply Forall_app. split; [exact Hsent|]. constructor; [|constructor].
        exact Hchunk.
      * right. apply Hall. left; reflexivity.
      * split; [|auto]. eapply eq_trans; [exact Hc|].
        rewrite concat_app. cbn [concat].
        rewrite app_nil_r, <- !app_assoc. reflexivity.
    + destruct (IH sent (chunk ++ line)) as (Hc & Hs & Hl).
      * intros l Hl. apply Hall. right; exact Hl.
      * exact Hsent.
      * left. rewrite length_app. exact Hfit.
      * split; [|auto]. eapply eq_trans; [exact Hc|].
        cbn [concat]. rewrite <- !app_assoc. reflexivity.
Qed.

Lemma flush_sound (state : list str * str) :
  concat (flush state) = concat (fst state) ++ snd state /\
  forall ch, In ch (flush state) -> In ch (fst state) \/ ch = snd state.
Proof.
  destruct state as [sent chunk]. unfold flush. cbn [fst snd].
  destruct chunk as [|c chunk].
  - split; [symmetry; apply app_nil_r | auto].
  - split.
    + eapply eq_trans; [apply concat_app|]. cbn [concat].
      f_equal. apply app_nil_r.
    + intros ch Hin. apply in_app_iff in Hin.
      destruct Hin as [Hin|[<-|[]]]; auto.
Qed.

Lemma send_chunks_sound (lines : list str) :
  concat (send_chunks lines) = concat lines /\
  forall ch, In ch (send_chunks lines) ->
             (length ch <= 3500)%nat \/ In ch lines.
Proof.
  unfold send_chunks.
  match goal with
  | |- context [flush ?st] =>
      destruct (flush_sound st) as [Hf1 Hf2];
      assert (H : concat (fst st) ++ snd st = concat lines /\
                  Forall (fun ch => (length ch <= 3500)%nat \/ In ch lines)
                    (fst st) /\
                  ((length (snd st) <= 3500)%nat \/ In (snd st) lines))
        by exact (chunk_loop lines lines [] [] (fun l H => H)
                    (Forall_nil _) (or_introl (Nat.le_0_l _)));
      destruct H as (Hc & Hs & Hl)
  end.
  split.
  - eapply eq_trans; [exact Hf1 | exact Hc].
  - intros ch Hin. destruct (Hf2 ch Hin) as [Hin'| ->]; [|exact Hl].
    rewrite Forall_forall in Hs. exact (Hs ch Hin').
Qed.

(** X30: for a found district the handler sends the whole answer in one
    message when it has at most 4000 characters.  Otherwise it sends a
    summary and then the object lines cut into messages: these messages,
    put together, are the object lines in order, none lost and none
    repeated, and a message is longer than 3500 characters only when it is
    a single object line of that length. *)
Theorem handle_district_search_messages (WRatio : str -> str -> score)
    (file : option DataFrame)
    (districts_data : list (str * district_info)) (now : datetime)
    (district_query query : str) (d c : value) (days : Z)
    (by_object : list (str * list str)) (total : nat) :
  search_by_district WRatio file districts_data now district_query
  = Return (DistrictFound query d c days by_object total) ->
  let response := found_response d c days by_object total in
  let lines := map object_line by_object in
  ((length response <= 4000)%nat ->
   handle_district_search WRatio file districts_data now district_query
   = Return [response]) /\
  ((4000 < length response)%nat ->
   exists chunks,
     handle_district_search WRatio file districts_data now district_query
     = Return (found_summary d c days by_object total :: chunks) /\
     concat chunks = concat lines /\
     forall ch, In ch chunks ->
                (length ch <= 3500)%nat \/ In ch lines).
Proof.
  intros H response lines. unfold handle_district_search. rewrite H.
  cbn [bind district_replies]. fold response. fold lines. split.
  - intros Hlen. apply Nat.ltb_ge in Hlen. rewrite Hlen. reflexivity.
  - intros Hlen. apply Nat.ltb_lt in Hlen. rewrite Hlen.
    exists (send_chunks lines). split; [reflexivity|].
    apply send_chunks_sound.
Qed.

Lemma handle_district_search_messages_witness :
  let file := Some {| columns := required;
                      rows := [sample_row (u " Ivan ") 738999 (u "SOUL");
                               sample_row (u "Anna") 738999 (u "Soul")] |} in
  handle_district_search ratio file sample_reference sample_noon
    (u "hamovniki")
  = Return [found_response (Text (u "Hamovniki")) (Text (u "Moscow")) 60
              [(u "Soul", [u "Anna"; u "Ivan"])] 2].
Proof.
  intros file.
  refine (proj1 (handle_district_search_messages ratio file sample_reference
                   sample_noon (u "hamovniki") (u "hamovniki")
                   (Text (u "Hamovniki")) (Text (u "Moscow")) 60
                   [(u "Soul", [u "Anna"; u "Ivan"])] 2 _) _).
  - vm_compute. reflexivity.
  - vm_compute. repeat constructor.
Defined.

(** ** Worked examples *)

Example normalize_collapses :
  normalize (Text (u "  A    b ")) = u "a b".
Proof. reflexivity. Qed.

Example normalize_cyrillic :
  normalize (Text (u " Прайм   ПАРК")) = u "прайм парк".
Proof. reflexivity. Qed.

Example normalize_missing : normalize NA = [].
Proof. reflexivity. Qed.

Example transliterate_shagal :
  normalize_for_search (Text (u "Шагал")) = u "shagal".
Proof. reflexivity. Qed.

Example transliterate_soft_sign :
  transliterate_ru_to_en (u "Тверь 9") = u "tver 9".
Proof. reflexivity. Qed.

Example apply_aliases_canal :
  apply_aliases (u "Канал") = [u "канал"; u "canal"].
Proof. vm_compute. reflexivity. Qed.

Example apply_aliases_substring :
  apply_aliases (u "Клауд Тауэр") =
  [u "клауд тауэр"; u "cloud tower"; u "cloud тауэр"; u "клауд tower"].
Proof. vm_compute. reflexivity. Qed.

Example exact_tier_first :
  find_best_match ratio (u "prime park") [u "Prime Park"; u "Prime"]
  = (Some (u "Prime Park"), 100%Q, true).
Proof. vm_compute. reflexivity. Qed.

Example reverse_containment :
  find_best_match ratio (u "жк шагал москва") [u "Slava"; u "Шагал"]
  = (Some (u "Шагал"), 90%Q, true).
Proof. vm_compute. reflexivity. Qed.

Example empty_pool :
  find_best_match ratio (u "prime park") [] = (None, 0%Q, false).
Proof. reflexivity. Qed.

Example synonyms_of_shagal :
  get_synonyms (u "шагал") = [u "Шагал"; u "Shagal"].
Proof. vm_compute. reflexivity. Qed.

Example missing_date_column :
  load_data (Some {| columns := [u "Брокер"; u "Объект"]; rows := [] |})
  = inr (u "Отсутствует колонка: Дата").
Proof. vm_compute. reflexivity. Qed.

Example district_request_colon :
  district_request (u "Район: Хамовники") = u "Хамовники".
Proof. vm_compute. reflexivity. Qed.

Example str_of_nat_samples :
  str_of_nat 0 = u "0" /\ str_of_nat 60 = u "60" /\ str_of_nat 1205 = u "1205".
Proof. repeat split; reflexivity. Qed.

Example join_samples :
  join (u ", ") [u "Anna"; u "Ivan"] = u "Anna, Ivan" /\
  join (u ", ") [] = [] /\ join (u ", ") [u "Anna"] = u "Anna".
Proof. repeat split; reflexivity. Qed.

Example send_chunks_short :
  send_chunks [u "ab"; u "cd"] = [u "abcd"].
Proof. reflexivity. Qed.

Example all_districts_sample :
  get_all_districts sample_reference
  = [u "Begovoy (Moscow)"; u "Hamovniki (Moscow)"].
Proof. vm_compute. reflexivity. Qed.
